(** * Binary message parser: a shallow embedding of [binary-message-parser.js]

    The development follows the source file top to bottom:

    - the host runtime's [Buffer] primitives the parser calls
      ([alloc], [slice], [copy], [concat], the fixed-width [read*] methods);
    - the header extractor objects, kept in a store because the constructor
      receives a reference to a caller-owned object and writes to it;
    - the parser object and its methods, written in a small state/exception
      monad that also collects the callbacks handed to [setImmediate];
    - the ten POD extractors built by [createPODExtractor].

    JavaScript numbers are modelled by [Z]: every size, offset and count the
    parser computes from integer inputs is an integer.  Non-integral numbers,
    [NaN] and the exhaustion of memory are outside the model. *)

From Stdlib Require Import ZArith Lia List Bool.
From Stdlib Require Import Strings.Byte.
From stdpp Require Import base option list gmap strings.

Local Open Scope Z_scope.

(** ** Bytes and buffers *)

(** A [Buffer] is a fixed-length sequence of octets. *)
Abbreviation Buffer := (list byte).

Definition blen (b : Buffer) : Z := Z.of_nat (length b).

(** The numeric value of an octet, [0 .. 255]. *)
Definition byteval (b : byte) : Z := Z.of_N (Byte.to_N b).

(** Storing a number into a buffer keeps its low eight bits. *)
Definition byte_of (z : Z) : byte :=
  default x00 (Byte.of_N (Z.to_N (z mod 256))).

(** Errors that can be thrown or reported. *)
Inductive error : Type :=
  | ERR_INVALID_MSG_SIZE
  | PlainError (msg : string)
  | TypeError (msg : string)
  | RangeError (msg : string).

(** Completion of a call: a value, or a thrown error. *)
Inductive result (A : Type) : Type :=
  | Ok (a : A)
  | Throw (e : error).
Arguments Ok {A} a.
Arguments Throw {A} e.

(** The runtime's [Buffer] operations, as far as the parser relies on them. *)
Module Buf.

(** [Buffer.from(array)] *)
Definition from (l : list Z) : Buffer := map byte_of l.

(** [Buffer.alloc(size)]: zero-filled; a negative size is a [RangeError].
    The runtime refuses a size above [kMaxLength] as well.  No buffer that
    exists is longer than that, so the test can only fail for a size that
    comes from the caller: it is written out in [allocChecked], which the
    constructor calls; the parser's own allocation, of a message that lies in
    a buffer it holds, goes through [alloc]. *)
Definition alloc (size : Z) : result Buffer :=
  if size <? 0 then Throw (RangeError "The value of size is out of range")
  else Ok (replicate (Z.to_nat size) x00).

(** The largest size the runtime allocates, [buffer.constants.MAX_LENGTH]:
    [2^53 - 1] on 64-bit runtimes. *)
Definition kMaxLength : Z := 2 ^ 53 - 1.

(** [Buffer.alloc(size)] for a size the caller chose. *)
Definition allocChecked (size : Z) : result Buffer :=
  if kMaxLength <? size then
    Throw (RangeError "The value of size is out of range")
  else alloc size.

(** Index adjustment of [slice]: negative indices count from the end, and
    everything is clamped to [0 .. length]. *)
Definition clampIndex (len i : Z) : Z :=
  if i <? 0 then Z.max (len + i) 0 else Z.min i len.

(** [buf.slice(start, end)] (only ever read by the parser). *)
Definition slice (b : Buffer) (start stop : Z) : Buffer :=
  let s := clampIndex (blen b) start in
  let e := clampIndex (blen b) stop in
  take (Z.to_nat (e - s)) (drop (Z.to_nat s) b).

(** [Buffer.concat([a, b])] *)
Definition concat2 (a b : Buffer) : Buffer := a ++ b.

(** [source.copy(target, targetStart, sourceStart, sourceEnd)]: the new
    contents of [target].  Negative arguments and a [sourceStart] beyond the
    source are range errors; an empty range copies nothing; the range is cut
    to what the source holds and to what fits in the target. *)
Definition copy (source target : Buffer)
    (targetStart sourceStart sourceEnd : Z) : result Buffer :=
  if targetStart <? 0 then Throw (RangeError "targetStart is out of range")
  else if (sourceStart <? 0) || (blen source <? sourceStart)
    then Throw (RangeError "sourceStart is out of range")
  else if sourceEnd <? 0 then Throw (RangeError "sourceEnd is out of range")
  else if (blen target <=? targetStart) || (sourceEnd <=? sourceStart)
    then Ok target
  else
    let sourceEnd := Z.min sourceEnd (blen source) in
    let nb := Z.min (sourceEnd - sourceStart) (blen target - targetStart) in
    Ok (take (Z.to_nat targetStart) target
          ++ take (Z.to_nat nb) (drop (Z.to_nat sourceStart) source)
          ++ drop (Z.to_nat (targetStart + nb)) target).

(** Conversion of a number to a signed 32-bit integer, as the bitwise
    operators do to their operands. *)
Definition toInt32 (z : Z) : Z := (z + 2 ^ 31) mod 2 ^ 32 - 2 ^ 31.

(** [a | b] and [a << n] on numbers. *)
Definition bitor (a b : Z) : Z := Z.lor (toInt32 a) (toInt32 b).
Definition bitand (a b : Z) : Z := Z.land (toInt32 a) (toInt32 b).
Definition shl (a n : Z) : Z := toInt32 (Z.shiftl (toInt32 a) (n mod 32)).

(** [buf[i]]: [undefined] outside the buffer. *)
Definition at_ (b : Buffer) (i : Z) : option Z :=
  if i <? 0 then None else byteval <$> b !! Z.to_nat i.

Definition boundsError : error :=
  RangeError "Attempt to access memory outside buffer bounds".

(** The fixed-width readers, at the offset the extractors use. *)
Definition readUInt8 (b : Buffer) (offset : Z) : result Z :=
  match at_ b offset with
  | Some val => Ok val
  | None => Throw boundsError
  end.

Definition readInt8 (b : Buffer) (offset : Z) : result Z :=
  match at_ b offset with
  | Some val => Ok (bitor val (bitand val (2 ^ 7) * 33554430))
  | None => Throw boundsError
  end.

Definition readUInt16LE (b : Buffer) (offset : Z) : result Z :=
  match at_ b offset, at_ b (offset + 1) with
  | Some first, Some last => Ok (first + last * 2 ^ 8)
  | _, _ => Throw boundsError
  end.

Definition readUInt16BE (b : Buffer) (offset : Z) : result Z :=
  match at_ b offset, at_ b (offset + 1) with
  | Some first, Some last => Ok (first * 2 ^ 8 + last)
  | _, _ => Throw boundsError
  end.

Definition readInt16LE (b : Buffer) (offset : Z) : result Z :=
  match at_ b offset, at_ b (offset + 1) with
  | Some first, Some last =>
      let val := first + last * 2 ^ 8 in
      Ok (bitor val (bitand val (2 ^ 15) * 131070))
  | _, _ => Throw boundsError
  end.

Definition readInt16BE (b : Buffer) (offset : Z) : result Z :=
  match at_ b offset, at_ b (offset + 1) with
  | Some first, Some last =>
      let val := first * 2 ^ 8 + last in
      Ok (bitor val (bitand val (2 ^ 15) * 131070))
  | _, _ => Throw boundsError
  end.

Definition readUInt32LE (b : Buffer) (offset : Z) : result Z :=
  match at_ b offset, at_ b (offset + 1), at_ b (offset + 2), at_ b (offset + 3) with
  | Some first, Some b1, Some b2, Some last =>
      Ok (first + b1 * 2 ^ 8 + b2 * 2 ^ 16 + last * 2 ^ 24)
  | _, _, _, _ => Throw boundsError
  end.

Definition readUInt32BE (b : Buffer) (offset : Z) : result Z :=
  match at_ b offset, at_ b (offset + 1), at_ b (offset + 2), at_ b (offset + 3) with
  | Some first, Some b1, Some b2, Some last =>
      Ok (first * 2 ^ 24 + b1 * 2 ^ 16 + b2 * 2 ^ 8 + last)
  | _, _, _, _ => Throw boundsError
  end.

Definition readInt32LE (b : Buffer) (offset : Z) : result Z :=
  match at_ b offset, at_ b (offset + 1), at_ b (offset + 2), at_ b (offset + 3) with
  | Some first, Some b1, Some b2, Some last =>
      Ok (first + b1 * 2 ^ 8 + b2 * 2 ^ 16 + shl last 24)
  | _, _, _, _ => Throw boundsError
  end.

Definition readInt32BE (b : Buffer) (offset : Z) : result Z :=
  match at_ b offset, at_ b (offset + 1), at_ b (offset + 2), at_ b (offset + 3) with
  | Some first, Some b1, Some b2, Some last =>
      Ok (shl first 24 + b1 * 2 ^ 16 + b2 * 2 ^ 8 + last)
  | _, _, _, _ => Throw boundsError
  end.

End Buf.

(** ** Values, objects and the store

    The constructor receives its extractor by reference and tests it with
    [typeof]; what it is given may be any value.  Objects live in a store,
    addressed by location, so that two holders of the same reference see the
    same properties. *)

Abbreviation loc := positive.

(** Function values.  A function used as [extractMessageSize] maps header
    bytes to a number (or throws); one used as [validateMessageSize] maps a
    number to an answer, of which the parser only asks whether it is the
    value [true]. *)
Inductive jsfun : Type :=
  | FnSize (f : Buffer -> result Z)
  | FnPredicate (f : Z -> bool).

Inductive value : Type :=
  | VUndefined
  | VNull
  | VBoolean (b : bool)
  | VNumber (n : Z)
  | VString (s : string)
  | VFunction (f : jsfun)
  | VObject (l : loc).

(** An object: its properties, and whether it is itself callable (a function
    or class carrying properties). *)
Record object : Type := mkObject {
  callable : bool;
  properties : gmap string value }.

Abbreviation store := (gmap loc object).

(** [typeof v].  A location that holds no object denotes nothing. *)
Definition typeof (h : store) (v : value) : string :=
  match v with
  | VUndefined => "undefined"
  | VNull => "object"
  | VBoolean _ => "boolean"
  | VNumber _ => "number"
  | VString _ => "string"
  | VFunction _ => "function"
  | VObject l =>
      match h !! l with
      | Some o => if callable o then "function" else "object"
      | None => "undefined"
      end
  end.

(** [o.name]: a missing property reads as [undefined]. *)
Definition getProp (o : object) (name : string) : value :=
  default VUndefined (properties o !! name).

(** [o.name = v] *)
Definition setProp (o : object) (name : string) (v : value) : object :=
  mkObject (callable o) (<[name := v]> (properties o)).

(** The extractor as the parser's methods use it, once its members have the
    types the constructor checked. *)
Record HeaderExtractor : Type := mkExtractor {
  headerByteCount : Z;
  extractMessageSize : Buffer -> result Z;
  validateMessageSize : Z -> bool }.

Definition extractorOf (o : object) : option HeaderExtractor :=
  match getProp o "headerByteCount",
        getProp o "extractMessageSize",
        getProp o "validateMessageSize" with
  | VNumber n, VFunction (FnSize f), VFunction (FnPredicate g) =>
      Some (mkExtractor n f g)
  | _, _, _ => None
  end.

Definition extractorAt (h : store) (l : loc) : option HeaderExtractor :=
  h !! l ≫= extractorOf.

(** ** The parser object *)

Record BinaryMessageParser : Type := mkParser {
  headerExtractor : loc;
  unfinishedMessageBuffer : Buffer;
  unfinishedMessageSize : Z;
  expectedMessageSize : Z;
  bMessageHeaderExtracted : bool;
  bShutdown : bool;
  lastError : option error }.

Definition set_unfinishedMessageBuffer (b : Buffer) (p : BinaryMessageParser) :=
  mkParser (headerExtractor p) b (unfinishedMessageSize p) (expectedMessageSize p)
    (bMessageHeaderExtracted p) (bShutdown p) (lastError p).
Definition set_unfinishedMessageSize (n : Z) (p : BinaryMessageParser) :=
  mkParser (headerExtractor p) (unfinishedMessageBuffer p) n (expectedMessageSize p)
    (bMessageHeaderExtracted p) (bShutdown p) (lastError p).
Definition set_expectedMessageSize (n : Z) (p : BinaryMessageParser) :=
  mkParser (headerExtractor p) (unfinishedMessageBuffer p) (unfinishedMessageSize p) n
    (bMessageHeaderExtracted p) (bShutdown p) (lastError p).
Definition set_bMessageHeaderExtracted (b : bool) (p : BinaryMessageParser) :=
  mkParser (headerExtractor p) (unfinishedMessageBuffer p) (unfinishedMessageSize p)
    (expectedMessageSize p) b (bShutdown p) (lastError p).
Definition set_bShutdown (b : bool) (p : BinaryMessageParser) :=
  mkParser (headerExtractor p) (unfinishedMessageBuffer p) (unfinishedMessageSize p)
    (expectedMessageSize p) (bMessageHeaderExtracted p) b (lastError p).
Definition set_lastError (e : option error) (p : BinaryMessageParser) :=
  mkParser (headerExtractor p) (unfinishedMessageBuffer p) (unfinishedMessageSize p)
    (expectedMessageSize p) (bMessageHeaderExtracted p) (bShutdown p) e.

(** The constructor.  It returns the store, which it may have written to, and
    either the new parser or the error thrown.  The installation of the
    default validator precedes the test of [initialBufferSize]; a size that
    passes the test can still be more than [Buffer.alloc] grants. *)
Definition always_true : jsfun := FnPredicate (fun _ => true).

Definition new_BinaryMessageParser (h : store)
    (headerExtractor initialBufferSize : value)
    : store * result BinaryMessageParser :=
  if bool_decide (typeof h headerExtractor ≠ "object") then
    (h, Throw (TypeError "invalid header extractor"))
  else
    match headerExtractor with
    | VObject l =>
        match h !! l with
        | Some o =>
            if bool_decide (typeof h (getProp o "headerByteCount") ≠ "number")
               || bool_decide (typeof h (getProp o "extractMessageSize") ≠ "function")
            then (h, Throw (TypeError "invalid header extractor"))
            else
              let h1 :=
                if bool_decide (typeof h (getProp o "validateMessageSize") ≠ "function")
                then <[l := setProp o "validateMessageSize" (VFunction always_true)]> h
                else h in
              let initialBufferSize :=
                match initialBufferSize with
                | VNumber n => n
                | _ => 10240
                end in
              if initialBufferSize <=? 0 then
                (h1, Throw (RangeError "initialBufferSize must be greater than 0"))
              else
                match Buf.allocChecked initialBufferSize with
                | Ok buffer => (h1, Ok (mkParser l buffer 0 0 false false None))
                | Throw e => (h1, Throw e)
                end
        | None => (h, Throw (TypeError "invalid header extractor"))
        end
    | _ =>
        (* [null]: reading a property of it throws *)
        (h, Throw (TypeError "Cannot read properties of null"))
    end.

(** ** Deferred callbacks and notifications *)

(** What the parser hands to [setImmediate].  The closure made on the
    continuation path reads [this.expectedMessageSize] when it runs; the one
    made on the fresh-message path has captured the size. *)
Inductive task : Type :=
  | EmitMessage (message : Buffer)
  | ReportInvalidSize (size : Z)
  | ReportInvalidExpectedSize.

(** What listeners observe: [emit('message', message)] and
    [emit('error', ERR_INVALID_MSG_SIZE, { size })]. *)
Inductive notification : Type :=
  | OnMessage (message : Buffer)
  | OnError (err : error) (size : Z).

Definition _error (err : error) (size : Z) (this : BinaryMessageParser)
    : BinaryMessageParser * notification :=
  (set_lastError (Some err) this, OnError ERR_INVALID_MSG_SIZE size).

Definition runImmediate (t : task) (this : BinaryMessageParser)
    : BinaryMessageParser * notification :=
  match t with
  | EmitMessage message => (this, OnMessage message)
  | ReportInvalidSize size => _error ERR_INVALID_MSG_SIZE size this
  | ReportInvalidExpectedSize =>
      _error ERR_INVALID_MSG_SIZE (expectedMessageSize this) this
  end.

Fixpoint runImmediates (ts : list task) (this : BinaryMessageParser)
    : BinaryMessageParser * list notification :=
  match ts with
  | [] => (this, [])
  | t :: ts' =>
      let '(this1, n) := runImmediate t this in
      let '(this2, ns) := runImmediates ts' this1 in
      (this2, n :: ns)
  end.

(** ** The method monad

    A method body runs on the parser object, may throw, and may schedule
    callbacks. *)
Definition M (A : Type) : Type :=
  BinaryMessageParser -> result A * BinaryMessageParser * list task.

Definition ret {A} (a : A) : M A := fun this => (Ok a, this, []).

Definition bind {A B} (m : M A) (k : A -> M B) : M B := fun this =>
  match m this with
  | (Ok a, this1, q1) =>
      match k a this1 with
      | (r, this2, q2) => (r, this2, q1 ++ q2)
      end
  | (Throw e, this1, q1) => (Throw e, this1, q1)
  end.

Definition get : M BinaryMessageParser := fun this => (Ok this, this, []).
Definition modify (f : BinaryMessageParser -> BinaryMessageParser) : M unit :=
  fun this => (Ok tt, f this, []).
Definition lift {A} (r : result A) : M A := fun this => (r, this, []).
Definition setImmediate (t : task) : M unit := fun this => (Ok tt, this, [t]).

Declare Scope method_scope.
Delimit Scope method_scope with method.
Notation "'do' x <- m ; k" := (bind m (fun x => k))
  (at level 10, x name, m at level 100, k at level 200) : method_scope.
Notation "m ;; k" := (bind m (fun _ => k))
  (at level 100, k at level 200, right associativity) : method_scope.

Definition isShutdown (this : BinaryMessageParser) : bool := bShutdown this.

Definition isFinished (this : BinaryMessageParser) : bool :=
  unfinishedMessageSize this =? 0.

Section Methods.

Variable E : HeaderExtractor.
Local Open Scope method_scope.

Definition _reset : M unit :=
  modify (set_bMessageHeaderExtracted false) ;;
  modify (set_expectedMessageSize 0) ;;
  modify (set_unfinishedMessageSize 0).

Definition _extractMessageSize (dataBuffer : Buffer) (offset : Z) : M Z :=
  let idxEnd := offset + headerByteCount E in
  let slice := Buf.slice dataBuffer offset idxEnd in
  lift (extractMessageSize E slice).

Definition _notifyMessageReceived (dataBuffer : Buffer) (offset size : Z)
    : M unit :=
  _reset ;;
  do message <- lift (Buf.alloc size) ;
  do message <- lift (Buf.copy dataBuffer message 0 offset (offset + size)) ;
  setImmediate (EmitMessage message).

Definition _appendToUnfinishedMessage (dataBuffer : Buffer) (offset count : Z)
    : M unit :=
  do this <- get ;
  let availableSpace :=
    blen (unfinishedMessageBuffer this) - unfinishedMessageSize this in
  if availableSpace <? count then
    let significantUnfinBuffer :=
      Buf.slice (unfinishedMessageBuffer this) 0 (unfinishedMessageSize this) in
    let bufferToAppend := Buf.slice dataBuffer offset (offset + count) in
    modify (set_unfinishedMessageBuffer
              (Buf.concat2 significantUnfinBuffer bufferToAppend)) ;;
    modify (set_unfinishedMessageSize (unfinishedMessageSize this + count))
  else
    do buffer <- lift (Buf.copy dataBuffer (unfinishedMessageBuffer this)
                         (unfinishedMessageSize this) offset (offset + count)) ;
    modify (set_unfinishedMessageBuffer buffer) ;;
    modify (set_unfinishedMessageSize (unfinishedMessageSize this + count)).

Definition _startNewMessage (dataBuffer : Buffer) (offset : Z) : M Z :=
  let availableBytesCount := blen dataBuffer - offset in
  if availableBytesCount <? headerByteCount E then
    _appendToUnfinishedMessage dataBuffer offset availableBytesCount ;;
    modify (set_expectedMessageSize (headerByteCount E)) ;;
    modify (set_bMessageHeaderExtracted false) ;;
    ret availableBytesCount
  else
    do messageSize <- _extractMessageSize dataBuffer offset ;
    if negb (validateMessageSize E messageSize) then
      setImmediate (ReportInvalidSize messageSize) ;;
      ret (-1)
    else if messageSize <=? availableBytesCount then
      _notifyMessageReceived dataBuffer offset messageSize ;;
      ret messageSize
    else
      _appendToUnfinishedMessage dataBuffer offset availableBytesCount ;;
      modify (set_expectedMessageSize messageSize) ;;
      modify (set_bMessageHeaderExtracted true) ;;
      ret availableBytesCount.

Definition _continueUnfinishedMessage (dataBuffer : Buffer) (offset : Z)
    : M Z :=
  do this <- get ;
  let missingBytesCount :=
    expectedMessageSize this - unfinishedMessageSize this in
  let availableBytesCount := blen dataBuffer - offset in
  if availableBytesCount <? missingBytesCount then
    _appendToUnfinishedMessage dataBuffer offset availableBytesCount ;;
    ret availableBytesCount
  else
    _appendToUnfinishedMessage dataBuffer offset missingBytesCount ;;
    do this <- get ;
    if bMessageHeaderExtracted this then
      _notifyMessageReceived (unfinishedMessageBuffer this) 0
        (expectedMessageSize this) ;;
      ret missingBytesCount
    else
      do size <- _extractMessageSize (unfinishedMessageBuffer this) 0 ;
      modify (set_expectedMessageSize size) ;;
      modify (set_bMessageHeaderExtracted true) ;;
      if negb (validateMessageSize E size) then
        setImmediate ReportInvalidExpectedSize ;;
        ret (-1)
      else
        ret missingBytesCount.

(** The [while (offset < bytes.length)] loop of [parseBytes].  The loop need
    not end, so it is run on a budget of iterations; [None] says the budget
    was used up with the loop still running. *)
Fixpoint drain (fuel : nat) (bytes : Buffer) (offset : Z)
    (this : BinaryMessageParser)
    : option (result bool * BinaryMessageParser * list task) :=
  if offset <? blen bytes then
    match fuel with
    | O => None
    | S fuel' =>
        let step :=
          if isFinished this then _startNewMessage bytes offset
          else _continueUnfinishedMessage bytes offset in
        match step this with
        | (Throw e, this1, q1) => Some (Throw e, this1, q1)
        | (Ok bytesParsed, this1, q1) =>
            if bytesParsed <? 0 then
              Some (Ok false, set_bShutdown true this1, q1)
            else
              match drain fuel' bytes (offset + bytesParsed) this1 with
              | Some (r, this2, q2) => Some (r, this2, q1 ++ q2)
              | None => None
              end
        end
    end
  else Some (Ok true, this, []).

(** [parseBytes(bytes)] on a [Buffer]; the conversion of other arguments
    by [Buffer.from(bytes, encoding)] is left out. *)
Definition parseBytes (fuel : nat) (bytes : Buffer)
    (this : BinaryMessageParser)
    : option (result bool * BinaryMessageParser * list task) :=
  if isShutdown this then Some (Ok false, this, [])
  else drain fuel bytes 0 this.

(** [_write(chunk, encoding, done)], the sink side of the stream: the
    arguments of the calls it makes to [done], in order. *)
Definition _write (fuel : nat) (chunk : Buffer) (this : BinaryMessageParser)
    : option (result (list (option error)) * BinaryMessageParser * list task) :=
  match parseBytes fuel chunk this with
  | Some (Ok r, this1, q) =>
      let calls :=
        if r then [None]
        else [Some (default (PlainError "unknown error") (lastError this1)); None] in
      Some (Ok calls, this1, q)
  | Some (Throw e, this1, q) => Some (Throw e, this1, q)
  | None => None
  end.

End Methods.

(** [parseBytes] as a caller invokes it: the extractor is read through the
    reference the parser holds, in the store as it is at the call.  The
    methods are only followed for members of the types the constructor
    admitted; an extractor the caller has since changed to other types ends
    the call with a [TypeError]. *)
Definition parseBytes_in (h : store) (fuel : nat) (bytes : Buffer)
    (this : BinaryMessageParser)
    : option (result bool * BinaryMessageParser * list task) :=
  match extractorAt h (headerExtractor this) with
  | Some E => parseBytes E fuel bytes this
  | None => Some (Throw (TypeError "header extractor member has the wrong type"), this, [])
  end.

(** An iteration budget for one chunk; it suffices whenever the validator
    accepts no size below 1. *)
Definition enough (bytes : Buffer) : nat := 3 * length bytes + 3.

(** Feeding chunks one call after the other; the callbacks accumulate in the
    order they were scheduled.  Feeding stops at an exhausted budget or a
    thrown error. *)
Fixpoint feed (E : HeaderExtractor) (chunks : list Buffer)
    (this : BinaryMessageParser)
    : option (list bool * BinaryMessageParser * list task) :=
  match chunks with
  | [] => Some ([], this, [])
  | c :: chunks' =>
      match parseBytes E (enough c) c this with
      | Some (Ok r, this1, q1) =>
          match feed E chunks' this1 with
          | Some (rs, this2, q2) => Some (r :: rs, this2, q1 ++ q2)
          | None => None
          end
      | _ => None
      end
  end.

(** ** The POD extractors *)

Inductive readMethod : Type :=
  | readInt8 | readUInt8
  | readInt16LE | readUInt16LE | readInt16BE | readUInt16BE
  | readInt32LE | readUInt32LE | readInt32BE | readUInt32BE.

(** [buffer[methodName](0)] *)
Definition callRead (methodName : readMethod) (buffer : Buffer) : result Z :=
  match methodName with
  | readInt8 => Buf.readInt8 buffer 0
  | readUInt8 => Buf.readUInt8 buffer 0
  | readInt16LE => Buf.readInt16LE buffer 0
  | readUInt16LE => Buf.readUInt16LE buffer 0
  | readInt16BE => Buf.readInt16BE buffer 0
  | readUInt16BE => Buf.readUInt16BE buffer 0
  | readInt32LE => Buf.readInt32LE buffer 0
  | readUInt32LE => Buf.readUInt32LE buffer 0
  | readInt32BE => Buf.readInt32BE buffer 0
  | readUInt32BE => Buf.readUInt32BE buffer 0
  end.

Definition createPODExtractor (headerByteCount : Z) (methodName : readMethod)
    : HeaderExtractor :=
  {| headerByteCount := headerByteCount;
     extractMessageSize := fun buffer => callRead methodName buffer;
     validateMessageSize := fun size => headerByteCount <=? size |}.

Definition HeaderExtractorInt8 := createPODExtractor 1 readInt8.
Definition HeaderExtractorUInt8 := createPODExtractor 1 readUInt8.
Definition HeaderExtractorInt16LE := createPODExtractor 2 readInt16LE.
Definition HeaderExtractorUInt16LE := createPODExtractor 2 readUInt16LE.
Definition HeaderExtractorInt16BE := createPODExtractor 2 readInt16BE.
Definition HeaderExtractorUInt16BE := createPODExtractor 2 readUInt16BE.
Definition HeaderExtractorInt32LE := createPODExtractor 4 readInt32LE.
Definition HeaderExtractorUInt32LE := createPODExtractor 4 readUInt32LE.
Definition HeaderExtractorInt32BE := createPODExtractor 4 readInt32BE.
Definition HeaderExtractorUInt32BE := createPODExtractor 4 readUInt32BE.

(** The same extractor as an object in the store. *)
Definition objectOfExtractor (E : HeaderExtractor) : object :=
  mkObject false
    (<["headerByteCount" := VNumber (headerByteCount E)]>
       (<["extractMessageSize" := VFunction (FnSize (extractMessageSize E))]>
          (<["validateMessageSize" := VFunction (FnPredicate (validateMessageSize E))]>
             ∅))).

(** A parser as the constructor leaves it, for a given buffer capacity. *)
Definition fresh (l : loc) (capacity : Z) : BinaryMessageParser :=
  mkParser l (replicate (Z.to_nat capacity) x00) 0 0 false false None.

(** ** Vocabulary of the statements *)

(** The parser with its carry fields replaced. *)
Definition carry (buffer : Buffer) (size expected : Z) (extracted : bool)
    (this : BinaryMessageParser) : BinaryMessageParser :=
  mkParser (headerExtractor this) buffer size expected extracted
    (bShutdown this) (lastError this).

(** The carry buffer after [chunk] has been appended behind its first
    [size] bytes: reallocated to fit exactly when the chunk exceeds the free
    space, written in place otherwise. *)
Definition appended (buffer : Buffer) (size : Z) (chunk : Buffer) : Buffer :=
  if blen buffer - size <? blen chunk then
    take (Z.to_nat size) buffer ++ chunk
  else
    take (Z.to_nat size) buffer ++ chunk
      ++ drop (Z.to_nat (size + blen chunk)) buffer.

(** A message of extractor [E]: a byte sequence that holds a header, whose
    header declares the sequence's own length, and whose length is accepted. *)
Definition valid_message (E : HeaderExtractor) (M : Buffer) : Prop :=
  headerByteCount E <= blen M /\
  extractMessageSize E (take (Z.to_nat (headerByteCount E)) M) = Ok (blen M) /\
  validateMessageSize E (blen M) = true.

(** One iteration of the loop of [parseBytes]. *)
Definition step (E : HeaderExtractor) (bytes : Buffer) (offset : Z)
    (this : BinaryMessageParser)
    : result Z * BinaryMessageParser * list task :=
  (if isFinished this then _startNewMessage E bytes offset
   else _continueUnfinishedMessage E bytes offset) this.

(** What one iteration can do, case by case, on any state and any input.
    [available] is what the chunk still holds, [missing] what the message in
    progress still lacks. *)
Inductive step_outcome (E : HeaderExtractor) (bytes : Buffer) (offset : Z)
    (this : BinaryMessageParser)
    : result Z -> BinaryMessageParser -> list task -> Prop :=
  | start_short_header buffer :
      isFinished this = true ->
      blen bytes - offset < headerByteCount E ->
      step_outcome E bytes offset this
        (Ok (blen bytes - offset))
        (carry buffer (unfinishedMessageSize this + (blen bytes - offset))
           (headerByteCount E) false this)
        []
  | start_invalid size :
      isFinished this = true ->
      headerByteCount E <= blen bytes - offset ->
      extractMessageSize E
        (Buf.slice bytes offset (offset + headerByteCount E)) = Ok size ->
      validateMessageSize E size = false ->
      step_outcome E bytes offset this (Ok (-1)) this [ReportInvalidSize size]
  | start_whole size message :
      isFinished this = true ->
      headerByteCount E <= blen bytes - offset ->
      extractMessageSize E
        (Buf.slice bytes offset (offset + headerByteCount E)) = Ok size ->
      validateMessageSize E size = true ->
      size <= blen bytes - offset ->
      step_outcome E bytes offset this
        (Ok size) (carry (unfinishedMessageBuffer this) 0 0 false this)
        [EmitMessage message]
  | start_part size buffer :
      isFinished this = true ->
      headerByteCount E <= blen bytes - offset ->
      extractMessageSize E
        (Buf.slice bytes offset (offset + headerByteCount E)) = Ok size ->
      validateMessageSize E size = true ->
      blen bytes - offset < size ->
      step_outcome E bytes offset this
        (Ok (blen bytes - offset))
        (carry buffer (unfinishedMessageSize this + (blen bytes - offset))
           size true this)
        []
  | continue_short buffer :
      isFinished this = false ->
      blen bytes - offset < expectedMessageSize this - unfinishedMessageSize this ->
      step_outcome E bytes offset this
        (Ok (blen bytes - offset))
        (carry buffer (unfinishedMessageSize this + (blen bytes - offset))
           (expectedMessageSize this) (bMessageHeaderExtracted this) this)
        []
  | continue_whole buffer message :
      isFinished this = false ->
      expectedMessageSize this - unfinishedMessageSize this <= blen bytes - offset ->
      bMessageHeaderExtracted this = true ->
      step_outcome E bytes offset this
        (Ok (expectedMessageSize this - unfinishedMessageSize this))
        (carry buffer 0 0 false this)
        [EmitMessage message]
  | continue_header_valid buffer size :
      isFinished this = false ->
      expectedMessageSize this - unfinishedMessageSize this <= blen bytes - offset ->
      bMessageHeaderExtracted this = false ->
      extractMessageSize E (Buf.slice buffer 0 (0 + headerByteCount E)) = Ok size ->
      validateMessageSize E size = true ->
      step_outcome E bytes offset this
        (Ok (expectedMessageSize this - unfinishedMessageSize this))
        (carry buffer (expectedMessageSize this) size true this)
        []
  | continue_header_invalid buffer size :
      isFinished this = false ->
      expectedMessageSize this - unfinishedMessageSize this <= blen bytes - offset ->
      bMessageHeaderExtracted this = false ->
      extractMessageSize E (Buf.slice buffer 0 (0 + headerByteCount E)) = Ok size ->
      validateMessageSize E size = false ->
      step_outcome E bytes offset this
        (Ok (-1))
        (carry buffer (expectedMessageSize this) size true this)
        [ReportInvalidExpectedSize]
  | step_throws e buffer size expected extracted :
      step_outcome E bytes offset this
        (Throw e) (carry buffer size expected extracted this) [].

(** The loop of [parseBytes] on [bytes], entered with the parser [this0], is
    at its head for the [k]-th time with the given offset and parser, the
    callbacks [q] scheduled so far. *)
Inductive loop_at (E : HeaderExtractor) (bytes : Buffer)
    (this0 : BinaryMessageParser)
    : nat -> Z -> BinaryMessageParser -> list task -> Prop :=
  | loop_entry : loop_at E bytes this0 0 0 this0 []
  | loop_next k offset this q bytesParsed this1 q1 :
      loop_at E bytes this0 k offset this q ->
      offset < blen bytes ->
      step E bytes offset this = (Ok bytesParsed, this1, q1) ->
      0 <= bytesParsed ->
      loop_at E bytes this0 (S k) (offset + bytesParsed) this1 (q ++ q1).

(** At this loop head the iteration extracts the message size [size] and the
    validator refuses it: from the chunk when no message is in progress, from
    the carry buffer when the chunk completes a header in progress. *)
Definition rejects (E : HeaderExtractor) (bytes : Buffer) (offset : Z)
    (this : BinaryMessageParser) (size : Z) : Prop :=
  offset < blen bytes /\
  validateMessageSize E size = false /\
  if isFinished this then
    headerByteCount E <= blen bytes - offset /\
    extractMessageSize E
      (Buf.slice bytes offset (offset + headerByteCount E)) = Ok size
  else
    let missing := expectedMessageSize this - unfinishedMessageSize this in
    bMessageHeaderExtracted this = false /\
    missing <= blen bytes - offset /\
    exists this1,
      _appendToUnfinishedMessage bytes offset missing this = (Ok tt, this1, []) /\
      extractMessageSize E
        (Buf.slice (unfinishedMessageBuffer this1) 0 (0 + headerByteCount E))
        = Ok size.

(** Progress measure of the loop: three units per byte left in the chunk,
    plus the stage of the message in progress. *)
Definition phase (this : BinaryMessageParser) : Z :=
  if isFinished this then 0
  else if bMessageHeaderExtracted this then 1 else 2.

Definition measure (bytes : Buffer) (offset : Z) (this : BinaryMessageParser) : Z :=
  3 * (blen bytes - offset) + phase this.

(** What can be done to a parser once it exists. *)
Inductive operation : Type :=
  | CallParseBytes (fuel : nat) (bytes : Buffer)
  | CallWrite (fuel : nat) (chunk : Buffer)
  | CallIsShutdown
  | CallIsFinished
  | CallReset
  | RunImmediate (t : task).

(** The parser after an operation ([None]: the operation is still running
    when its budget ends). *)
Definition perform (E : HeaderExtractor) (op : operation)
    (this : BinaryMessageParser) : option BinaryMessageParser :=
  match op with
  | CallParseBytes fuel bytes =>
      match parseBytes E fuel bytes this with
      | Some (_, this1, _) => Some this1
      | None => None
      end
  | CallWrite fuel chunk =>
      match _write E fuel chunk this with
      | Some (_, this1, _) => Some this1
      | None => None
      end
  | CallIsShutdown | CallIsFinished => Some this
  | CallReset => Some (snd (fst (_reset this)))
  | RunImmediate t => Some (fst (runImmediate t this))
  end.

Fixpoint performAll (E : HeaderExtractor) (ops : list operation)
    (this : BinaryMessageParser) : option BinaryMessageParser :=
  match ops with
  | [] => Some this
  | op :: ops' =>
      match perform E op this with
      | Some this1 => performAll E ops' this1
      | None => None
      end
  end.

(** ** Inputs of the test suite *)

(** Extractor Int32BE, one 8-byte message, whole and in four 2-byte chunks. *)
Definition scenarioA : Buffer := Buf.from [0; 0; 0; 8; 0; 0; 0; 5].
Definition scenarioB : list Buffer :=
  [Buf.from [0; 0]; Buf.from [0; 8]; Buf.from [0; 0]; Buf.from [0; 5]].

(** Extractor Int32BE, a header that declares one byte. *)
Definition scenarioC : Buffer := Buf.from [0; 0; 0; 1].

(** A message that consists of its header only. *)
Definition headerOnly : Buffer := Buf.from [0; 0; 0; 4].

(** The parser of the shutdown test after its first call. *)
Definition afterScenarioC : BinaryMessageParser :=
  match parseBytes HeaderExtractorInt32BE (enough scenarioC) scenarioC
          (fresh 1 10240) with
  | Some (_, this, _) => this
  | None => fresh 1 10240
  end.

(** A valid header-only message, a header that declares one byte, and a
    further valid message, in one chunk. *)
Definition rejectedMidChunk : Buffer :=
  Buf.from [0; 0; 0; 4; 0; 0; 0; 1; 0; 0; 0; 4].

(** Int32BE decoding with the validator left out, as the constructor
    completes it. *)
Definition Int32BEWithoutValidator : HeaderExtractor :=
  {| headerByteCount := 4;
     extractMessageSize := fun buffer => callRead readInt32BE buffer;
     validateMessageSize := fun _ => true |}.

(** A header that declares zero bytes. *)
Definition zeroHeader : Buffer := Buf.from [0; 0; 0; 0].

(** ** Vocabulary of the construction claims *)

(** The outcome of [new BinaryMessageParser(...)] and the store it leaves. *)
Definition constructed (h : store) (headerExtractor initialBufferSize : value)
    : result BinaryMessageParser :=
  snd (new_BinaryMessageParser h headerExtractor initialBufferSize).

Definition store_after (h : store) (headerExtractor initialBufferSize : value)
    : store :=
  fst (new_BinaryMessageParser h headerExtractor initialBufferSize).


(** The member [name] of [v], when [v] refers to an object. *)
Definition member (h : store) (v : value) (name : string) : option value :=
  match v with
  | VObject l => (fun o => getProp o name) <$> h !! l
  | _ => None
  end.

(** [v] carries a numeric [headerByteCount]. *)
Definition has_numeric_headerByteCount (h : store) (v : value) : Prop :=
  exists m, member h v "headerByteCount" = Some m /\ typeof h m = "number".

(** [v] carries a callable [extractMessageSize]. *)
Definition has_callable_extractMessageSize (h : store) (v : value) : Prop :=
  exists m, member h v "extractMessageSize" = Some m /\ typeof h m = "function".

(** [v] carries a callable [validateMessageSize]. *)
Definition has_callable_validateMessageSize (h : store) (v : value) : Prop :=
  exists m, member h v "validateMessageSize" = Some m /\ typeof h m = "function".

(** The capacity the constructor allocates. *)
Definition capacityFor (initialBufferSize : value) : Z :=
  match initialBufferSize with
  | VNumber n => n
  | _ => 10240
  end.

(** An extractor object with Int32BE decoding and no validator. *)
Definition extractorWithoutValidator : object :=
  mkObject false
    (<["headerByteCount" := VNumber 4]>
       (<["extractMessageSize" := VFunction (FnSize (callRead readInt32BE))]> ∅)).


Definition storeWithoutValidator : store := {[ 1%positive := extractorWithoutValidator ]}.

(** ** The catalogue of standard extractors, as it is named

    The reading of a name: a width in bytes, a signedness and a byte order.
    [namedInteger] is the integer those three denote on a header, written
    from the meaning of the name and not from the readers of [Buf]. *)
Inductive standardName : Type :=
  | Int8 | UInt8
  | Int16BE | UInt16BE | Int16LE | UInt16LE
  | Int32BE | UInt32BE | Int32LE | UInt32LE.

Definition standardExtractor (name : standardName) : HeaderExtractor :=
  match name with
  | Int8 => HeaderExtractorInt8
  | UInt8 => HeaderExtractorUInt8
  | Int16BE => HeaderExtractorInt16BE
  | UInt16BE => HeaderExtractorUInt16BE
  | Int16LE => HeaderExtractorInt16LE
  | UInt16LE => HeaderExtractorUInt16LE
  | Int32BE => HeaderExtractorInt32BE
  | UInt32BE => HeaderExtractorUInt32BE
  | Int32LE => HeaderExtractorInt32LE
  | UInt32LE => HeaderExtractorUInt32LE
  end.

Definition widthOf (name : standardName) : Z :=
  match name with
  | Int8 | UInt8 => 1
  | Int16BE | UInt16BE | Int16LE | UInt16LE => 2
  | Int32BE | UInt32BE | Int32LE | UInt32LE => 4
  end.

Definition isSigned (name : standardName) : bool :=
  match name with
  | Int8 | Int16BE | Int16LE | Int32BE | Int32LE => true
  | _ => false
  end.

Definition isBigEndian (name : standardName) : bool :=
  match name with
  | Int16LE | UInt16LE | Int32LE | UInt32LE => false
  | _ => true
  end.

(** The number whose base-256 digits are the given bytes, most significant
    first. *)
Definition unsignedBE (bs : Buffer) : Z :=
  fold_left (fun acc b => acc * 256 + byteval b) bs 0.

(** Two's complement reading of an unsigned [bits]-bit number. *)
Definition twosComplement (bits u : Z) : Z :=
  if u <? 2 ^ (bits - 1) then u else u - 2 ^ bits.

Definition namedInteger (name : standardName) (header : Buffer) : Z :=
  let bs := take (Z.to_nat (widthOf name)) header in
  let u := unsignedBE (if isBigEndian name then bs else rev bs) in
  if isSigned name then twosComplement (8 * widthOf name) u else u.



(** Two buffers hold the same first [e] bytes. *)
Definition agree_upto (e : Z) (bytes bytes' : Buffer) : Prop :=
  e <= blen bytes /\ e <= blen bytes'
  /\ take (Z.to_nat e) bytes' = take (Z.to_nat e) bytes.

(** Where the header that an iteration resolves ends in the chunk: after
    [headerByteCount] bytes when no message is in progress, after the bytes
    the header in progress still lacks otherwise. *)
Definition header_end (E : HeaderExtractor) (offset : Z)
    (this : BinaryMessageParser) : Z :=
  if isFinished this then offset + headerByteCount E
  else offset + (expectedMessageSize this - unfinishedMessageSize this).

(** ** Vocabulary of the stream properties *)

(** The bytes the parser holds of the message in progress. *)
Definition carried (this : BinaryMessageParser) : Buffer :=
  take (Z.to_nat (unfinishedMessageSize this)) (unfinishedMessageBuffer this).

(** An extractor of the kind [createPODExtractor] builds: a header of at
    least one byte, a validator that accepts no size below the header, and an
    [extractMessageSize] that returns a size on every buffer of exactly
    [headerByteCount] bytes. *)
Definition well_behaved (E : HeaderExtractor) : Prop :=
  0 < headerByteCount E
  /\ (forall size, validateMessageSize E size = true -> headerByteCount E <= size)
  /\ (forall header, blen header = headerByteCount E ->
        exists size, extractMessageSize E header = Ok size).

(** The carry fields fit together: the carried bytes lie in the buffer, and
    either nothing is carried, or part of a header is, or a header with its
    accepted size and no more bytes than that size. *)
Definition consistent (E : HeaderExtractor) (this : BinaryMessageParser) : Prop :=
  0 <= unfinishedMessageSize this <= blen (unfinishedMessageBuffer this)
  /\ (unfinishedMessageSize this = 0
      \/ (bMessageHeaderExtracted this = false
          /\ expectedMessageSize this = headerByteCount E
          /\ unfinishedMessageSize this < headerByteCount E)
      \/ (bMessageHeaderExtracted this = true
          /\ headerByteCount E <= unfinishedMessageSize this
          /\ unfinishedMessageSize this <= expectedMessageSize this
          /\ extractMessageSize E
               (take (Z.to_nat (headerByteCount E)) (unfinishedMessageBuffer this))
             = Ok (expectedMessageSize this)
          /\ validateMessageSize E (expectedMessageSize this) = true
          /\ (unfinishedMessageSize this < expectedMessageSize this
              \/ unfinishedMessageSize this = headerByteCount E))).

(** Two parsers that differ at most in their buffers, and carry the same
    bytes. *)
Definition same_carry (this that : BinaryMessageParser) : Prop :=
  set_unfinishedMessageBuffer (unfinishedMessageBuffer this) that = this
  /\ carried that = carried this.

(** What follows the messages of a stream: nothing, or bytes begun by a
    header whose size the validator refuses. *)
Definition ends_or_refused (E : HeaderExtractor) (after : Buffer) : Prop :=
  after = []
  \/ (headerByteCount E <= blen after
      /\ exists size,
           extractMessageSize E (take (Z.to_nat (headerByteCount E)) after)
             = Ok size
           /\ validateMessageSize E size = false).

(** The buffer [after] has not shrunk from [before], and has not grown
    beyond a limit that neither the header nor any size that the extractor
    returns and the validator accepts exceeds. *)
Definition bounded_growth (E : HeaderExtractor) (before after : Buffer) : Prop :=
  blen before <= blen after
  /\ forall limit,
       headerByteCount E <= limit ->
       (forall header size,
          extractMessageSize E header = Ok size ->
          validateMessageSize E size = true -> size <= limit) ->
       blen after <= Z.max (blen before) limit.

(** Two messages of extractor Int8 and a header that declares -56 bytes, in
    four chunks, one of them empty. *)
Definition smallChunks : list Buffer :=
  [Buf.from [3]; Buf.from [1; 2; 2]; Buf.from []; Buf.from [9; 200]].


(** [rejectedMidChunk] in three chunks, and what follows its first message. *)
Definition rejectedInChunks : list Buffer :=
  [Buf.from [0; 0; 0; 4; 0; 0]; Buf.from [0; 1; 0; 0]; Buf.from [0; 4]].
Definition refusedTail : Buffer := Buf.from [0; 0; 0; 1; 0; 0; 0; 4].

(** The parser after [headerOnly] has arrived in two halves. *)
Definition withholding : BinaryMessageParser :=
  match feed HeaderExtractorInt32BE [Buf.from [0; 0]; Buf.from [0; 4]]
          (fresh 1 16) with
  | Some (_, this, _) => this
  | None => fresh 1 16
  end.

(** An extractor that declares two header bytes and reads four, and a parser
    that has received the first byte of a header. *)
Definition misdeclared : HeaderExtractor := createPODExtractor 2 readInt32BE.
Definition afterOneByte : BinaryMessageParser :=
  match parseBytes misdeclared 8 (Buf.from [0]) (fresh 1 16) with
  | Some (_, this, _) => this
  | None => fresh 1 16
  end.

(** The range of the integers a name denotes. *)
Definition smallestOf (name : standardName) : Z :=
  if isSigned name then - 2 ^ (8 * widthOf name - 1) else 0.

Definition largestOf (name : standardName) : Z :=
  if isSigned name then 2 ^ (8 * widthOf name - 1) - 1
  else 2 ^ (8 * widthOf name) - 1.

(** * Properties *)

(** ** Buffers *)

Lemma blen_nonneg (b : Buffer) : 0 <= blen b.
Proof. unfold blen. lia. Qed.

Lemma blen_nil : blen [] = 0.
Proof. reflexivity. Qed.

Lemma blen_app (a b : Buffer) : blen (a ++ b) = blen a + blen b.
Proof. unfold blen. rewrite length_app. lia. Qed.

Lemma blen_take (b : Buffer) (n : Z) :
  0 <= n <= blen b -> blen (take (Z.to_nat n) b) = n.
Proof. unfold blen. intros H. rewrite length_take. lia. Qed.

Lemma blen_drop (b : Buffer) (n : Z) :
  0 <= n -> blen (drop (Z.to_nat n) b) = Z.max 0 (blen b - n).
Proof. unfold blen. intros H. rewrite length_drop. lia. Qed.

Lemma blen_replicate (n : Z) : blen (replicate (Z.to_nat n) x00) = Z.max 0 n.
Proof. unfold blen. rewrite length_replicate. lia. Qed.

Lemma blen_zero_nil (b : Buffer) : blen b = 0 -> b = [].
Proof. unfold blen. destruct b; simpl; [reflexivity | lia]. Qed.

Lemma blen_pos (b : Buffer) : b <> [] -> 0 < blen b.
Proof. unfold blen. destruct b; simpl; [congruence | lia]. Qed.

Lemma take_blen (b : Buffer) : take (Z.to_nat (blen b)) b = b.
Proof. unfold blen. rewrite Nat2Z.id. apply firstn_all. Qed.

Lemma take_blen_app (a b : Buffer) : take (Z.to_nat (blen a)) (a ++ b) = a.
Proof. unfold blen. rewrite Nat2Z.id. apply take_app_length. Qed.

Lemma drop_blen_app (a b : Buffer) : drop (Z.to_nat (blen a)) (a ++ b) = b.
Proof. unfold blen. rewrite Nat2Z.id. apply drop_app_length. Qed.

Lemma slice_in_range (b : Buffer) (s e : Z) :
  0 <= s -> s <= e -> e <= blen b ->
  Buf.slice b s e = take (Z.to_nat (e - s)) (drop (Z.to_nat s) b).
Proof.
  intros Hs He Hb. unfold Buf.slice, Buf.clampIndex.
  destruct (Z.ltb_spec s 0); [lia |].
  destruct (Z.ltb_spec e 0); [lia |].
  rewrite !Z.min_l by lia. reflexivity.
Qed.

Lemma alloc_ok (n : Z) : 0 <= n -> Buf.alloc n = Ok (replicate (Z.to_nat n) x00).
Proof.
  intros Hn. unfold Buf.alloc. destruct (Z.ltb_spec n 0); [lia | reflexivity].
Qed.

Lemma copy_in_range (src tgt : Buffer) (ts ss n : Z) :
  0 <= ts -> 0 <= ss -> 0 <= n -> ss + n <= blen src -> ts + n <= blen tgt ->
  Buf.copy src tgt ts ss (ss + n) =
    Ok (take (Z.to_nat ts) tgt
          ++ take (Z.to_nat n) (drop (Z.to_nat ss) src)
          ++ drop (Z.to_nat (ts + n)) tgt).
Proof.
  intros Hts Hss Hn Hsrc Htgt. unfold Buf.copy.
  destruct (Z.ltb_spec ts 0); [lia |].
  destruct (Z.ltb_spec ss 0); [lia |].
  destruct (Z.ltb_spec (blen src) ss); [lia |].
  destruct (Z.ltb_spec (ss + n) 0); [lia |]. cbn [orb].
  destruct (Z.leb_spec (blen tgt) ts) as [Hfull | Hroom];
    [| destruct (Z.leb_spec (ss + n) ss) as [Hempty | Hsome]]; cbn [orb].
  - assert (n = 0) as -> by lia. rewrite Z.add_0_r.
    change (Z.to_nat 0) with 0%nat. rewrite take_0, app_nil_l.
    now rewrite take_drop.
  - assert (n = 0) as -> by lia. rewrite Z.add_0_r.
    change (Z.to_nat 0) with 0%nat. rewrite take_0, app_nil_l.
    now rewrite take_drop.
  - rewrite (Z.min_l (ss + n)) by lia.
    replace (ss + n - ss) with n by lia.
    rewrite (Z.min_l n) by lia. reflexivity.
Qed.

(** Copying into a freshly allocated buffer of the copied size yields the
    copied range. *)
Lemma copy_into_fresh (src : Buffer) (off size : Z) :
  0 <= off -> 0 <= size -> off + size <= blen src ->
  Buf.copy src (replicate (Z.to_nat size) x00) 0 off (off + size) =
    Ok (take (Z.to_nat size) (drop (Z.to_nat off) src)).
Proof.
  intros Hoff Hsize Hsrc.
  rewrite copy_in_range by (rewrite ?blen_replicate; lia).
  change (Z.to_nat 0) with 0%nat. rewrite take_0, app_nil_l, Z.add_0_l.
  rewrite (drop_ge (replicate _ _)) by (rewrite length_replicate; lia).
  now rewrite app_nil_r.
Qed.

Lemma blen_appended (buffer : Buffer) (size : Z) (chunk : Buffer) :
  0 <= size <= blen buffer ->
  blen (appended buffer size chunk) = Z.max (blen buffer) (size + blen chunk).
Proof.
  intros Hsize. pose proof (blen_nonneg chunk) as Hchunk. unfold appended.
  destruct (Z.ltb_spec (blen buffer - size) (blen chunk)).
  - rewrite blen_app, blen_take by lia. lia.
  - rewrite !blen_app, blen_take, blen_drop by lia. lia.
Qed.

Lemma take_appended (buffer : Buffer) (size : Z) (chunk : Buffer) :
  0 <= size <= blen buffer ->
  take (Z.to_nat (size + blen chunk)) (appended buffer size chunk)
    = take (Z.to_nat size) buffer ++ chunk.
Proof.
  intros Hsize. pose proof (blen_nonneg chunk) as Hchunk. unfold appended.
  assert (Hlen : Z.to_nat (size + blen chunk)
                 = length (take (Z.to_nat size) buffer ++ chunk)).
  { rewrite length_app, length_take. unfold blen in *. lia. }
  destruct (Z.ltb_spec (blen buffer - size) (blen chunk)).
  - rewrite Hlen. apply firstn_all.
  - rewrite app_assoc, Hlen. apply take_app_length.
Qed.

(** Projections of an updated parser. *)
Ltac fields :=
  unfold carry, set_bShutdown, set_lastError, set_unfinishedMessageBuffer,
    set_unfinishedMessageSize, set_expectedMessageSize,
    set_bMessageHeaderExtracted in *;
  cbn [headerExtractor unfinishedMessageBuffer unfinishedMessageSize
       expectedMessageSize bMessageHeaderExtracted bShutdown lastError] in *.

(** ** The methods on states and inputs within range *)

Section MethodFacts.

Variable E : HeaderExtractor.

Lemma reset_run (this : BinaryMessageParser) :
  _reset this = (Ok tt, carry (unfinishedMessageBuffer this) 0 0 false this, []).
Proof. destruct this. reflexivity. Qed.

Lemma append_run (data : Buffer) (offset count : Z) (this : BinaryMessageParser) :
  0 <= unfinishedMessageSize this <= blen (unfinishedMessageBuffer this) ->
  0 <= offset -> 0 <= count -> offset + count <= blen data ->
  _appendToUnfinishedMessage data offset count this =
    (Ok tt,
     carry (appended (unfinishedMessageBuffer this) (unfinishedMessageSize this)
              (take (Z.to_nat count) (drop (Z.to_nat offset) data)))
       (unfinishedMessageSize this + count)
       (expectedMessageSize this) (bMessageHeaderExtracted this) this,
     []).
Proof.
  intros Hsize Hoff Hcount Hdata. destruct this as [l buf u e hdr sd le].
  cbn [unfinishedMessageSize unfinishedMessageBuffer expectedMessageSize
       bMessageHeaderExtracted] in *.
  assert (Hchunk : blen (take (Z.to_nat count) (drop (Z.to_nat offset) data)) = count).
  { rewrite blen_take; [reflexivity |]. rewrite blen_drop by lia. lia. }
  unfold _appendToUnfinishedMessage, appended, bind, get, modify, lift, carry.
  cbn [unfinishedMessageSize unfinishedMessageBuffer expectedMessageSize
       bMessageHeaderExtracted headerExtractor bShutdown lastError].
  rewrite Hchunk.
  destruct (Z.ltb_spec (blen buf - u) count).
  - unfold Buf.concat2. rewrite !slice_in_range by lia.
    rewrite Z.sub_0_r. change (Z.to_nat 0) with 0%nat. rewrite drop_0.
    replace (offset + count - offset) with count by lia. reflexivity.
  - rewrite copy_in_range by lia. reflexivity.
Qed.

Lemma notify_run (data : Buffer) (offset size : Z) (this : BinaryMessageParser) :
  0 <= offset -> 0 <= size -> offset + size <= blen data ->
  _notifyMessageReceived data offset size this =
    (Ok tt, carry (unfinishedMessageBuffer this) 0 0 false this,
     [EmitMessage (take (Z.to_nat size) (drop (Z.to_nat offset) data))]).
Proof.
  intros Hoff Hsize Hdata. unfold _notifyMessageReceived, bind.
  rewrite reset_run. unfold lift, setImmediate.
  rewrite alloc_ok by lia. rewrite copy_into_fresh by lia. reflexivity.
Qed.

Lemma extract_run (data : Buffer) (offset : Z) (this : BinaryMessageParser) :
  _extractMessageSize E data offset this =
    (extractMessageSize E (Buf.slice data offset (offset + headerByteCount E)),
     this, []).
Proof. reflexivity. Qed.

Lemma take_rest (data : Buffer) (offset : Z) :
  0 <= offset ->
  take (Z.to_nat (blen data - offset)) (drop (Z.to_nat offset) data)
    = drop (Z.to_nat offset) data.
Proof.
  intros Hoff. apply take_ge. rewrite length_drop. unfold blen. lia.
Qed.

(** *** [_startNewMessage] *)

(** Fewer bytes than a header: all of them are carried. *)
Lemma start_short (data : Buffer) (offset : Z) (this : BinaryMessageParser) :
  unfinishedMessageSize this = 0 ->
  0 <= offset <= blen data ->
  blen data - offset < headerByteCount E ->
  _startNewMessage E data offset this =
    (Ok (blen data - offset),
     carry (appended (unfinishedMessageBuffer this) 0 (drop (Z.to_nat offset) data))
       (blen data - offset) (headerByteCount E) false this,
     []).
Proof.
  intros Hidle Hoff Hshort. unfold _startNewMessage.
  destruct (Z.ltb_spec (blen data - offset) (headerByteCount E)); [| lia].
  unfold bind. pose proof (blen_nonneg (unfinishedMessageBuffer this)).
  rewrite append_run by lia. rewrite Hidle, take_rest by lia.
  reflexivity.
Qed.

(** A header whose size is refused. *)
Lemma start_reject (data : Buffer) (offset size : Z) (this : BinaryMessageParser) :
  headerByteCount E <= blen data - offset ->
  extractMessageSize E (Buf.slice data offset (offset + headerByteCount E)) = Ok size ->
  validateMessageSize E size = false ->
  _startNewMessage E data offset this =
    (Ok (-1), this, [ReportInvalidSize size]).
Proof.
  intros Hhdr Hsize Hval. unfold _startNewMessage.
  destruct (Z.ltb_spec (blen data - offset) (headerByteCount E)); [lia |].
  unfold bind. rewrite extract_run, Hsize, Hval. reflexivity.
Qed.

(** A whole message is at hand. *)
Lemma start_complete (data : Buffer) (offset size : Z) (this : BinaryMessageParser) :
  0 <= offset ->
  headerByteCount E <= blen data - offset ->
  extractMessageSize E (Buf.slice data offset (offset + headerByteCount E)) = Ok size ->
  validateMessageSize E size = true ->
  0 <= size <= blen data - offset ->
  _startNewMessage E data offset this =
    (Ok size, carry (unfinishedMessageBuffer this) 0 0 false this,
     [EmitMessage (take (Z.to_nat size) (drop (Z.to_nat offset) data))]).
Proof.
  intros Hoff Hhdr Hsize Hval Hfit. unfold _startNewMessage.
  destruct (Z.ltb_spec (blen data - offset) (headerByteCount E)); [lia |].
  unfold bind. rewrite extract_run, Hsize, Hval. cbn [negb].
  destruct (Z.leb_spec size (blen data - offset)); [| lia].
  rewrite notify_run by lia. reflexivity.
Qed.

(** The header is at hand, the message is not. *)
Lemma start_partial (data : Buffer) (offset size : Z) (this : BinaryMessageParser) :
  unfinishedMessageSize this = 0 ->
  0 <= offset <= blen data ->
  headerByteCount E <= blen data - offset ->
  extractMessageSize E (Buf.slice data offset (offset + headerByteCount E)) = Ok size ->
  validateMessageSize E size = true ->
  blen data - offset < size ->
  _startNewMessage E data offset this =
    (Ok (blen data - offset),
     carry (appended (unfinishedMessageBuffer this) 0 (drop (Z.to_nat offset) data))
       (blen data - offset) size true this,
     []).
Proof.
  intros Hidle Hoff Hhdr Hsize Hval Hmore. unfold _startNewMessage.
  destruct (Z.ltb_spec (blen data - offset) (headerByteCount E)); [lia |].
  unfold bind at 1. rewrite extract_run, Hsize, Hval. cbn [negb].
  destruct (Z.leb_spec size (blen data - offset)); [lia |].
  unfold bind. pose proof (blen_nonneg (unfinishedMessageBuffer this)).
  rewrite append_run by lia. rewrite Hidle, take_rest by lia.
  reflexivity.
Qed.

(** *** [_continueUnfinishedMessage] *)

(** The chunk ends before the bytes awaited. *)
Lemma continue_more (data : Buffer) (offset : Z) (this : BinaryMessageParser) :
  0 <= unfinishedMessageSize this <= blen (unfinishedMessageBuffer this) ->
  0 <= offset <= blen data ->
  blen data - offset < expectedMessageSize this - unfinishedMessageSize this ->
  _continueUnfinishedMessage E data offset this =
    (Ok (blen data - offset),
     carry (appended (unfinishedMessageBuffer this) (unfinishedMessageSize this)
              (drop (Z.to_nat offset) data))
       (unfinishedMessageSize this + (blen data - offset))
       (expectedMessageSize this) (bMessageHeaderExtracted this) this,
     []).
Proof.
  intros Hsize Hoff Hmore. unfold _continueUnfinishedMessage, bind at 1, get.
  destruct (Z.ltb_spec (blen data - offset)
              (expectedMessageSize this - unfinishedMessageSize this)); [| lia].
  unfold bind. rewrite append_run by lia. rewrite take_rest by lia.
  reflexivity.
Qed.

(** The awaited bytes of a message with a known size have arrived. *)
Lemma continue_complete (data : Buffer) (offset : Z) (this : BinaryMessageParser) :
  bMessageHeaderExtracted this = true ->
  0 <= unfinishedMessageSize this <= blen (unfinishedMessageBuffer this) ->
  0 <= offset ->
  0 <= expectedMessageSize this - unfinishedMessageSize this <= blen data - offset ->
  let missing := expectedMessageSize this - unfinishedMessageSize this in
  let buffer :=
    appended (unfinishedMessageBuffer this) (unfinishedMessageSize this)
      (take (Z.to_nat missing) (drop (Z.to_nat offset) data)) in
  _continueUnfinishedMessage E data offset this =
    (Ok missing, carry buffer 0 0 false this,
     [EmitMessage (take (Z.to_nat (expectedMessageSize this)) buffer)]).
Proof.
  intros Hhdr Hsize Hoff Hmiss missing buffer.
  unfold _continueUnfinishedMessage, bind at 1, get.
  destruct (Z.ltb_spec (blen data - offset)
              (expectedMessageSize this - unfinishedMessageSize this)); [lia |].
  unfold bind at 1. rewrite append_run by lia.
  unfold bind at 1, get. fields. rewrite Hhdr.
  unfold bind. fold missing. fold buffer.
  assert (Hbuf : expectedMessageSize this <= blen buffer).
  { subst buffer. rewrite blen_appended by lia.
    rewrite blen_take by (rewrite blen_drop by lia; lia). lia. }
  rewrite notify_run by lia.
  change (Z.to_nat 0) with 0%nat. rewrite drop_0. reflexivity.
Qed.

(** The awaited bytes of a header have arrived. *)
Lemma continue_header (data : Buffer) (offset size : Z) (this : BinaryMessageParser) :
  bMessageHeaderExtracted this = false ->
  0 <= unfinishedMessageSize this <= blen (unfinishedMessageBuffer this) ->
  0 <= offset ->
  0 <= expectedMessageSize this - unfinishedMessageSize this <= blen data - offset ->
  let missing := expectedMessageSize this - unfinishedMessageSize this in
  let buffer :=
    appended (unfinishedMessageBuffer this) (unfinishedMessageSize this)
      (take (Z.to_nat missing) (drop (Z.to_nat offset) data)) in
  extractMessageSize E (Buf.slice buffer 0 (0 + headerByteCount E)) = Ok size ->
  _continueUnfinishedMessage E data offset this =
    (Ok (if validateMessageSize E size then missing else -1),
     carry buffer (expectedMessageSize this) size true this,
     if validateMessageSize E size then [] else [ReportInvalidExpectedSize]).
Proof.
  intros Hhdr Hsize Hoff Hmiss missing buffer Hextract.
  unfold _continueUnfinishedMessage, bind at 1, get.
  destruct (Z.ltb_spec (blen data - offset)
              (expectedMessageSize this - unfinishedMessageSize this)); [lia |].
  unfold bind at 1. rewrite append_run by lia.
  unfold bind at 1, get. fields. rewrite Hhdr.
  unfold bind at 1. rewrite extract_run.
  fold missing. fold buffer. rewrite Hextract.
  replace (unfinishedMessageSize this + missing)
    with (expectedMessageSize this) by (subst missing; lia).
  destruct (validateMessageSize E size); reflexivity.
Qed.

Lemma bind_get {A} (k : BinaryMessageParser -> M A) (this : BinaryMessageParser) :
  bind get k this = k this this.
Proof.
  unfold bind, get. destruct (k this this) as [[r this1] q]. reflexivity.
Qed.

(** With the awaited bytes at hand, the chunk is only read by the append. *)
Lemma continue_reads_by_append (this : BinaryMessageParser) :
  exists rest : M Z,
    forall (data : Buffer) (offset : Z),
    expectedMessageSize this - unfinishedMessageSize this <= blen data - offset ->
    _continueUnfinishedMessage E data offset this =
      bind (_appendToUnfinishedMessage data offset
              (expectedMessageSize this - unfinishedMessageSize this))
        (fun _ => rest) this.
Proof.
  eexists. intros data offset Hall.
  unfold _continueUnfinishedMessage. rewrite bind_get.
  destruct (Z.ltb_spec (blen data - offset)
              (expectedMessageSize this - unfinishedMessageSize this)); [lia |].
  reflexivity.
Qed.

End MethodFacts.

(** ** The drain loop *)

Section LoopFacts.

Variable E : HeaderExtractor.

Lemma drain_end (fuel : nat) (bytes : Buffer) (offset : Z)
    (this : BinaryMessageParser) :
  blen bytes <= offset ->
  drain E fuel bytes offset this = Some (Ok true, this, []).
Proof.
  intros Hend. destruct fuel; cbn [drain];
    destruct (Z.ltb_spec offset (blen bytes)); (lia || reflexivity).
Qed.

Lemma drain_step (fuel : nat) (bytes : Buffer) (offset : Z)
    (this : BinaryMessageParser) :
  offset < blen bytes ->
  drain E (S fuel) bytes offset this =
    match (if isFinished this then _startNewMessage E bytes offset
           else _continueUnfinishedMessage E bytes offset) this with
    | (Throw e, this1, q1) => Some (Throw e, this1, q1)
    | (Ok bytesParsed, this1, q1) =>
        if bytesParsed <? 0 then Some (Ok false, set_bShutdown true this1, q1)
        else
          match drain E fuel bytes (offset + bytesParsed) this1 with
          | Some (r, this2, q2) => Some (r, this2, q1 ++ q2)
          | None => None
          end
    end.
Proof.
  intros Hlt. cbn [drain].
  destruct (Z.ltb_spec offset (blen bytes)); [reflexivity | lia].
Qed.

(** A larger budget does not change a result. *)
Lemma drain_mono (fuel fuel' : nat) (bytes : Buffer) (offset : Z)
    (this : BinaryMessageParser) r :
  drain E fuel bytes offset this = Some r ->
  (fuel <= fuel')%nat ->
  drain E fuel' bytes offset this = Some r.
Proof.
  revert fuel' offset this r.
  induction fuel as [| fuel IH]; intros fuel' offset this r Hrun Hle.
  - cbn [drain] in Hrun.
    destruct (Z.ltb_spec offset (blen bytes)); [discriminate |].
    rewrite drain_end by lia. exact Hrun.
  - destruct (Z.ltb_spec offset (blen bytes)) as [Hlt | Hge].
    + destruct fuel' as [| fuel']; [lia |].
      rewrite drain_step in Hrun |- * by lia.
      destruct ((if isFinished this then _startNewMessage E bytes offset
                 else _continueUnfinishedMessage E bytes offset) this)
        as [[[n | e] this1] q1]; [| exact Hrun].
      destruct (n <? 0); [exact Hrun |].
      destruct (drain E fuel bytes (offset + n) this1) as [r1 |] eqn:Hrest;
        [| discriminate].
      rewrite (IH fuel' _ _ r1 Hrest) by lia. exact Hrun.
    + rewrite drain_end in Hrun |- * by lia. exact Hrun.
Qed.

Lemma parseBytes_mono (fuel fuel' : nat) (bytes : Buffer)
    (this : BinaryMessageParser) r :
  parseBytes E fuel bytes this = Some r ->
  (fuel <= fuel')%nat ->
  parseBytes E fuel' bytes this = Some r.
Proof.
  unfold parseBytes. destruct (isShutdown this); [easy |].
  apply drain_mono.
Qed.

Lemma isFinished_true (this : BinaryMessageParser) :
  isFinished this = true <-> unfinishedMessageSize this = 0.
Proof. unfold isFinished. apply Z.eqb_eq. Qed.

Lemma isFinished_false (this : BinaryMessageParser) :
  isFinished this = false <-> unfinishedMessageSize this <> 0.
Proof. unfold isFinished. apply Z.eqb_neq. Qed.

(** *** Whole messages, one after the other, in one buffer *)

Hypothesis header_nonempty : 0 < headerByteCount E.

Lemma header_of_message (pre M rest : Buffer) :
  valid_message E M ->
  extractMessageSize E
    (Buf.slice (pre ++ M ++ rest) (blen pre) (blen pre + headerByteCount E))
    = Ok (blen M).
Proof.
  intros (Hhdr & Hsize & _).
  rewrite slice_in_range by (rewrite ?blen_app; pose proof (blen_nonneg pre);
                             pose proof (blen_nonneg rest); lia).
  rewrite drop_blen_app.
  replace (blen pre + headerByteCount E - blen pre) with (headerByteCount E) by lia.
  rewrite take_app_le by (unfold blen in Hhdr; lia).
  exact Hsize.
Qed.

Lemma drain_messages (Ms : list Buffer) :
  Forall (valid_message E) Ms ->
  forall (pre : Buffer) (this : BinaryMessageParser) (fuel : nat),
  isFinished this = true ->
  (length Ms <= fuel)%nat ->
  drain E fuel (pre ++ concat Ms) (blen pre) this =
    Some (Ok true,
          match Ms with
          | [] => this
          | _ => carry (unfinishedMessageBuffer this) 0 0 false this
          end,
          map EmitMessage Ms).
Proof.
  induction 1 as [| M Ms HM HMs IH]; intros pre this fuel Hidle Hfuel.
  - cbn [concat]. rewrite app_nil_r. apply drain_end. lia.
  - cbn [concat length] in *. destruct fuel as [| fuel]; [lia |].
    pose proof HM as (Hhdr & Hsize & Hval).
    pose proof (blen_nonneg pre) as Hpre.
    pose proof (blen_nonneg (concat Ms)) as Hrest.
    rewrite drain_step by (rewrite !blen_app; lia).
    rewrite Hidle.
    rewrite (start_complete E _ _ (blen M));
      [| lia | rewrite !blen_app; lia | now apply header_of_message
       | exact Hval | rewrite !blen_app; lia].
    destruct (Z.ltb_spec (blen M) 0); [lia |].
    rewrite drop_blen_app, take_blen_app.
    replace (blen pre + blen M) with (blen (pre ++ M)) by apply blen_app.
    rewrite (app_assoc pre M (concat Ms)).
    rewrite IH by (fields; (reflexivity || lia)).
    cbn [map app]. fields. destruct Ms; reflexivity.
Qed.

End LoopFacts.

(** ** Every iteration is one of the listed cases *)

Section StepCases.

Variable E : HeaderExtractor.

Lemma carry_self (this : BinaryMessageParser) :
  carry (unfinishedMessageBuffer this) (unfinishedMessageSize this)
    (expectedMessageSize this) (bMessageHeaderExtracted this) this = this.
Proof. destruct this. reflexivity. Qed.

Lemma append_cases (data : Buffer) (offset count : Z)
    (this : BinaryMessageParser) r this1 q :
  _appendToUnfinishedMessage data offset count this = (r, this1, q) ->
  q = [] /\
  ((r = Ok tt /\
    exists buffer,
      this1 = carry buffer (unfinishedMessageSize this + count)
                (expectedMessageSize this) (bMessageHeaderExtracted this) this)
   \/ (exists e, r = Throw e) /\ this1 = this).
Proof.
  destruct this as [l buf u e hdr sd le].
  unfold _appendToUnfinishedMessage, bind, get, modify, lift. fields.
  destruct (blen buf - u <? count).
  - intros [= <- <- <-]. split; [reflexivity |]. left. split; [reflexivity |].
    eexists. reflexivity.
  - destruct (Buf.copy data buf u offset (offset + count)) as [b' | err].
    + intros [= <- <- <-]. split; [reflexivity |]. left.
      split; [reflexivity |]. eexists. reflexivity.
    + intros [= <- <- <-]. split; [reflexivity |]. right.
      split; [eexists |]; reflexivity.
Qed.

Lemma notify_cases (data : Buffer) (offset size : Z)
    (this : BinaryMessageParser) r this1 q :
  _notifyMessageReceived data offset size this = (r, this1, q) ->
  this1 = carry (unfinishedMessageBuffer this) 0 0 false this /\
  ((r = Ok tt /\ exists message, q = [EmitMessage message])
   \/ (exists e, r = Throw e) /\ q = []).
Proof.
  unfold _notifyMessageReceived, bind. rewrite reset_run.
  unfold lift, setImmediate.
  destruct (Buf.alloc size) as [m | err].
  - destruct (Buf.copy data m 0 offset (offset + size)) as [m' | err].
    + intros [= <- <- <-]. split; [reflexivity |]. left.
      split; [reflexivity |]. eexists. reflexivity.
    + intros [= <- <- <-]. split; [reflexivity |]. right.
      split; [eexists |]; reflexivity.
  - intros [= <- <- <-]. split; [reflexivity |]. right.
    split; [eexists |]; reflexivity.
Qed.

Lemma step_throws_same (bytes : Buffer) (offset : Z)
    (this : BinaryMessageParser) e :
  step_outcome E bytes offset this (Throw e) this [].
Proof. rewrite <- (carry_self this) at 2. apply step_throws. Qed.

Lemma start_cases (bytes : Buffer) (offset : Z)
    (this : BinaryMessageParser) r this1 q :
  isFinished this = true ->
  _startNewMessage E bytes offset this = (r, this1, q) ->
  step_outcome E bytes offset this r this1 q.
Proof.
  intros Hidle. unfold _startNewMessage.
  destruct (Z.ltb_spec (blen bytes - offset) (headerByteCount E)) as [Hshort | Hhdr].
  - unfold bind at 1.
    destruct (_appendToUnfinishedMessage bytes offset (blen bytes - offset) this)
      as [[ra ta] qa] eqn:Ha.
    apply append_cases in Ha as [-> [[-> [b ->]] | [[e ->] ->]]].
    + intros [= <- <- <-]. fields. now apply start_short_header.
    + intros [= <- <- <-]. apply step_throws_same.
  - unfold bind at 1. rewrite extract_run.
    destruct (extractMessageSize E
                (Buf.slice bytes offset (offset + headerByteCount E)))
      as [size | e] eqn:Hsize.
    2: { intros [= <- <- <-]. apply step_throws_same. }
    destruct (validateMessageSize E size) eqn:Hval; cbn [negb].
    2: { intros [= <- <- <-]. fields. now apply start_invalid. }
    destruct (Z.leb_spec size (blen bytes - offset)) as [Hfit | Hmore].
    + unfold bind at 1.
      destruct (_notifyMessageReceived bytes offset size this)
        as [[rn tn] qn] eqn:Hn.
      apply notify_cases in Hn as [-> [[-> [m ->]] | [[e ->] ->]]].
      * intros [= <- <- <-]. fields. now apply start_whole.
      * intros [= <- <- <-]. apply step_throws.
    + unfold bind at 1.
      destruct (_appendToUnfinishedMessage bytes offset (blen bytes - offset) this)
        as [[ra ta] qa] eqn:Ha.
      apply append_cases in Ha as [-> [[-> [b ->]] | [[e ->] ->]]].
      * intros [= <- <- <-]. fields. now apply start_part.
      * intros [= <- <- <-]. apply step_throws_same.
Qed.

Lemma continue_cases (bytes : Buffer) (offset : Z)
    (this : BinaryMessageParser) r this1 q :
  isFinished this = false ->
  _continueUnfinishedMessage E bytes offset this = (r, this1, q) ->
  step_outcome E bytes offset this r this1 q.
Proof.
  intros Hbusy. unfold _continueUnfinishedMessage, bind at 1, get.
  destruct (Z.ltb_spec (blen bytes - offset)
              (expectedMessageSize this - unfinishedMessageSize this))
    as [Hshort | Hall].
  - unfold bind at 1.
    destruct (_appendToUnfinishedMessage bytes offset (blen bytes - offset) this)
      as [[ra ta] qa] eqn:Ha.
    apply append_cases in Ha as [-> [[-> [b ->]] | [[e ->] ->]]].
    + intros [= <- <- <-]. fields. now apply continue_short.
    + intros [= <- <- <-]. apply step_throws_same.
  - unfold bind at 1.
    destruct (_appendToUnfinishedMessage bytes offset
                (expectedMessageSize this - unfinishedMessageSize this) this)
      as [[ra ta] qa] eqn:Ha.
    apply append_cases in Ha as [-> [[-> [b ->]] | [[e ->] ->]]].
    2: { intros [= <- <- <-]. apply step_throws_same. }
    unfold bind at 1, get. fields.
    destruct (bMessageHeaderExtracted this) eqn:Hhdr.
    + unfold bind at 1.
      match goal with
      | |- context [_notifyMessageReceived ?d ?o ?n ?t] =>
          destruct (_notifyMessageReceived d o n t) as [[rn tn] qn] eqn:Hn
      end.
      apply notify_cases in Hn as [-> [[-> [m ->]] | [[e ->] ->]]]; fields.
      * intros [= <- <- <-]. fields. now apply continue_whole.
      * intros [= <- <- <-]. apply step_throws.
    + unfold bind at 1. rewrite extract_run. fields.
      destruct (extractMessageSize E (Buf.slice b 0 (0 + headerByteCount E)))
        as [size | e] eqn:Hsize.
      2: { intros [= <- <- <-]. apply step_throws. }
      replace (unfinishedMessageSize this
               + (expectedMessageSize this - unfinishedMessageSize this))
        with (expectedMessageSize this) by lia.
      destruct (validateMessageSize E size) eqn:Hval.
      * intros [= <- <- <-]. fields. now apply continue_header_valid.
      * intros [= <- <- <-]. fields. now apply continue_header_invalid.
Qed.

Theorem step_cases (bytes : Buffer) (offset : Z)
    (this : BinaryMessageParser) r this1 q :
  step E bytes offset this = (r, this1, q) ->
  step_outcome E bytes offset this r this1 q.
Proof.
  unfold step. destruct (isFinished this) eqn:Hfin.
  - now apply start_cases.
  - now apply continue_cases.
Qed.

End StepCases.

(** ** Callbacks *)

Lemma runImmediates_app (q1 q2 : list task) (this : BinaryMessageParser) :
  runImmediates (q1 ++ q2) this =
    let '(this1, n1) := runImmediates q1 this in
    let '(this2, n2) := runImmediates q2 this1 in
    (this2, n1 ++ n2).
Proof.
  revert this. induction q1 as [| t q1 IH]; intros this; cbn [app runImmediates].
  - destruct (runImmediates q2 this). reflexivity.
  - destruct (runImmediate t this) as [this1 n]. rewrite IH.
    destruct (runImmediates q1 this1) as [this2 ns].
    destruct (runImmediates q2 this2). reflexivity.
Qed.

Lemma runImmediates_messages (messages : list Buffer) (this : BinaryMessageParser) :
  runImmediates (map EmitMessage messages) this = (this, map OnMessage messages).
Proof.
  induction messages as [| m ms IH]; cbn [map runImmediates runImmediate];
    [reflexivity |]. rewrite IH. reflexivity.
Qed.

(** ** Claims about one call *)

(** C2: a buffer that is the concatenation of N valid messages, given to one
    [parseBytes] call on a parser with no message in progress, yields [true]
    and schedules exactly N message notifications, the i-th carrying the bytes
    of the i-th message; the parser ends with no message in progress. *)
Theorem concatenated_messages_one_call (E : HeaderExtractor)
    (Ms : list Buffer) (this : BinaryMessageParser) (fuel : nat) :
  0 < headerByteCount E ->
  Forall (valid_message E) Ms ->
  isFinished this = true ->
  isShutdown this = false ->
  (length Ms <= fuel)%nat ->
  exists this',
    parseBytes E fuel (concat Ms) this = Some (Ok true, this', map EmitMessage Ms)
    /\ runImmediates (map EmitMessage Ms) this' = (this', map OnMessage Ms)
    /\ isFinished this' = true
    /\ isShutdown this' = false.
Proof.
  intros Hhdr HMs Hidle Hup Hfuel. unfold parseBytes. rewrite Hup.
  pose proof (drain_messages E Hhdr Ms HMs [] this fuel Hidle Hfuel) as Hrun.
  cbn [app] in Hrun. change (blen []) with 0 in Hrun.
  eexists. split; [exact Hrun |]. split; [apply runImmediates_messages |].
  destruct Ms; [now split |]. split; [reflexivity | exact Hup].
Qed.

Lemma concatenated_messages_one_call_witness :
  exists this',
    parseBytes HeaderExtractorInt32BE 2 (concat [scenarioA; headerOnly])
      (fresh 1 16)
      = Some (Ok true, this', map EmitMessage [scenarioA; headerOnly])
    /\ runImmediates (map EmitMessage [scenarioA; headerOnly]) this'
       = (this', map OnMessage [scenarioA; headerOnly])
    /\ isFinished this' = true
    /\ isShutdown this' = false.
Proof.
  apply (concatenated_messages_one_call HeaderExtractorInt32BE
           [scenarioA; headerOnly] (fresh 1 16) 2).
  - reflexivity.
  - repeat constructor; vm_compute; congruence.
  - reflexivity.
  - reflexivity.
  - cbn [length]. lia.
Defined.

(** ** Shutdown *)

Section Shutdown.

Variable E : HeaderExtractor.

Lemma parseBytes_shutdown (fuel : nat) (bytes : Buffer)
    (this : BinaryMessageParser) :
  isShutdown this = true ->
  parseBytes E fuel bytes this = Some (Ok false, this, []).
Proof. intros Hdown. unfold parseBytes. now rewrite Hdown. Qed.

Lemma perform_shutdown (op : operation) (this : BinaryMessageParser) :
  isShutdown this = true ->
  exists this', perform E op this = Some this' /\ isShutdown this' = true.
Proof.
  intros Hdown. destruct op as [fuel bytes | fuel chunk | | | | t]; cbn [perform].
  - rewrite parseBytes_shutdown by assumption. eauto.
  - unfold _write. rewrite parseBytes_shutdown by assumption. eauto.
  - eauto.
  - eauto.
  - rewrite reset_run. cbn [fst snd]. eexists. split; [reflexivity |].
    exact Hdown.
  - eexists. split; [reflexivity |]. destruct t; exact Hdown.
Qed.

Lemma performAll_shutdown (ops : list operation) :
  forall this : BinaryMessageParser,
  isShutdown this = true ->
  exists this', performAll E ops this = Some this' /\ isShutdown this' = true.
Proof.
  induction ops as [| op ops IH]; intros this Hdown; cbn [performAll].
  - eauto.
  - destruct (perform_shutdown op this Hdown) as (this1 & -> & Hdown1).
    now apply IH.
Qed.

End Shutdown.

(** C4: on a parser that is shut down, every [parseBytes] call, whatever the
    bytes and the iteration budget, returns [false], leaves the parser as it
    was and schedules no callback; and after any sequence of operations
    ([parseBytes], [_write], the two queries, [_reset], a pending callback)
    the parser is still shut down. *)
Theorem shutdown_is_permanent (E : HeaderExtractor) (this : BinaryMessageParser) :
  isShutdown this = true ->
  (forall fuel bytes, parseBytes E fuel bytes this = Some (Ok false, this, []))
  /\ (forall ops, exists this',
        performAll E ops this = Some this' /\ isShutdown this' = true).
Proof.
  intros Hdown. split.
  - intros fuel bytes. now apply parseBytes_shutdown.
  - intros ops. now apply performAll_shutdown.
Qed.

Lemma shutdown_is_permanent_witness :
  (forall fuel bytes,
     parseBytes HeaderExtractorInt32BE fuel bytes afterScenarioC
       = Some (Ok false, afterScenarioC, []))
  /\ (forall ops, exists this',
        performAll HeaderExtractorInt32BE ops afterScenarioC = Some this'
        /\ isShutdown this' = true).
Proof.
  apply (shutdown_is_permanent HeaderExtractorInt32BE afterScenarioC).
  vm_compute. reflexivity.
Defined.

(** ** Termination of the loop *)

Section Progress.

Variable E : HeaderExtractor.

Lemma phase_bounds (this : BinaryMessageParser) : 0 <= phase this <= 2.
Proof.
  unfold phase. destruct (isFinished this);
    [| destruct (bMessageHeaderExtracted this)]; lia.
Qed.

Lemma phase_idle (buffer : Buffer) (this : BinaryMessageParser) :
  phase (carry buffer 0 0 false this) = 0.
Proof. reflexivity. Qed.

Lemma phase_extracted (buffer : Buffer) (size expected : Z)
    (this : BinaryMessageParser) :
  phase (carry buffer size expected true this) <= 1.
Proof.
  unfold phase, isFinished. fields. destruct (size =? 0); lia.
Qed.

Hypothesis accepted_positive :
  forall size, validateMessageSize E size = true -> 1 <= size.

(** An iteration after which the loop goes on has lowered the measure. *)
Lemma step_lowers_measure (bytes : Buffer) (offset : Z)
    (this : BinaryMessageParser) n this1 q :
  offset < blen bytes ->
  step E bytes offset this = (Ok n, this1, q) ->
  0 <= n ->
  measure bytes (offset + n) this1 < measure bytes offset this.
Proof.
  intros Hlt Hstep Hn. apply step_cases in Hstep. unfold measure.
  pose proof (phase_bounds this) as Hp.
  inversion Hstep as
    [ b Hidle Hshort | size Hidle Hhdr Hsize Hval
    | size m Hidle Hhdr Hsize Hval Hfit | size b Hidle Hhdr Hsize Hval Hmore
    | b Hbusy Hshort | b m Hbusy Hall Hx | b size Hbusy Hall Hx Hsize Hval
    | b size Hbusy Hall Hx Hsize Hval | ]; subst.
  - match goal with |- context [phase ?t] => pose proof (phase_bounds t) end.
    lia.
  - lia.
  - apply accepted_positive in Hval. rewrite phase_idle. lia.
  - match goal with |- context [phase ?t] => pose proof (phase_bounds t) end.
    lia.
  - match goal with |- context [phase ?t] => pose proof (phase_bounds t) end.
    lia.
  - rewrite phase_idle. unfold phase. rewrite Hbusy, Hx. lia.
  - match goal with
    | |- context [phase (carry ?b ?s ?e true ?t)] =>
        pose proof (phase_extracted b s e t)
    end.
    unfold phase at 2. rewrite Hbusy, Hx. lia.
  - lia.
Qed.

Lemma drain_terminates (fuel : nat) :
  forall (bytes : Buffer) (offset : Z) (this : BinaryMessageParser),
  measure bytes offset this < Z.of_nat fuel ->
  exists r, drain E fuel bytes offset this = Some r.
Proof.
  induction fuel as [| fuel IH]; intros bytes offset this Hfuel.
  - destruct (Z.ltb_spec offset (blen bytes)) as [Hlt | Hge].
    + unfold measure in Hfuel. pose proof (phase_bounds this). lia.
    + rewrite drain_end by lia. eauto.
  - destruct (Z.ltb_spec offset (blen bytes)) as [Hlt | Hge].
    2: { rewrite drain_end by lia. eauto. }
    rewrite drain_step by lia. fold (step E bytes offset this).
    destruct (step E bytes offset this) as [[[n | e] this1] q1] eqn:Hstep;
      [| eauto].
    destruct (Z.ltb_spec n 0) as [Hneg | Hpos]; [eauto |].
    pose proof (step_lowers_measure bytes offset this n this1 q1 Hlt Hstep Hpos).
    destruct (IH bytes (offset + n) this1) as [[[r this2] q2] ->]; [lia |].
    eauto.
Qed.

Lemma parseBytes_terminates (bytes : Buffer) (this : BinaryMessageParser)
    (fuel : nat) :
  (enough bytes <= fuel)%nat ->
  exists r, parseBytes E fuel bytes this = Some r.
Proof.
  intros Hfuel. unfold parseBytes. destruct (isShutdown this); [eauto |].
  apply drain_terminates. unfold measure, enough, blen in *.
  pose proof (phase_bounds this). lia.
Qed.

End Progress.

(** ** Along the loop *)

Section Loop.

Variable E : HeaderExtractor.

Lemma loop_at_offset (bytes : Buffer) (this0 : BinaryMessageParser)
    k offset this q :
  loop_at E bytes this0 k offset this q -> 0 <= offset.
Proof. induction 1; lia. Qed.

(** The run from the entry of the loop is the run from any loop head it
    reaches, with the callbacks scheduled on the way in front. *)
Lemma drain_from_loop_head (bytes : Buffer) (this0 : BinaryMessageParser)
    k offset this q :
  loop_at E bytes this0 k offset this q ->
  forall fuel r this' q',
  drain E fuel bytes offset this = Some (r, this', q') ->
  drain E (k + fuel) bytes 0 this0 = Some (r, this', q ++ q').
Proof.
  induction 1 as [| k offset this q n this1 q1 Hloop IH Hlt Hstep Hn];
    intros fuel r this' q' Hrun.
  - exact Hrun.
  - replace (S k + fuel)%nat with (k + S fuel)%nat by lia.
    rewrite <- app_assoc. apply IH.
    rewrite drain_step by lia. fold (step E bytes offset this).
    rewrite Hstep. destruct (Z.ltb_spec n 0); [lia |].
    now rewrite Hrun.
Qed.

(** If the loop never ends from a loop head it reaches, it never ends. *)
Lemma drain_diverges_from_loop_head (bytes : Buffer)
    (this0 : BinaryMessageParser) k offset this q :
  loop_at E bytes this0 k offset this q ->
  (forall fuel, drain E fuel bytes offset this = None) ->
  forall fuel, drain E fuel bytes 0 this0 = None.
Proof.
  induction 1 as [| k offset this q n this1 q1 Hloop IH Hlt Hstep Hn];
    intros Hspin; [exact Hspin |].
  apply IH. intros [| fuel].
  - cbn [drain]. destruct (Z.ltb_spec offset (blen bytes)); [reflexivity | lia].
  - rewrite drain_step by lia. fold (step E bytes offset this).
    rewrite Hstep. destruct (Z.ltb_spec n 0); [lia |].
    now rewrite Hspin.
Qed.

(** The iterations after which the loop goes on schedule messages only. *)
Lemma loop_at_messages (bytes : Buffer) (this0 : BinaryMessageParser)
    k offset this q :
  loop_at E bytes this0 k offset this q ->
  exists messages, q = map EmitMessage messages.
Proof.
  induction 1 as [| k offset this q n this1 q1 Hloop [ms ->] Hlt Hstep Hn].
  - exists []. reflexivity.
  - apply step_cases in Hstep.
    inversion Hstep; subst; try lia;
      first [ exists ms; now rewrite app_nil_r
            | match goal with
              | |- context [[EmitMessage ?m]] =>
                  exists (ms ++ [m]); now rewrite map_app
              end ].
Qed.

Lemma loop_at_shutdown (bytes : Buffer) (this0 : BinaryMessageParser)
    k offset this q :
  loop_at E bytes this0 k offset this q ->
  bShutdown this = bShutdown this0.
Proof.
  induction 1 as [| k offset this q n this1 q1 Hloop IH Hlt Hstep Hn];
    [reflexivity |].
  apply step_cases in Hstep. inversion Hstep; subst; exact IH.
Qed.

(** *** A size of zero that is accepted *)

Lemma zero_size_step (bytes : Buffer) (offset : Z) (this : BinaryMessageParser) :
  validateMessageSize E 0 = true ->
  isFinished this = true ->
  0 <= offset < blen bytes ->
  headerByteCount E <= blen bytes - offset ->
  extractMessageSize E
    (Buf.slice bytes offset (offset + headerByteCount E)) = Ok 0 ->
  step E bytes offset this =
    (Ok 0, carry (unfinishedMessageBuffer this) 0 0 false this, [EmitMessage []]).
Proof.
  intros Hval Hidle Hoff Hhdr Hsize. unfold step. rewrite Hidle.
  rewrite (start_complete E bytes offset 0) by (assumption || lia).
  reflexivity.
Qed.

Lemma zero_size_spins (bytes : Buffer) (offset : Z) :
  validateMessageSize E 0 = true ->
  0 <= offset < blen bytes ->
  headerByteCount E <= blen bytes - offset ->
  extractMessageSize E
    (Buf.slice bytes offset (offset + headerByteCount E)) = Ok 0 ->
  forall (fuel : nat) (this : BinaryMessageParser),
  isFinished this = true ->
  drain E fuel bytes offset this = None.
Proof.
  intros Hval Hoff Hhdr Hsize.
  induction fuel as [| fuel IH]; intros this Hidle.
  - cbn [drain]. destruct (Z.ltb_spec offset (blen bytes)); [reflexivity | lia].
  - rewrite drain_step by lia. fold (step E bytes offset this).
    rewrite zero_size_step by assumption.
    cbn [Z.ltb Z.compare]. rewrite Z.add_0_r.
    now rewrite IH.
Qed.

(** *** A size that is refused *)

Lemma rejects_step (bytes : Buffer) (offset : Z)
    (this : BinaryMessageParser) (size : Z) :
  rejects E bytes offset this size ->
  exists this1 report,
    step E bytes offset this = (Ok (-1), this1, [report])
    /\ bShutdown this1 = bShutdown this
    /\ forall this2,
         expectedMessageSize this2 = expectedMessageSize this1 ->
         snd (runImmediate report this2) = OnError ERR_INVALID_MSG_SIZE size.
Proof.
  intros (Hlt & Hval & Hcase). unfold step.
  destruct (isFinished this) eqn:Hfin.
  - destruct Hcase as (Hhdr & Hsize).
    exists this, (ReportInvalidSize size).
    rewrite (start_reject E bytes offset size) by assumption.
    repeat split.
  - destruct Hcase as (Hx & Hall & this1 & Happ & Hsize).
    pose proof Happ as Hshape.
    apply append_cases in Hshape as [_ [[_ [b ->]] | [[e [=]] _]]].
    exists (carry b (expectedMessageSize this) size true this),
           ReportInvalidExpectedSize.
    split; [| split; [reflexivity |]].
    + unfold _continueUnfinishedMessage, bind at 1, get.
      destruct (Z.ltb_spec (blen bytes - offset)
                  (expectedMessageSize this - unfinishedMessageSize this));
        [lia |].
      unfold bind at 1. rewrite Happ.
      unfold bind at 1, get. fields. rewrite Hx.
      unfold bind at 1. rewrite extract_run. fields. rewrite Hsize.
      unfold bind, modify, setImmediate, ret. fields. rewrite Hval.
      cbn [negb app]. repeat f_equal. lia.
    + intros this2 Hexp. cbn [runImmediate _error snd]. rewrite Hexp.
      reflexivity.
Qed.

End Loop.

(** ** What an iteration reads of the chunk *)

Section Agreement.

Variable E : HeaderExtractor.
Variables bytes bytes' : Buffer.
Variable e : Z.
Hypothesis same_prefix : agree_upto e bytes bytes'.

Lemma take_agree (n : Z) :
  n <= e -> take (Z.to_nat n) bytes' = take (Z.to_nat n) bytes.
Proof.
  intros Hn. destruct same_prefix as (_ & _ & Hsame).
  assert (Hcut : forall l : Buffer,
            take (Z.to_nat n) l = take (Z.to_nat n) (take (Z.to_nat e) l)).
  { intros l. rewrite take_take. f_equal. lia. }
  rewrite (Hcut bytes'), (Hcut bytes). now rewrite Hsame.
Qed.

Lemma range_agree (start n : Z) :
  0 <= start -> 0 <= n -> start + n <= e ->
  take (Z.to_nat n) (drop (Z.to_nat start) bytes')
    = take (Z.to_nat n) (drop (Z.to_nat start) bytes).
Proof.
  intros Hs Hn He. rewrite !take_drop_commute.
  replace (Z.to_nat start + Z.to_nat n)%nat with (Z.to_nat (start + n)) by lia.
  now rewrite take_agree.
Qed.

Lemma slice_agree (start stop : Z) :
  0 <= start <= stop -> stop <= e ->
  Buf.slice bytes' start stop = Buf.slice bytes start stop.
Proof.
  intros Hs He. destruct same_prefix as (Hb & Hb' & _).
  rewrite !slice_in_range by lia. apply range_agree; lia.
Qed.

Lemma copy_agree (target : Buffer) (targetStart sourceStart sourceEnd : Z) :
  sourceStart <= sourceEnd -> sourceEnd <= e ->
  Buf.copy bytes' target targetStart sourceStart sourceEnd
    = Buf.copy bytes target targetStart sourceStart sourceEnd.
Proof.
  intros Hs He. destruct same_prefix as (Hb & Hb' & _). unfold Buf.copy.
  destruct (targetStart <? 0); [reflexivity |].
  destruct (Z.ltb_spec sourceStart 0); [reflexivity |].
  destruct (Z.ltb_spec (blen bytes') sourceStart); [lia |].
  destruct (Z.ltb_spec (blen bytes) sourceStart); [lia |]. cbn [orb].
  destruct (sourceEnd <? 0); [reflexivity |].
  destruct ((blen target <=? targetStart) || (sourceEnd <=? sourceStart));
    [reflexivity |].
  rewrite !(Z.min_l sourceEnd) by lia.
  set (nb := Z.min (sourceEnd - sourceStart) (blen target - targetStart)).
  destruct (Z.le_gt_cases 0 nb) as [Hnb | Hnb].
  - rewrite range_agree by lia. reflexivity.
  - replace (Z.to_nat nb) with 0%nat by lia. reflexivity.
Qed.

Lemma append_agree (offset count : Z) (this : BinaryMessageParser) :
  0 <= offset -> 0 <= count -> offset + count <= e ->
  _appendToUnfinishedMessage bytes' offset count this
    = _appendToUnfinishedMessage bytes offset count this.
Proof.
  intros Hoff Hcount He. unfold _appendToUnfinishedMessage, bind, get.
  rewrite slice_agree, copy_agree by lia. reflexivity.
Qed.

Lemma notify_agree (offset size : Z) (this : BinaryMessageParser) :
  0 <= offset -> offset + size <= e ->
  _notifyMessageReceived bytes' offset size this
    = _notifyMessageReceived bytes offset size this.
Proof.
  intros Hoff He. unfold _notifyMessageReceived, bind.
  destruct (_reset this) as [[[[] | err] this1] q1]; [| reflexivity].
  unfold lift at 1 3. destruct (Z.ltb_spec size 0) as [Hneg | Hpos].
  - unfold Buf.alloc. destruct (Z.ltb_spec size 0); [reflexivity | lia].
  - destruct (Buf.alloc size) as [message | err]; [| reflexivity].
    unfold lift. rewrite copy_agree by lia. reflexivity.
Qed.

(** An iteration that neither exhausts the chunk nor reads beyond [e] does
    the same on both chunks. *)
Lemma step_agree (offset : Z) (this : BinaryMessageParser) n this1 q1 :
  0 <= headerByteCount E ->
  0 <= offset ->
  step E bytes offset this = (Ok n, this1, q1) ->
  0 <= n ->
  offset + n < blen bytes ->
  offset + n <= e ->
  (isFinished this = true -> offset + headerByteCount E <= e) ->
  step E bytes' offset this = (Ok n, this1, q1).
Proof.
  intros Hhbc Hoff Hstep Hn Hless He Hhdr.
  destruct same_prefix as (Hb & Hb' & _).
  pose proof (step_cases E bytes offset this _ _ _ Hstep) as Hout.
  rewrite <- Hstep. unfold step.
  inversion Hout as
    [ b Hidle Hshort | size Hidle Hhdr' Hsize Hval
    | size m Hidle Hhdr' Hsize Hval Hfit | size b Hidle Hhdr' Hsize Hval Hmore
    | b Hbusy Hshort | b m Hbusy Hall Hx | b size Hbusy Hall Hx Hsize Hval
    | b size Hbusy Hall Hx Hsize Hval | ]; subst; try lia.
  - (* a whole message in the chunk *)
    rewrite Hidle. specialize (Hhdr Hidle).
    rewrite (start_complete E bytes offset n) by (assumption || lia).
    rewrite (start_complete E bytes' offset n);
      [ | lia | lia | rewrite slice_agree by lia; exact Hsize | exact Hval | lia ].
    rewrite range_agree by lia. reflexivity.
  - (* the rest of a message in progress *)
    rewrite Hbusy. destruct (continue_reads_by_append E this) as [rest Hrest].
    rewrite !Hrest by lia. unfold bind. rewrite append_agree by lia.
    reflexivity.
  - (* the rest of a header in progress *)
    rewrite Hbusy. destruct (continue_reads_by_append E this) as [rest Hrest].
    rewrite !Hrest by lia. unfold bind. rewrite append_agree by lia.
    reflexivity.
Qed.

(** The loop on the other chunk passes the same loop heads. *)
Lemma loop_at_agree (this0 : BinaryMessageParser) k offset this q :
  0 < headerByteCount E ->
  loop_at E bytes this0 k offset this q ->
  offset < blen bytes ->
  offset + headerByteCount E <= e ->
  loop_at E bytes' this0 k offset this q.
Proof.
  intros Hhbc Hloop.
  induction Hloop as [| k offset this q n this1 q1 Hloop IH Hlt Hstep Hn];
    intros Hless He; [constructor |].
  destruct same_prefix as (Hb & Hb' & _).
  pose proof (loop_at_offset E bytes this0 k offset this q Hloop) as Hoff.
  apply (loop_next E bytes' this0 k offset this q n this1 q1);
    [apply IH; lia | lia | | exact Hn].
  apply step_agree; (assumption || lia).
Qed.

(** The iteration that refuses a size does the same on both chunks. *)
Lemma rejecting_step_agree (offset : Z) (this : BinaryMessageParser) (size : Z) :
  0 <= offset ->
  rejects E bytes offset this size ->
  offset < header_end E offset this ->
  header_end E offset this <= e ->
  offset < blen bytes'
  /\ step E bytes' offset this = step E bytes offset this.
Proof.
  intros Hoff (Hlt & Hval & Hcase) Hpos He.
  destruct same_prefix as (Hb & Hb' & _). unfold header_end in *.
  split; [lia |]. unfold step.
  destruct (isFinished this) eqn:Hfin.
  - destruct Hcase as (Hhdr & Hsize).
    rewrite (start_reject E bytes offset size) by assumption.
    apply start_reject; [lia | | exact Hval].
    rewrite slice_agree by lia. exact Hsize.
  - destruct Hcase as (Hx & Hall & _).
    destruct (continue_reads_by_append E this) as [rest Hrest].
    rewrite !Hrest by lia. unfold bind. rewrite append_agree by lia.
    reflexivity.
Qed.

End Agreement.

(** A header in progress is only ever found at the entry of the loop: every
    iteration that leaves one exhausts the chunk. *)
Lemma header_in_progress_at_entry (E : HeaderExtractor) (bytes : Buffer)
    (this0 : BinaryMessageParser) k offset this q :
  loop_at E bytes this0 k offset this q ->
  offset < blen bytes ->
  isFinished this = false ->
  bMessageHeaderExtracted this = false ->
  k = 0%nat /\ offset = 0 /\ this = this0 /\ q = [].
Proof.
  intros Hloop Hlt Hbusy Hx.
  destruct Hloop as [| k offset this q n this1 q1 Hloop Hlt' Hstep Hn];
    [now repeat split |].
  exfalso. apply step_cases in Hstep.
  inversion Hstep; subst; try lia; try discriminate.
Qed.

(** C5: when the loop of a [parseBytes] call on a parser that is not shut
    down reaches an iteration that extracts a size the validator refuses,
    the call returns [false] and leaves the parser shut down, in the state of
    that iteration; the callbacks it has scheduled are the messages completed
    before that iteration followed by one error report, nothing after it, and
    when they run the single error notification carries the refused size.
    The bytes behind the refused header play no part: any chunk with the
    same bytes up to the end of that header has the same outcome. *)
Theorem invalid_size_shuts_down (E : HeaderExtractor) (bytes : Buffer)
    (this0 : BinaryMessageParser) k offset this q (size : Z) :
  isShutdown this0 = false ->
  loop_at E bytes this0 k offset this q ->
  rejects E bytes offset this size ->
  exists messages report this1,
    q = map EmitMessage messages
    /\ step E bytes offset this = (Ok (-1), this1, [report])
    /\ (forall fuel, (k < fuel)%nat ->
          parseBytes E fuel bytes this0
            = Some (Ok false, set_bShutdown true this1, q ++ [report]))
    /\ isShutdown (set_bShutdown true this1) = true
    /\ snd (runImmediates (q ++ [report]) (set_bShutdown true this1))
       = map OnMessage messages ++ [OnError ERR_INVALID_MSG_SIZE size]
    /\ (offset < header_end E offset this ->
        forall bytes',
        agree_upto (header_end E offset this) bytes bytes' ->
        forall fuel, (k < fuel)%nat ->
        parseBytes E fuel bytes' this0
          = Some (Ok false, set_bShutdown true this1, q ++ [report])).
Proof.
  intros Hup Hloop Hrej.
  destruct (loop_at_messages E bytes this0 k offset this q Hloop) as [ms ->].
  destruct (rejects_step E bytes offset this size Hrej)
    as (this1 & report & Hstep & Hsd & Hrun).
  pose proof (loop_at_offset E bytes this0 k offset this _ Hloop) as Hoff.
  assert (Hfrom : forall data fuel,
            loop_at E data this0 k offset this (map EmitMessage ms) ->
            offset < blen data ->
            step E data offset this = (Ok (-1), this1, [report]) ->
            (k < fuel)%nat ->
            parseBytes E fuel data this0
              = Some (Ok false, set_bShutdown true this1,
                      map EmitMessage ms ++ [report])).
  { intros data fuel Hloop' Hlt Hstep' Hfuel. unfold parseBytes. rewrite Hup.
    replace fuel with (k + S (fuel - k - 1))%nat by lia.
    apply (drain_from_loop_head E data this0 k offset this _ Hloop').
    rewrite drain_step by lia. fold (step E data offset this).
    rewrite Hstep'. reflexivity. }
  exists ms, report, this1. repeat split.
  - exact Hstep.
  - intros fuel Hfuel. destruct Hrej as (Hlt & _). now apply Hfrom.
  - rewrite runImmediates_app, runImmediates_messages.
    cbn [runImmediates].
    specialize (Hrun (set_bShutdown true this1) eq_refl).
    destruct (runImmediate report (set_bShutdown true this1)) as [this2 n].
    cbn [snd] in *. now subst n.
  - intros Hend bytes' Hsame fuel Hfuel.
    destruct (rejecting_step_agree E bytes bytes' _ Hsame offset this size
                Hoff Hrej Hend (Z.le_refl _)) as (Hlt' & Hstep').
    apply Hfrom; [| exact Hlt' | now rewrite Hstep' | exact Hfuel].
    pose proof Hrej as (Hlt & _ & Hcase). unfold header_end in *.
    destruct (isFinished this) eqn:Hfin.
    + apply (loop_at_agree E bytes bytes' _ Hsame); (assumption || lia).
    + destruct Hcase as (Hx & _).
      destruct (header_in_progress_at_entry E bytes this0 k offset this _
                  Hloop Hlt Hfin Hx) as (-> & -> & -> & Heq).
      rewrite Heq. constructor.
Qed.

Lemma invalid_size_shuts_down_witness :
  exists messages report this1,
    [EmitMessage headerOnly] = map EmitMessage messages
    /\ step HeaderExtractorInt32BE rejectedMidChunk 4 (fresh 1 8)
       = (Ok (-1), this1, [report])
    /\ (forall fuel, (1 < fuel)%nat ->
          parseBytes HeaderExtractorInt32BE fuel rejectedMidChunk (fresh 1 8)
            = Some (Ok false, set_bShutdown true this1,
                    [EmitMessage headerOnly] ++ [report]))
    /\ isShutdown (set_bShutdown true this1) = true
    /\ snd (runImmediates ([EmitMessage headerOnly] ++ [report])
              (set_bShutdown true this1))
       = map OnMessage messages ++ [OnError ERR_INVALID_MSG_SIZE 1]
    /\ (4 < header_end HeaderExtractorInt32BE 4 (fresh 1 8) ->
        forall bytes',
        agree_upto (header_end HeaderExtractorInt32BE 4 (fresh 1 8))
          rejectedMidChunk bytes' ->
        forall fuel, (1 < fuel)%nat ->
        parseBytes HeaderExtractorInt32BE fuel bytes' (fresh 1 8)
          = Some (Ok false, set_bShutdown true this1,
                  [EmitMessage headerOnly] ++ [report])).
Proof.
  apply (invalid_size_shuts_down HeaderExtractorInt32BE rejectedMidChunk
           (fresh 1 8) 1 4 (fresh 1 8) [EmitMessage headerOnly] 1).
  - reflexivity.
  - apply (loop_next HeaderExtractorInt32BE rejectedMidChunk (fresh 1 8)
             0 0 (fresh 1 8) [] 4 (fresh 1 8) [EmitMessage headerOnly]
             (loop_entry _ _ _)).
    + reflexivity.
    + vm_compute. reflexivity.
    + lia.
  - vm_compute. repeat split. congruence.
Defined.

(** C10: when the validator accepts no size below 1, [parseBytes] ends on
    every chunk and every parser state, within [enough] iterations; when it
    accepts 0 and, with no message in progress, the loop reaches a header
    that decodes to 0, every iteration from there on returns 0 bytes parsed
    and the call does not end, whatever the budget. *)
Theorem parseBytes_ends_unless_zero_size_accepted (E : HeaderExtractor) :
  ((forall size, validateMessageSize E size = true -> 1 <= size) ->
   forall (bytes : Buffer) (this : BinaryMessageParser) (fuel : nat),
   (enough bytes <= fuel)%nat ->
   exists r, parseBytes E fuel bytes this = Some r)
  /\
  (validateMessageSize E 0 = true ->
   forall (bytes : Buffer) (this0 : BinaryMessageParser) k offset this q,
   isShutdown this0 = false ->
   loop_at E bytes this0 k offset this q ->
   isFinished this = true ->
   offset < blen bytes ->
   headerByteCount E <= blen bytes - offset ->
   extractMessageSize E
     (Buf.slice bytes offset (offset + headerByteCount E)) = Ok 0 ->
   (exists this1,
      step E bytes offset this = (Ok 0, this1, [EmitMessage []])
      /\ isFinished this1 = true)
   /\ forall fuel, parseBytes E fuel bytes this0 = None).
Proof.
  split.
  - intros Hpos bytes this fuel Hfuel. now apply parseBytes_terminates.
  - intros Hval bytes this0 k offset this q Hup Hloop Hidle Hlt Hhdr Hsize.
    pose proof (loop_at_offset E bytes this0 k offset this q Hloop) as Hoff.
    split.
    + eexists. split; [apply zero_size_step; (assumption || lia) | reflexivity].
    + intros fuel. unfold parseBytes. rewrite Hup.
      apply (drain_diverges_from_loop_head E bytes this0 k offset this q Hloop).
      intros fuel'. apply zero_size_spins; (assumption || lia).
Qed.

Lemma parseBytes_ends_unless_zero_size_accepted_witness :
  (exists r,
     parseBytes HeaderExtractorInt32BE (enough scenarioA) scenarioA (fresh 1 16)
       = Some r)
  /\ ((exists this1,
         step Int32BEWithoutValidator zeroHeader 0 (fresh 1 16)
           = (Ok 0, this1, [EmitMessage []])
         /\ isFinished this1 = true)
      /\ forall fuel,
           parseBytes Int32BEWithoutValidator fuel zeroHeader (fresh 1 16) = None).
Proof.
  split.
  - apply (proj1 (parseBytes_ends_unless_zero_size_accepted HeaderExtractorInt32BE)).
    + intros size Hval. cbn in Hval. lia.
    + lia.
  - apply (proj2 (parseBytes_ends_unless_zero_size_accepted Int32BEWithoutValidator)
             eq_refl zeroHeader (fresh 1 16) 0%nat 0 (fresh 1 16) []).
    + reflexivity.
    + apply loop_entry.
    + reflexivity.
    + reflexivity.
    + vm_compute. congruence.
    + vm_compute. reflexivity.
Defined.

(** C10 as it is worded, for any extracted size of 0 that is accepted, fails
    where the header is completed in the carry buffer: the header [0,0,0,0]
    of extractor Int32BE with the always-true validator, arriving as [0,0]
    and [0,0], is extracted as 0 and accepted by the second call, which
    advances by the two bytes it appended; both calls end and return
    [true]. *)
Lemma zero_size_from_split_header_returns :
  validateMessageSize Int32BEWithoutValidator 0 = true
  /\ exists this',
       feed Int32BEWithoutValidator [Buf.from [0; 0]; Buf.from [0; 0]]
         (fresh 1 16)
         = Some ([true; true], this', [])
       /\ extractMessageSize Int32BEWithoutValidator
            (take 4 (unfinishedMessageBuffer this')) = Ok 0
       /\ expectedMessageSize this' = 0
       /\ bMessageHeaderExtracted this' = true.
Proof.
  split; [reflexivity |].
  eexists. split; [vm_compute; reflexivity |]. repeat split.
Qed.

(** ** Construction *)

Lemma getProp_setProp (o : object) (name : string) (v : value) :
  getProp (setProp o name v) name = v.
Proof. unfold getProp, setProp. cbn [properties]. now rewrite lookup_insert_eq. Qed.

Lemma getProp_setProp_ne (o : object) (name name' : string) (v : value) :
  name <> name' -> getProp (setProp o name v) name' = getProp o name'.
Proof.
  intros Hne. unfold getProp, setProp. cbn [properties].
  now rewrite lookup_insert_ne.
Qed.

(** Writing a property does not change what [typeof] answers. *)
Lemma typeof_after_write (h : store) (l : loc) (o : object)
    (name : string) (v w : value) :
  h !! l = Some o ->
  typeof (<[l := setProp o name v]> h) w = typeof h w.
Proof.
  intros Hl. destruct w as [| | | | | | l']; try reflexivity. cbn [typeof].
  destruct (decide (l = l')) as [<- | Hne].
  - rewrite lookup_insert_eq, Hl. reflexivity.
  - rewrite lookup_insert_ne by exact Hne. reflexivity.
Qed.

(** The constructor on an object that passes the extractor test. *)
Lemma construct_accepted (h : store) (l : loc) (o : object)
    (initialBufferSize : value) :
  h !! l = Some o ->
  callable o = false ->
  typeof h (getProp o "headerByteCount") = "number" ->
  typeof h (getProp o "extractMessageSize") = "function" ->
  new_BinaryMessageParser h (VObject l) initialBufferSize =
    (if bool_decide (typeof h (getProp o "validateMessageSize") ≠ "function")
     then <[l := setProp o "validateMessageSize" (VFunction always_true)]> h
     else h,
     if capacityFor initialBufferSize <=? 0
     then Throw (RangeError "initialBufferSize must be greater than 0")
     else if Buf.kMaxLength <? capacityFor initialBufferSize
     then Throw (RangeError "The value of size is out of range")
     else Ok (fresh l (capacityFor initialBufferSize))).
Proof.
  intros Hl Hobj Hnum Hfun. unfold new_BinaryMessageParser.
  cbn [typeof]. rewrite Hl, Hobj, Hnum, Hfun.
  rewrite !bool_decide_eq_false_2 by (intros H; now apply H). cbn [orb].
  fold (capacityFor initialBufferSize).
  destruct (Z.leb_spec (capacityFor initialBufferSize) 0); [reflexivity |].
  unfold Buf.allocChecked.
  destruct (Buf.kMaxLength <? capacityFor initialBufferSize); [reflexivity |].
  rewrite alloc_ok by lia. reflexivity.
Qed.

(** The constructor on anything else. *)
Lemma construct_refused (h : store) (v initialBufferSize : value) :
  typeof h v <> "object"
  \/ ~ has_numeric_headerByteCount h v
  \/ ~ has_callable_extractMessageSize h v ->
  new_BinaryMessageParser h v initialBufferSize = (h, Throw (TypeError
    (if bool_decide (typeof h v ≠ "object") then "invalid header extractor"
     else match v with
          | VObject _ => "invalid header extractor"
          | _ => "Cannot read properties of null"
          end))).
Proof.
  intros Hbad. unfold new_BinaryMessageParser.
  destruct (bool_decide (typeof h v ≠ "object")) eqn:Htype; [reflexivity |].
  apply bool_decide_eq_false in Htype. apply dec_stable in Htype.
  destruct Hbad as [Hbad | Hbad]; [contradiction |].
  destruct v as [| | | | | | l]; try reflexivity.
  cbn [typeof] in Htype.
  destruct (h !! l) as [o |] eqn:Hl; [| discriminate].
  destruct (bool_decide (typeof h (getProp o "headerByteCount") ≠ "number"))
    eqn:Hnum; [reflexivity |].
  destruct (bool_decide (typeof h (getProp o "extractMessageSize") ≠ "function"))
    eqn:Hfun; [reflexivity |].
  apply bool_decide_eq_false in Hnum, Hfun.
  apply dec_stable in Hnum, Hfun.
  exfalso. destruct Hbad as [Hbad | Hbad]; apply Hbad.
  - exists (getProp o "headerByteCount"). cbn [member]. now rewrite Hl.
  - exists (getProp o "extractMessageSize"). cbn [member]. now rewrite Hl.
Qed.

Lemma typeof_object_inv (h : store) (v : value) :
  typeof h v = "object" ->
  v = VNull \/ exists l o, v = VObject l /\ h !! l = Some o /\ callable o = false.
Proof.
  destruct v as [| | | | | | l]; cbn [typeof]; try discriminate.
  - now left.
  - destruct (h !! l) as [o |] eqn:Hl; [| discriminate].
    destruct (callable o) eqn:Hc; [discriminate |].
    intros _. right. now exists l, o.
Qed.

(** Whether the extractor test of the constructor passes is decidable. *)
Lemma extractor_test (h : store) (v : value) :
  (exists l o, v = VObject l /\ h !! l = Some o /\ callable o = false
     /\ typeof h (getProp o "headerByteCount") = "number"
     /\ typeof h (getProp o "extractMessageSize") = "function")
  \/ (typeof h v <> "object"
      \/ ~ has_numeric_headerByteCount h v
      \/ ~ has_callable_extractMessageSize h v).
Proof.
  destruct (decide (typeof h v = "object")) as [Hobj | Hobj]; [| now right; left].
  apply typeof_object_inv in Hobj as [-> | (l & o & -> & Hl & Hc)].
  - right. right. left. intros (m & Hm & _). discriminate Hm.
  - destruct (decide (typeof h (getProp o "headerByteCount") = "number"))
      as [Hnum | Hnum].
    + destruct (decide (typeof h (getProp o "extractMessageSize") = "function"))
        as [Hfun | Hfun].
      * left. now exists l, o.
      * right. right. right. intros (m & Hm & Ht). cbn [member] in Hm.
        rewrite Hl in Hm. injection Hm as <-. contradiction.
    + right. right. left. intros (m & Hm & Ht). cbn [member] in Hm.
      rewrite Hl in Hm. injection Hm as <-. contradiction.
Qed.

Lemma constructed_ok_inv (h : store) (l : loc) (o : object)
    (initialBufferSize : value) (this : BinaryMessageParser) :
  h !! l = Some o ->
  constructed h (VObject l) initialBufferSize = Ok this ->
  callable o = false
  /\ typeof h (getProp o "headerByteCount") = "number"
  /\ typeof h (getProp o "extractMessageSize") = "function"
  /\ 0 < capacityFor initialBufferSize
  /\ this = fresh l (capacityFor initialBufferSize).
Proof.
  intros Hl Hok. unfold constructed in Hok.
  destruct (extractor_test h (VObject l))
    as [(l' & o' & [= <-] & Hl' & Hc & Hnum & Hfun) | Hbad].
  - rewrite Hl in Hl'. injection Hl' as <-.
    rewrite (construct_accepted h l o) in Hok by assumption. cbn [snd] in Hok.
    destruct (Z.leb_spec (capacityFor initialBufferSize) 0); [discriminate |].
    destruct (Buf.kMaxLength <? capacityFor initialBufferSize); [discriminate |].
    injection Hok as <-. repeat split; (assumption || lia).
  - rewrite construct_refused in Hok by exact Hbad. discriminate Hok.
Qed.



(** The extractor the parser's methods find behind its reference, once the
    constructor has completed a lacking validator. *)
Lemma extractorAt_installed (h : store) (l : loc) (o : object) n f :
  getProp o "headerByteCount" = VNumber n ->
  getProp o "extractMessageSize" = VFunction (FnSize f) ->
  extractorAt (<[l := setProp o "validateMessageSize" (VFunction always_true)]> h) l
    = Some (mkExtractor n f (fun _ => true)).
Proof.
  intros Hn Hf. unfold extractorAt. rewrite lookup_insert_eq. cbn [mbind option_bind].
  unfold extractorOf. rewrite getProp_setProp.
  rewrite !getProp_setProp_ne by discriminate. now rewrite Hn, Hf.
Qed.

(** C3, as the constructor decides it: for an extractor object supplied
    without a callable [validateMessageSize], the validator the constructed
    parser finds behind its extractor reference is the installed one, and it
    accepts every size. *)
Theorem default_validator_accepts_every_size (h : store) (l : loc) (o : object)
    (initialBufferSize : value) (this : BinaryMessageParser) :
  h !! l = Some o ->
  typeof h (getProp o "validateMessageSize") <> "function" ->
  constructed h (VObject l) initialBufferSize = Ok this ->
  member (store_after h (VObject l) initialBufferSize)
    (VObject (headerExtractor this)) "validateMessageSize"
    = Some (VFunction always_true)
  /\ (forall n f,
        getProp o "headerByteCount" = VNumber n ->
        getProp o "extractMessageSize" = VFunction (FnSize f) ->
        extractorAt (store_after h (VObject l) initialBufferSize)
          (headerExtractor this) = Some (mkExtractor n f (fun _ => true)))
  /\ (forall E,
        extractorAt (store_after h (VObject l) initialBufferSize)
          (headerExtractor this) = Some E ->
        forall size, validateMessageSize E size = true).
Proof.
  intros Hl Hno Hok.
  destruct (constructed_ok_inv h l o initialBufferSize this Hl Hok)
    as (Hc & Hnum & Hfun & Hcap & ->).
  unfold store_after. rewrite (construct_accepted h l o) by assumption.
  cbn [fst]. rewrite bool_decide_eq_true_2 by exact Hno.
  cbn [fresh headerExtractor]. repeat split.
  - cbn [member]. rewrite lookup_insert_eq. cbn [fmap option_fmap option_map].
    now rewrite getProp_setProp.
  - intros n f Hn Hf. now apply extractorAt_installed.
  - intros E HE size. unfold extractorAt in HE.
    rewrite lookup_insert_eq in HE. cbn [mbind option_bind] in HE.
    unfold extractorOf in HE. rewrite getProp_setProp in HE.
    rewrite !getProp_setProp_ne in HE by discriminate.
    destruct (getProp o "headerByteCount"); try discriminate.
    destruct (getProp o "extractMessageSize") as [| | | | | [f | g] |];
      try discriminate.
    unfold always_true in HE. injection HE as <-. reflexivity.
Qed.

Lemma default_validator_accepts_every_size_witness :
  member (store_after storeWithoutValidator (VObject 1) VUndefined)
    (VObject (headerExtractor (fresh 1 10240))) "validateMessageSize"
    = Some (VFunction always_true)
  /\ (forall n f,
        getProp extractorWithoutValidator "headerByteCount" = VNumber n ->
        getProp extractorWithoutValidator "extractMessageSize"
          = VFunction (FnSize f) ->
        extractorAt (store_after storeWithoutValidator (VObject 1) VUndefined)
          (headerExtractor (fresh 1 10240))
          = Some (mkExtractor n f (fun _ => true)))
  /\ (forall E,
        extractorAt (store_after storeWithoutValidator (VObject 1) VUndefined)
          (headerExtractor (fresh 1 10240)) = Some E ->
        forall size, validateMessageSize E size = true).
Proof.
  apply (default_validator_accepts_every_size storeWithoutValidator 1
           extractorWithoutValidator VUndefined (fresh 1 10240)).
  - reflexivity.
  - discriminate.
  - reflexivity.
Defined.

(** C3 with the policy [size >= headerByteCount] fails: with the validator
    left out of an extractor whose header has four bytes, the parser's
    validator accepts the size 1. *)
Lemma default_validator_accepts_size_below_header :
  exists this E,
    constructed storeWithoutValidator (VObject 1) VUndefined = Ok this
    /\ ~ has_callable_validateMessageSize storeWithoutValidator (VObject 1)
    /\ extractorAt (store_after storeWithoutValidator (VObject 1) VUndefined)
         (headerExtractor this) = Some E
    /\ ~ (validateMessageSize E 1 = true <-> headerByteCount E <= 1).
Proof.
  exists (fresh 1 10240), Int32BEWithoutValidator. repeat split.
  - intros (m & Hm & Ht). injection Hm as <-. discriminate Ht.
  - intros [Hle _]. specialize (Hle eq_refl). cbn in Hle. lia.
Qed.

(** C9: when the extractor object passes the constructor's test and has no
    callable [validateMessageSize], the constructor writes that member on
    the caller's object itself, also when it then throws for the buffer
    size; the object at the caller's reference now has the member, every
    other object is untouched, and a parser constructed afterwards with the
    same reference finds the member there, installs nothing, and refers to
    the same object. *)
Theorem constructor_writes_validator_on_callers_object (h : store) (l : loc)
    (o : object) (initialBufferSize : value) :
  h !! l = Some o ->
  callable o = false ->
  typeof h (getProp o "headerByteCount") = "number" ->
  typeof h (getProp o "extractMessageSize") = "function" ->
  typeof h (getProp o "validateMessageSize") <> "function" ->
  store_after h (VObject l) initialBufferSize
    = <[l := setProp o "validateMessageSize" (VFunction always_true)]> h
  /\ member (store_after h (VObject l) initialBufferSize) (VObject l)
       "validateMessageSize" = Some (VFunction always_true)
  /\ (forall l', l' <> l ->
        store_after h (VObject l) initialBufferSize !! l' = h !! l')
  /\ (forall this,
        constructed h (VObject l) initialBufferSize = Ok this ->
        headerExtractor this = l)
  /\ (forall initialBufferSize',
        store_after (store_after h (VObject l) initialBufferSize) (VObject l)
          initialBufferSize'
          = store_after h (VObject l) initialBufferSize
        /\ forall this',
             constructed (store_after h (VObject l) initialBufferSize)
               (VObject l) initialBufferSize' = Ok this' ->
             headerExtractor this' = l).
Proof.
  intros Hl Hc Hnum Hfun Hno.
  assert (Hstore : store_after h (VObject l) initialBufferSize
            = <[l := setProp o "validateMessageSize" (VFunction always_true)]> h).
  { unfold store_after. rewrite (construct_accepted h l o) by assumption.
    cbn [fst]. now rewrite bool_decide_eq_true_2 by exact Hno. }
  rewrite Hstore.
  set (o' := setProp o "validateMessageSize" (VFunction always_true)).
  assert (Hl' : <[l := o']> h !! l = Some o') by apply lookup_insert_eq.
  repeat split.
  - cbn [member]. rewrite Hl'. cbn [fmap option_fmap option_map].
    unfold o'. now rewrite getProp_setProp.
  - intros l' Hne. now rewrite lookup_insert_ne.
  - intros this Hok.
    now destruct (constructed_ok_inv h l o _ this Hl Hok) as (_ & _ & _ & _ & ->).
  - unfold store_after.
    rewrite (construct_accepted (<[l := o']> h) l o'); cbn [fst].
    + rewrite bool_decide_eq_false_2; [reflexivity |].
      intros Hb. apply Hb. unfold o'. now rewrite getProp_setProp.
    + exact Hl'.
    + exact Hc.
    + unfold o'. rewrite getProp_setProp_ne by discriminate.
      now rewrite typeof_after_write.
    + unfold o'. rewrite getProp_setProp_ne by discriminate.
      now rewrite typeof_after_write.
  - intros this' Hok.
    now destruct (constructed_ok_inv _ l o' _ this' Hl' Hok) as (_ & _ & _ & _ & ->).
Qed.

Lemma constructor_writes_validator_on_callers_object_witness :
  store_after storeWithoutValidator (VObject 1) (VNumber 0)
    = <[1%positive := setProp extractorWithoutValidator "validateMessageSize"
                        (VFunction always_true)]> storeWithoutValidator
  /\ member (store_after storeWithoutValidator (VObject 1) (VNumber 0))
       (VObject 1) "validateMessageSize" = Some (VFunction always_true)
  /\ (forall l', l' <> 1%positive ->
        store_after storeWithoutValidator (VObject 1) (VNumber 0) !! l'
          = storeWithoutValidator !! l')
  /\ (forall this,
        constructed storeWithoutValidator (VObject 1) (VNumber 0) = Ok this ->
        headerExtractor this = 1%positive)
  /\ (forall initialBufferSize',
        store_after (store_after storeWithoutValidator (VObject 1) (VNumber 0))
          (VObject 1) initialBufferSize'
          = store_after storeWithoutValidator (VObject 1) (VNumber 0)
        /\ forall this',
             constructed (store_after storeWithoutValidator (VObject 1) (VNumber 0))
               (VObject 1) initialBufferSize' = Ok this' ->
             headerExtractor this' = 1%positive).
Proof.
  apply (constructor_writes_validator_on_callers_object storeWithoutValidator 1
           extractorWithoutValidator (VNumber 0)).
  - reflexivity.
  - reflexivity.
  - reflexivity.
  - reflexivity.
  - discriminate.
Defined.

(** ** The standard extractors *)

Lemma byteval_range (b : byte) : 0 <= byteval b < 256.
Proof. unfold byteval. pose proof (Byte.to_N_bounded b). lia. Qed.

(** Sign extension of eight bits, as [readInt8] computes it. *)
Lemma sign_extend_8 (b : byte) :
  Buf.bitor (byteval b) (Buf.bitand (byteval b) (2 ^ 7) * 33554430)
    = twosComplement 8 (byteval b).
Proof. destruct b; vm_compute; reflexivity. Qed.

Lemma toInt32_small (z : Z) :
  - 2147483648 <= z < 2147483648 -> Buf.toInt32 z = z.
Proof.
  intros Hz. unfold Buf.toInt32. change (2 ^ 31) with 2147483648.
  change (2 ^ 32) with 4294967296. rewrite Z.mod_small; lia.
Qed.

(** The bit [k] of a number below [2 ^ (k + 1)], isolated by [land]. *)
Lemma land_top_bit (v k : Z) :
  0 <= k -> 0 <= v < 2 ^ (k + 1) ->
  Z.land v (2 ^ k) = if v <? 2 ^ k then 0 else 2 ^ k.
Proof.
  intros Hk Hv.
  assert (Hpow : 2 ^ (k + 1) = 2 * 2 ^ k)
    by (rewrite Z.pow_add_r, Z.pow_1_r; lia).
  assert (Hpos : 0 < 2 ^ k) by (apply Z.pow_pos_nonneg; lia).
  apply Z.bits_inj'. intros n Hn. rewrite Z.land_spec, Z.pow2_bits_eqb by lia.
  destruct (Z.ltb_spec v (2 ^ k)) as [Hlow | Hhigh].
  - rewrite Z.bits_0. destruct (Z.eqb_spec k n) as [<- | Hne];
      [| apply andb_false_r].
    rewrite andb_true_r. apply Z.testbit_false; [lia |].
    rewrite Z.div_small by lia. reflexivity.
  - rewrite Z.pow2_bits_eqb by lia. destruct (Z.eqb_spec k n) as [<- | Hne];
      [| apply andb_false_r].
    rewrite andb_true_r. apply Z.testbit_true; [lia |].
    replace (v / 2 ^ k) with 1; [reflexivity |].
    apply Z.div_unique with (r := v - 2 ^ k); lia.
Qed.

(** Setting every bit from [k] upwards of a number below [2 ^ k]. *)
Lemma lor_sign_bits (v k : Z) :
  0 <= k -> 0 <= v < 2 ^ k -> Z.lor v (- 2 ^ k) = v - 2 ^ k.
Proof.
  intros Hk Hv.
  pose proof (Z.sub_lor_l_same_r v (- 2 ^ k)) as H.
  replace (Z.lnot (- 2 ^ k)) with (Z.ones k) in H
    by (rewrite Z.ones_equiv; unfold Z.lnot; lia).
  rewrite Z.land_ones, Z.mod_small in H by lia. lia.
Qed.

(** Sign extension of sixteen bits, as [readInt16LE] and [readInt16BE]
    compute it. *)
Lemma sign_extend_16 (v : Z) :
  0 <= v < 65536 ->
  Buf.bitor v (Buf.bitand v (2 ^ 15) * 131070) = twosComplement 16 v.
Proof.
  intros Hv. unfold Buf.bitor, Buf.bitand, twosComplement.
  rewrite (toInt32_small v) by lia.
  rewrite (toInt32_small (2 ^ 15)) by (change (2 ^ 15) with 32768; lia).
  rewrite (land_top_bit v 15) by (change (2 ^ (15 + 1)) with 65536; lia).
  change (2 ^ (16 - 1)) with (2 ^ 15).
  destruct (v <? 2 ^ 15).
  - change (Buf.toInt32 (0 * 131070)) with 0. apply Z.lor_0_r.
  - change (Buf.toInt32 (2 ^ 15 * 131070)) with (- 2 ^ 16).
    apply lor_sign_bits; [lia |]. change (2 ^ 16) with 65536. lia.
Qed.

(** The left shift by 24 of [readInt32LE] and [readInt32BE]. *)
Lemma shl_24 (x : Z) :
  0 <= x < 256 ->
  Buf.shl x 24 = if x <? 128 then x * 16777216 else x * 16777216 - 4294967296.
Proof.
  intros Hx. unfold Buf.shl, Buf.toInt32.
  change (24 mod 32) with 24. change (2 ^ 31) with 2147483648.
  change (2 ^ 32) with 4294967296.
  replace ((x + 2147483648) mod 4294967296 - 2147483648) with x
    by (rewrite Z.mod_small; lia).
  rewrite Z.shiftl_mul_pow2 by lia. change (2 ^ 24) with 16777216.
  destruct (Z.ltb_spec x 128).
  - rewrite Z.mod_small; lia.
  - replace (x * 16777216 + 2147483648)
      with (x * 16777216 - 2147483648 + 1 * 4294967296) by lia.
    rewrite Z_mod_plus_full. rewrite Z.mod_small; lia.
Qed.

Lemma at_0 (b : byte) (rest : Buffer) : Buf.at_ (b :: rest) 0 = Some (byteval b).
Proof. reflexivity. Qed.

Lemma at_1 (b0 b1 : byte) (rest : Buffer) :
  Buf.at_ (b0 :: b1 :: rest) (0 + 1) = Some (byteval b1).
Proof. reflexivity. Qed.

Lemma at_2 (b0 b1 b2 : byte) (rest : Buffer) :
  Buf.at_ (b0 :: b1 :: b2 :: rest) (0 + 2) = Some (byteval b2).
Proof. reflexivity. Qed.

Lemma at_3 (b0 b1 b2 b3 : byte) (rest : Buffer) :
  Buf.at_ (b0 :: b1 :: b2 :: b3 :: rest) (0 + 3) = Some (byteval b3).
Proof. reflexivity. Qed.

(** Spelling out the digits of a header of known length. *)
Ltac digits :=
  unfold unsignedBE; cbn [firstn rev app fold_left];
  rewrite ?take_0; cbn [rev app fold_left].

Lemma extract_named_integer (name : standardName) (header : Buffer) :
  widthOf name <= blen header ->
  extractMessageSize (standardExtractor name) header
    = Ok (namedInteger name header).
Proof.
  intros Hlen. unfold blen in Hlen.
  destruct name; cbn [widthOf] in Hlen;
    cbn [standardExtractor extractMessageSize HeaderExtractorInt8
         HeaderExtractorUInt8 HeaderExtractorInt16BE HeaderExtractorUInt16BE
         HeaderExtractorInt16LE HeaderExtractorUInt16LE HeaderExtractorInt32BE
         HeaderExtractorUInt32BE HeaderExtractorInt32LE HeaderExtractorUInt32LE
         createPODExtractor callRead];
    unfold namedInteger; cbn [widthOf isSigned isBigEndian].
  (* one byte *)
  1, 2: destruct header as [| b0 rest]; [cbn [length] in Hlen; lia |].
  (* two bytes *)
  3, 4, 5, 6: destruct header as [| b0 [| b1 rest]]; try (cbn [length] in Hlen; lia).
  (* four bytes *)
  7, 8, 9, 10: destruct header as [| b0 [| b1 [| b2 [| b3 rest]]]];
    try (cbn [length] in Hlen; lia).
  all: try pose proof (byteval_range b0) as H0.
  all: try pose proof (byteval_range b1) as H1.
  all: try pose proof (byteval_range b2) as H2.
  all: try pose proof (byteval_range b3) as H3.
  - (* Int8 *)
    unfold Buf.readInt8. rewrite at_0, sign_extend_8. apply (f_equal (@Ok Z)).
    change (Z.to_nat 1) with 1%nat. digits.
    first [reflexivity | f_equal; lia].
  - (* UInt8 *)
    unfold Buf.readUInt8. rewrite at_0. apply (f_equal (@Ok Z)).
    change (Z.to_nat 1) with 1%nat. digits. lia.
  - (* Int16BE *)
    unfold Buf.readInt16BE. rewrite at_0, at_1.
    change (2 ^ 8) with 256. rewrite sign_extend_16 by lia. apply (f_equal (@Ok Z)).
    change (Z.to_nat 2) with 2%nat. digits.
    first [reflexivity | f_equal; lia].
  - (* UInt16BE *)
    unfold Buf.readUInt16BE. rewrite at_0, at_1. change (2 ^ 8) with 256.
    apply (f_equal (@Ok Z)). change (Z.to_nat 2) with 2%nat. digits. lia.
  - (* Int16LE *)
    unfold Buf.readInt16LE. rewrite at_0, at_1.
    change (2 ^ 8) with 256. rewrite sign_extend_16 by lia. apply (f_equal (@Ok Z)).
    change (Z.to_nat 2) with 2%nat. digits.
    first [reflexivity | f_equal; lia].
  - (* UInt16LE *)
    unfold Buf.readUInt16LE. rewrite at_0, at_1. change (2 ^ 8) with 256.
    apply (f_equal (@Ok Z)). change (Z.to_nat 2) with 2%nat.
    digits. lia.
  - (* Int32BE *)
    unfold Buf.readInt32BE. rewrite at_0, at_1, at_2, at_3.
    rewrite shl_24 by lia. apply (f_equal (@Ok Z)).
    change (Z.to_nat 4) with 4%nat. digits.
    unfold twosComplement. change (2 ^ (8 * 4 - 1)) with 2147483648.
    change (2 ^ (8 * 4)) with 4294967296.
    change (2 ^ 16) with 65536. change (2 ^ 8) with 256.
    destruct (Z.ltb_spec (byteval b0) 128);
      match goal with |- context [?u <? 2147483648] =>
        destruct (Z.ltb_spec u 2147483648) end; lia.
  - (* UInt32BE *)
    unfold Buf.readUInt32BE. rewrite at_0, at_1, at_2, at_3. apply (f_equal (@Ok Z)).
    change (Z.to_nat 4) with 4%nat. digits.
    change (2 ^ 24) with 16777216. change (2 ^ 16) with 65536.
    change (2 ^ 8) with 256. lia.
  - (* Int32LE *)
    unfold Buf.readInt32LE. rewrite at_0, at_1, at_2, at_3.
    rewrite shl_24 by lia. apply (f_equal (@Ok Z)).
    change (Z.to_nat 4) with 4%nat. digits.
    unfold twosComplement. change (2 ^ (8 * 4 - 1)) with 2147483648.
    change (2 ^ (8 * 4)) with 4294967296.
    change (2 ^ 16) with 65536. change (2 ^ 8) with 256.
    destruct (Z.ltb_spec (byteval b3) 128);
      match goal with |- context [?u <? 2147483648] =>
        destruct (Z.ltb_spec u 2147483648) end; lia.
  - (* UInt32LE *)
    unfold Buf.readUInt32LE. rewrite at_0, at_1, at_2, at_3. apply (f_equal (@Ok Z)).
    change (Z.to_nat 4) with 4%nat. digits.
    change (2 ^ 24) with 16777216. change (2 ^ 16) with 65536.
    change (2 ^ 8) with 256. lia.
Qed.

(** C7: each of the ten standard extractors has the header width of its
    name, its [extractMessageSize] returns, on every header of at least that
    many bytes, the integer of the named width, signedness and byte order
    read from the first bytes, and its [validateMessageSize] accepts exactly
    the sizes that are at least the header width. *)
Theorem standard_extractors_decode_their_name (name : standardName) :
  headerByteCount (standardExtractor name) = widthOf name
  /\ (forall header,
        widthOf name <= blen header ->
        extractMessageSize (standardExtractor name) header
          = Ok (namedInteger name header))
  /\ (forall size,
        validateMessageSize (standardExtractor name) size = true
        <-> headerByteCount (standardExtractor name) <= size).
Proof.
  split; [destruct name; reflexivity |]. split.
  - intros header. apply extract_named_integer.
  - intros size. destruct name; cbn; apply Z.leb_le.
Qed.

Lemma standard_extractors_decode_their_name_witness :
  extractMessageSize (standardExtractor Int16LE) (Buf.from [254; 255; 0; 5])
    = Ok (namedInteger Int16LE (Buf.from [254; 255; 0; 5]))
  /\ namedInteger Int16LE (Buf.from [254; 255; 0; 5]) = -2.
Proof.
  split.
  - apply (proj1 (proj2 (standard_extractors_decode_their_name Int16LE))).
    vm_compute. congruence.
  - vm_compute. reflexivity.
Defined.

(** ** One message in several chunks *)

Section Chunking.

Variable E : HeaderExtractor.
Variable M : Buffer.
Variable capacity : Z.

Hypothesis header_nonempty : 0 < headerByteCount E.
Hypothesis M_valid : valid_message E M.







End Chunking.

Section Feeding.

Variable E : HeaderExtractor.
Variable M : Buffer.
Variable capacity : Z.

Hypothesis header_nonempty : 0 < headerByteCount E.
Hypothesis M_valid : valid_message E M.




End Feeding.


(** ** A message that is its header only, cut inside the header *)

Section HeaderOnly.

Variable E : HeaderExtractor.
Variable M : Buffer.

Hypothesis header_nonempty : 0 < headerByteCount E.
Hypothesis M_valid : valid_message E M.
Hypothesis M_header_only : blen M = headerByteCount E.


End HeaderOnly.

(** C1, at the input on which the code departs from it: the valid message
    [0,0,0,4] of extractor Int32BE yields one notification when it arrives in
    one chunk, and none when it arrives as [0,0] and [0,4]; both calls return
    [true] and the parser keeps the whole message in its carry buffer, with
    a message in progress. *)
Theorem header_only_message_in_two_chunks_yields_nothing :
  valid_message HeaderExtractorInt32BE headerOnly
  /\ concat [Buf.from [0; 0]; Buf.from [0; 4]] = headerOnly
  /\ feed HeaderExtractorInt32BE [headerOnly] (fresh 1 16)
     = Some ([true], fresh 1 16, [EmitMessage headerOnly])
  /\ exists this',
       feed HeaderExtractorInt32BE [Buf.from [0; 0]; Buf.from [0; 4]] (fresh 1 16)
         = Some ([true; true], this', [])
       /\ isFinished this' = false
       /\ unfinishedMessageSize this' = 4
       /\ expectedMessageSize this' = 4
       /\ take 4 (unfinishedMessageBuffer this') = headerOnly.
Proof.
  split; [vm_compute; repeat split; congruence |].
  split; [reflexivity |]. split; [vm_compute; reflexivity |].
  eexists. split; [vm_compute; reflexivity |]. repeat split.
Qed.

(** ** Growth of the carry buffer *)

(** X12: an append that exceeds the free space leaves a buffer whose
    capacity is the carried count plus the appended count, holding the carried
    bytes followed by the appended ones. *)
Lemma reallocation_fits_exactly (data : Buffer) (offset count : Z)
    (this : BinaryMessageParser) :
  0 <= unfinishedMessageSize this <= blen (unfinishedMessageBuffer this) ->
  0 <= offset -> 0 <= count -> offset + count <= blen data ->
  blen (unfinishedMessageBuffer this) - unfinishedMessageSize this < count ->
  exists this',
    _appendToUnfinishedMessage data offset count this = (Ok tt, this', [])
    /\ blen (unfinishedMessageBuffer this') = unfinishedMessageSize this + count
    /\ unfinishedMessageSize this' = unfinishedMessageSize this + count
    /\ unfinishedMessageBuffer this'
       = take (Z.to_nat (unfinishedMessageSize this)) (unfinishedMessageBuffer this)
           ++ take (Z.to_nat count) (drop (Z.to_nat offset) data).
Proof.
  intros Hsize Hoff Hcount Hdata Hfull.
  rewrite append_run by assumption. eexists. split; [reflexivity |].
  assert (Hchunk : blen (take (Z.to_nat count) (drop (Z.to_nat offset) data)) = count).
  { rewrite blen_take; [reflexivity |]. rewrite blen_drop by lia. lia. }
  fields. repeat split.
  - rewrite blen_appended, Hchunk by lia. lia.
  - unfold appended. rewrite Hchunk.
    destruct (Z.ltb_spec (blen (unfinishedMessageBuffer this)
                          - unfinishedMessageSize this) count); [reflexivity | lia].
Qed.

(** C6, at the input on which the code departs from it: the valid message
    [0,0,0,4] of extractor Int32BE, longer than a carry buffer created with
    two bytes, arrives as [0,0] and [0,4]; the buffer is reallocated to
    exactly the two carried plus the two appended bytes and holds the
    message, and no message is emitted. *)
Theorem header_only_message_grows_buffer_and_yields_nothing :
  valid_message HeaderExtractorInt32BE headerOnly
  /\ blen (unfinishedMessageBuffer (fresh 1 2)) < blen headerOnly
  /\ exists this1 this',
       feed HeaderExtractorInt32BE [Buf.from [0; 0]] (fresh 1 2)
         = Some ([true], this1, [])
       /\ blen (unfinishedMessageBuffer this1) = 2
       /\ unfinishedMessageSize this1 = 2
       /\ feed HeaderExtractorInt32BE [Buf.from [0; 4]] this1
          = Some ([true], this', [])
       /\ blen (unfinishedMessageBuffer this') = 2 + 2
       /\ unfinishedMessageBuffer this' = headerOnly
       /\ isFinished this' = false.
Proof.
  split; [vm_compute; repeat split; congruence |].
  split; [reflexivity |].
  eexists _, _. split; [vm_compute; reflexivity |].
  split; [reflexivity |]. split; [reflexivity |].
  split; [vm_compute; reflexivity |]. repeat split.
Qed.

(** The chunk of the refused header with everything behind the header cut
    off, or replaced, has the outcome of the whole chunk. *)
Example bytes_behind_refused_header_are_not_read :
  parseBytes HeaderExtractorInt32BE 2 rejectedMidChunk (fresh 1 8)
    = Some (Ok false, set_bShutdown true (fresh 1 8),
            [EmitMessage headerOnly; ReportInvalidSize 1])
  /\ parseBytes HeaderExtractorInt32BE 2 (take 8 rejectedMidChunk) (fresh 1 8)
     = parseBytes HeaderExtractorInt32BE 2 rejectedMidChunk (fresh 1 8)
  /\ parseBytes HeaderExtractorInt32BE 2
       (take 8 rejectedMidChunk ++ scenarioA) (fresh 1 8)
     = parseBytes HeaderExtractorInt32BE 2 rejectedMidChunk (fresh 1 8).
Proof. repeat split; vm_compute; reflexivity. Qed.


(** ** The standard extractors are well behaved *)

Lemma standard_extractors_well_behaved (name : standardName) :
  well_behaved (standardExtractor name).
Proof.
  split; [destruct name; reflexivity |]. split.
  - intros size Hval. destruct name; cbn in Hval |- *; lia.
  - intros header Hlen. exists (namedInteger name header).
    apply extract_named_integer.
    replace (widthOf name) with (headerByteCount (standardExtractor name))
      by (destruct name; reflexivity).
    lia.
Qed.

(** ** Consistent carry states *)

Lemma take_appended_le (buffer : Buffer) (size n : Z) (chunk : Buffer) :
  0 <= size <= blen buffer ->
  n <= size + blen chunk ->
  take (Z.to_nat n) (appended buffer size chunk)
    = take (Z.to_nat n) (take (Z.to_nat size) buffer ++ chunk).
Proof.
  intros Hsize Hn. rewrite <- (take_appended buffer size chunk Hsize).
  rewrite take_take. f_equal. pose proof (blen_nonneg chunk). lia.
Qed.

Lemma take_appended_carried (buffer : Buffer) (size n : Z) (chunk : Buffer) :
  0 <= size <= blen buffer ->
  n <= size ->
  take (Z.to_nat n) (appended buffer size chunk) = take (Z.to_nat n) buffer.
Proof.
  intros Hsize Hn. pose proof (blen_nonneg chunk).
  rewrite take_appended_le by lia.
  rewrite take_app_le by (rewrite length_take; unfold blen in *; lia).
  rewrite take_take. f_equal. lia.
Qed.

Lemma blen_rest (bytes : Buffer) (offset : Z) :
  0 <= offset <= blen bytes ->
  blen (drop (Z.to_nat offset) bytes) = blen bytes - offset.
Proof. intros Hoff. rewrite blen_drop by lia. lia. Qed.

Lemma carried_carry (buffer : Buffer) (size expected : Z) (extracted : bool)
    (this : BinaryMessageParser) :
  carried (carry buffer size expected extracted this)
    = take (Z.to_nat size) buffer.
Proof. reflexivity. Qed.

Lemma blen_carried (E : HeaderExtractor) (this : BinaryMessageParser) :
  consistent E this -> blen (carried this) = unfinishedMessageSize this.
Proof. intros (Hrange & _). unfold carried. now apply blen_take. Qed.

Ltac five := refine (conj _ (conj _ (conj _ (conj _ _)))).

Ltac grow :=
  split;
  [ lia
  | let limit := fresh "limit" in
    let Hlimit := fresh "Hlimit" in
    let Hbound := fresh "Hbound" in
    intros limit Hlimit Hbound;
    repeat match goal with
           | Hs : extractMessageSize _ _ = Ok ?s,
             Hv : validateMessageSize _ ?s = true |- _ =>
               pose proof (Hbound _ _ Hs Hv); clear Hv
           end;
    lia ].

Lemma bounded_growth_refl (E : HeaderExtractor) (buffer : Buffer) :
  bounded_growth E buffer buffer.
Proof. split; [lia |]. intros. lia. Qed.

Lemma bounded_growth_trans (E : HeaderExtractor) (b1 b2 b3 : Buffer) :
  bounded_growth E b1 b2 -> bounded_growth E b2 b3 -> bounded_growth E b1 b3.
Proof.
  intros (Hle & Hup) (Hle' & Hup'). split; [lia |].
  intros limit Hlimit Hbound.
  specialize (Hup limit Hlimit Hbound). specialize (Hup' limit Hlimit Hbound).
  lia.
Qed.

Section Consistency.

Variable E : HeaderExtractor.
Hypothesis E_well_behaved : well_behaved E.

(** One iteration on a consistent state: it does not throw; either it goes
    on, with a consistent state, the bytes it took from the chunk accounted
    for and any message it scheduled valid, or it refuses the size of the
    header at the front of what is carried and what the chunk brings. *)
Lemma step_consistent (bytes : Buffer) (offset : Z) (this : BinaryMessageParser) :
  consistent E this ->
  0 <= offset < blen bytes ->
  (exists n this1 messages,
     step E bytes offset this = (Ok n, this1, map EmitMessage messages)
     /\ 0 <= n <= blen bytes - offset
     /\ consistent E this1
     /\ bounded_growth E (unfinishedMessageBuffer this) (unfinishedMessageBuffer this1)
     /\ Forall (valid_message E) messages
     /\ carried this ++ take (Z.to_nat n) (drop (Z.to_nat offset) bytes)
        = concat messages ++ carried this1)
  \/ (exists this1 report size,
        step E bytes offset this = (Ok (-1), this1, [report])
        /\ runImmediate report this1
           = (set_lastError (Some ERR_INVALID_MSG_SIZE) this1,
              OnError ERR_INVALID_MSG_SIZE size)
        /\ bounded_growth E (unfinishedMessageBuffer this) (unfinishedMessageBuffer this1)
        /\ headerByteCount E <= blen (carried this) + (blen bytes - offset)
        /\ extractMessageSize E
             (take (Z.to_nat (headerByteCount E))
                (carried this ++ drop (Z.to_nat offset) bytes)) = Ok size
        /\ validateMessageSize E size = false).
Proof.
  destruct E_well_behaved as (Hhbc & Hge & Htotal).
  intros Hcons Hoff. pose proof (blen_carried E this Hcons) as Hcarried.
  destruct Hcons as (Hrange & Hstage).
  set (rest := drop (Z.to_nat offset) bytes).
  assert (Hrest : blen rest = blen bytes - offset) by (apply blen_rest; lia).
  set (buf := unfinishedMessageBuffer this) in *.
  set (u := unfinishedMessageSize this) in *.
  unfold step.
  destruct (isFinished this) eqn:Hfin.
  - (* nothing in progress *)
    apply isFinished_true in Hfin. fold u in Hfin.
    assert (Hnone : carried this = []) by (unfold carried; fold u; now rewrite Hfin).
    rewrite Hnone. cbn [app].
    destruct (Z.lt_ge_cases (blen bytes - offset) (headerByteCount E))
      as [Hshort | Hfull].
    + rewrite start_short by (assumption || lia). fold rest buf.
      left. eexists (blen bytes - offset), _, []. split; [reflexivity |].
      rewrite carried_carry. fields.
      assert (Hlen : blen (appended buf 0 rest) = Z.max (blen buf) (blen rest))
        by (rewrite blen_appended by lia; lia).
      five; [lia | | grow | constructor |].
      * unfold consistent. fields. split; [lia |]. right. left. repeat split; lia.
      * rewrite <- Hrest, take_blen.
        rewrite <- (Z.add_0_l (blen rest)), take_appended by lia. reflexivity.
    + assert (Hslice : Buf.slice bytes offset (offset + headerByteCount E)
                       = take (Z.to_nat (headerByteCount E)) rest).
      { rewrite slice_in_range by lia. f_equal. f_equal. lia. }
      destruct (Htotal (take (Z.to_nat (headerByteCount E)) rest))
        as [size Hsize]; [apply blen_take; lia |].
      destruct (validateMessageSize E size) eqn:Hval.
      2: { right. eexists this, (ReportInvalidSize size), size.
           rewrite (start_reject E bytes offset size)
             by (rewrite ?Hslice; (assumption || lia)).
           change (blen []) with 0. fold buf.
           split; [reflexivity |]. split; [reflexivity |].
           split; [apply bounded_growth_refl |].
           repeat split; (assumption || lia). }
      pose proof (Hge size Hval) as Hsize_ge.
      destruct (Z.le_gt_cases size (blen bytes - offset)) as [Hfit | Hmore].
      * rewrite (start_complete E bytes offset size)
          by (rewrite ?Hslice; (assumption || lia)).
        fold rest buf. left.
        eexists size, _, [take (Z.to_nat size) rest]. split; [reflexivity |].
        rewrite carried_carry. fields. five; [lia | | grow | |].
        -- unfold consistent. fields. split; [lia |]. now left.
        -- constructor; [| constructor]. unfold valid_message.
           rewrite blen_take by lia. repeat split; [lia | | exact Hval].
           rewrite take_take.
           replace (Z.to_nat (headerByteCount E) `min` Z.to_nat size)%nat
             with (Z.to_nat (headerByteCount E)) by lia.
           exact Hsize.
        -- cbn [concat]. now rewrite !app_nil_r.
      * rewrite (start_partial E bytes offset size)
          by (rewrite ?Hslice; (assumption || lia)).
        fold rest buf. left. eexists (blen bytes - offset), _, [].
        split; [reflexivity |]. rewrite carried_carry. fields.
        assert (Hlen : blen (appended buf 0 rest) = Z.max (blen buf) (blen rest))
          by (rewrite blen_appended by lia; lia).
        five; [lia | | grow | constructor |].
        -- unfold consistent. fields. split; [lia |]. right. right.
           repeat split; try lia; [| exact Hval].
           rewrite take_appended_le by lia. cbn [take app Z.to_nat]. exact Hsize.
        -- rewrite <- Hrest, take_blen.
           rewrite <- (Z.add_0_l (blen rest)), take_appended by lia. reflexivity.
  - (* a message in progress *)
    apply isFinished_false in Hfin. fold u in Hfin.
    destruct Hstage as [Hzero | [(Hx & Hexp & Hpart) | (Hx & Hlow & Hhigh & Hsize & Hval & Hstrict)]];
      [contradiction | |].
    + (* its header is incomplete *)
      destruct (Z.lt_ge_cases (blen bytes - offset) (headerByteCount E - u))
        as [Hshort | Hall].
      * rewrite continue_more by (fold u buf; lia). fold rest buf u.
        left. eexists (blen bytes - offset), _, []. split; [reflexivity |].
        rewrite carried_carry. fields.
        assert (Hlen : blen (appended buf u rest) = Z.max (blen buf) (u + blen rest))
          by (now rewrite blen_appended by lia).
        five; [lia | | grow | constructor |].
        -- unfold consistent. fields. split; [lia |]. right. left.
           repeat split; (assumption || lia).
        -- rewrite <- Hrest, take_blen. unfold carried. fold u buf.
           rewrite take_appended by lia. reflexivity.
      * set (missing := headerByteCount E - u).
        assert (Hmissing : expectedMessageSize this - u = missing) by (unfold missing; lia).
        set (c1 := take (Z.to_nat missing) rest).
        assert (Hc1 : blen c1 = missing) by (apply blen_take; unfold missing; lia).
        set (buffer := appended buf u c1).
        assert (Hhead : take (Z.to_nat (headerByteCount E)) buffer = carried this ++ c1).
        { unfold buffer, carried. fold u buf.
          replace (headerByteCount E) with (u + blen c1) by (unfold missing in Hc1; lia).
          now apply take_appended. }
        destruct (Htotal (carried this ++ c1)) as [size Hsize];
          [rewrite blen_app; unfold missing in Hc1; lia |].
        assert (Hextract : extractMessageSize E
                  (Buf.slice buffer 0 (0 + headerByteCount E)) = Ok size).
        { rewrite slice_in_range;
            [| lia | lia
             | unfold buffer; rewrite blen_appended by lia; unfold missing in Hc1; lia].
          change (Z.to_nat 0) with 0%nat. rewrite drop_0, Z.add_0_l, Z.sub_0_r.
          now rewrite Hhead. }
        rewrite (continue_header E bytes offset size);
          [ | assumption | fold u buf; lia | lia | fold u; lia
            | fold u buf rest; rewrite Hmissing; fold c1 buffer; exact Hextract ].
        fold u buf rest. rewrite Hmissing. fold c1 buffer.
        destruct (validateMessageSize E size) eqn:Hval.
        -- left. eexists missing, _, []. split; [reflexivity |].
           rewrite carried_carry. fields. rewrite Hexp.
           pose proof (Hge size Hval) as Hsize_ge.
           assert (Hlen : blen buffer = Z.max (blen buf) (u + blen c1))
             by (unfold buffer; now rewrite blen_appended by lia).
           unfold missing in Hc1.
           five; [unfold missing; lia | | unfold missing in *; grow | constructor |].
           ++ unfold consistent. fields. split; [lia |]. right. right.
              repeat split; try lia; [now rewrite Hhead | exact Hval].
           ++ fold c1. now rewrite Hhead.
        -- right. eexists _, ReportInvalidExpectedSize, size.
           split; [reflexivity |]. split; [reflexivity |].
           split; [fields; unfold buffer, bounded_growth;
                   rewrite blen_appended by lia; unfold missing in *; grow |].
           split; [unfold missing in *; lia |]. split; [| exact Hval].
           rewrite take_app_ge by (unfold carried; fold u buf;
                                   rewrite length_take; unfold blen in *; lia).
           replace (Z.to_nat (headerByteCount E) - length (carried this))%nat
             with (Z.to_nat missing)
             by (unfold blen in Hcarried; unfold missing; fold u in Hcarried; lia).
           fold c1. exact Hsize.
    + (* its size is known *)
      destruct (Z.lt_ge_cases (blen bytes - offset) (expectedMessageSize this - u))
        as [Hshort | Hall].
      * rewrite continue_more by (fold u buf; lia). fold rest buf u.
        left. eexists (blen bytes - offset), _, []. split; [reflexivity |].
        rewrite carried_carry. fields.
        assert (Hlen : blen (appended buf u rest) = Z.max (blen buf) (u + blen rest))
          by (now rewrite blen_appended by lia).
        five; [lia | | grow | constructor |].
        -- unfold consistent. fields. split; [lia |]. right. right.
           rewrite Hx. repeat split; try lia; [| exact Hval].
           rewrite take_appended_carried by lia. exact Hsize.
        -- rewrite <- Hrest, take_blen. unfold carried. fold u buf.
           rewrite take_appended by lia. reflexivity.
      * set (missing := expectedMessageSize this - u) in *.
        set (c1 := take (Z.to_nat missing) rest).
        assert (Hc1 : blen c1 = missing) by (apply blen_take; lia).
        rewrite continue_complete by (fold u buf; (assumption || lia)).
        fold u buf rest missing c1.
        set (buffer := appended buf u c1).
        assert (Hmsg : take (Z.to_nat (expectedMessageSize this)) buffer
                       = carried this ++ c1).
        { unfold buffer, carried. fold u buf.
          replace (expectedMessageSize this) with (u + blen c1) by (unfold missing in Hc1; lia).
          now apply take_appended. }
        left. eexists missing, _, [carried this ++ c1].
        rewrite Hmsg. split; [reflexivity |].
        rewrite carried_carry. fields.
        assert (Hlen : blen buffer = Z.max (blen buf) (u + blen c1))
          by (unfold buffer; now rewrite blen_appended by lia).
        five; [lia | | grow | |].
        -- unfold consistent. fields. split; [lia |]. now left.
        -- constructor; [| constructor]. unfold valid_message.
           rewrite blen_app, Hcarried, Hc1. fold u.
           replace (u + missing) with (expectedMessageSize this) by (unfold missing; lia).
           repeat split; [lia | | exact Hval].
           rewrite take_app_le by (unfold carried; fold u buf;
                                   rewrite length_take; unfold blen in *; lia).
           unfold carried. fold u buf. rewrite take_take.
           replace (Z.to_nat (headerByteCount E) `min` Z.to_nat u)%nat
             with (Z.to_nat (headerByteCount E)) by lia.
           exact Hsize.
        -- cbn [concat]. now rewrite !app_nil_r.
Qed.

End Consistency.

(** ** What a call leaves alone *)

Section Frame.

Variable E : HeaderExtractor.

Lemma step_frame (bytes : Buffer) (offset : Z) (this : BinaryMessageParser)
    r this1 q :
  step E bytes offset this = (r, this1, q) ->
  headerExtractor this1 = headerExtractor this
  /\ bShutdown this1 = bShutdown this
  /\ lastError this1 = lastError this.
Proof.
  intros Hstep. apply step_cases in Hstep.
  inversion Hstep; subst; repeat split.
Qed.

Lemma drain_frame (fuel : nat) :
  forall (bytes : Buffer) (offset : Z) (this : BinaryMessageParser) r this' q,
  drain E fuel bytes offset this = Some (r, this', q) ->
  headerExtractor this' = headerExtractor this
  /\ lastError this' = lastError this
  /\ bShutdown this'
     = match r with Ok false => true | _ => bShutdown this end.
Proof.
  induction fuel as [| fuel IH]; intros bytes offset this r this' q Hrun.
  - cbn [drain] in Hrun.
    destruct (Z.ltb_spec offset (blen bytes)); [discriminate |].
    injection Hrun as <- <- <-. repeat split.
  - destruct (Z.ltb_spec offset (blen bytes)) as [Hlt | Hge].
    2: { rewrite drain_end in Hrun by lia. injection Hrun as <- <- <-.
         repeat split. }
    rewrite drain_step in Hrun by lia. fold (step E bytes offset this) in Hrun.
    destruct (step E bytes offset this) as [[[n | e] this1] q1] eqn:Hstep;
      apply step_frame in Hstep as (Hx & Hsd & Herr).
    + destruct (Z.ltb_spec n 0) as [Hneg | Hpos].
      * injection Hrun as <- <- <-. fields. repeat split; assumption.
      * destruct (drain E fuel bytes (offset + n) this1)
          as [[[r2 this2] q2] |] eqn:Hrest; [| discriminate].
        injection Hrun as <- <- <-.
        apply IH in Hrest as (Hx2 & Herr2 & Hsd2).
        rewrite Hx2, Herr2, Hsd2, Hx, Herr, Hsd. repeat split.
    + injection Hrun as <- <- <-. repeat split; assumption.
Qed.

End Frame.

(** X1: the boolean [parseBytes] returns and [isShutdown] afterwards are each
    other's negation, for every extractor, parser state and chunk; and a call,
    also one that throws, changes neither the extractor reference nor
    [lastError], which only a deferred callback sets. *)
Theorem parseBytes_result_is_shutdown_state (E : HeaderExtractor)
    (fuel : nat) (bytes : Buffer) (this : BinaryMessageParser) r this' q :
  parseBytes E fuel bytes this = Some (r, this', q) ->
  headerExtractor this' = headerExtractor this
  /\ lastError this' = lastError this
  /\ match r with
     | Ok b => isShutdown this' = negb b
     | Throw _ => isShutdown this' = false
     end.
Proof.
  unfold parseBytes, isShutdown. destruct (bShutdown this) eqn:Hsd.
  - intros [= <- <- <-]. repeat split. exact Hsd.
  - intros Hrun. apply drain_frame in Hrun as (Hx & Herr & Hsd').
    split; [exact Hx |]. split; [exact Herr |].
    rewrite Hsd'. destruct r as [[|] | e]; cbn [negb]; congruence.
Qed.

Lemma parseBytes_result_is_shutdown_state_witness :
  headerExtractor afterScenarioC = headerExtractor (fresh 1 10240)
  /\ lastError afterScenarioC = lastError (fresh 1 10240)
  /\ isShutdown afterScenarioC = negb false.
Proof.
  apply (parseBytes_result_is_shutdown_state HeaderExtractorInt32BE
           (enough scenarioC) scenarioC (fresh 1 10240) (Ok false)
           afterScenarioC [ReportInvalidSize 1]).
  vm_compute. reflexivity.
Defined.

(** ** A call on a consistent state *)

Lemma runImmediate_shutdown (t : task) (b : bool) (this : BinaryMessageParser) :
  runImmediate t (set_bShutdown b this)
    = (set_bShutdown b (fst (runImmediate t this)), snd (runImmediate t this)).
Proof. destruct t; reflexivity. Qed.

Section Calls.

Variable E : HeaderExtractor.
Hypothesis E_well_behaved : well_behaved E.

Lemma accepted_sizes_positive (size : Z) :
  validateMessageSize E size = true -> 1 <= size.
Proof.
  destruct E_well_behaved as (Hhbc & Hge & _).
  intros Hval. apply Hge in Hval. lia.
Qed.

(** The loop on a consistent state, from any offset: it ends with [true] or
    [false] and does not throw.  With [true], the callbacks scheduled are
    messages, each valid, and what was carried followed by the rest of the
    chunk is those messages followed by what is carried afterwards.  With
    [false], the callbacks are messages followed by one error report, and
    behind the messages the stream goes on with a header whose size the
    validator refuses. *)
Lemma drain_consistent (fuel : nat) :
  forall (bytes : Buffer) (offset : Z) (this : BinaryMessageParser),
  measure bytes offset this < Z.of_nat fuel ->
  0 <= offset ->
  consistent E this ->
  exists (b : bool) this' messages,
    bounded_growth E (unfinishedMessageBuffer this) (unfinishedMessageBuffer this')
    /\ Forall (valid_message E) messages
    /\ if b then
         drain E fuel bytes offset this = Some (Ok true, this', map EmitMessage messages)
         /\ consistent E this'
         /\ carried this ++ drop (Z.to_nat offset) bytes
            = concat messages ++ carried this'
       else
         exists report tail size,
           drain E fuel bytes offset this
             = Some (Ok false, this', map EmitMessage messages ++ [report])
           /\ runImmediate report this'
              = (set_lastError (Some ERR_INVALID_MSG_SIZE) this',
                 OnError ERR_INVALID_MSG_SIZE size)
           /\ carried this ++ drop (Z.to_nat offset) bytes
              = concat messages ++ tail
           /\ headerByteCount E <= blen tail
           /\ extractMessageSize E (take (Z.to_nat (headerByteCount E)) tail)
              = Ok size
           /\ validateMessageSize E size = false.
Proof.
  induction fuel as [| fuel IH]; intros bytes offset this Hfuel Hoff Hcons.
  - destruct (Z.ltb_spec offset (blen bytes)) as [Hlt | Hge].
    + unfold measure in Hfuel. pose proof (phase_bounds this). lia.
    + exists true, this, []. split; [apply bounded_growth_refl |]. split; [constructor |].
      rewrite drain_end by lia. split; [reflexivity |]. split; [assumption |].
      rewrite drop_ge by (unfold blen in *; lia). now rewrite app_nil_r.
  - destruct (Z.ltb_spec offset (blen bytes)) as [Hlt | Hge].
    2: { exists true, this, []. split; [apply bounded_growth_refl |]. split; [constructor |].
         rewrite drain_end by lia. split; [reflexivity |]. split; [assumption |].
         rewrite drop_ge by (unfold blen in *; lia). now rewrite app_nil_r. }
    rewrite drain_step by lia. fold (step E bytes offset this).
    destruct (step_consistent E E_well_behaved bytes offset this Hcons)
      as [(n & this1 & ms & Hstep & Hn & Hcons1 & Hcap & Hms & Hbytes)
         | (this1 & report & size & Hstep & Hreport & Hcap & Hlen & Hsize & Hval)];
      [lia | |].
    + rewrite Hstep.
      destruct (Z.ltb_spec n 0) as [Hneg | _]; [lia |].
      pose proof (step_lowers_measure E accepted_sizes_positive
                    bytes offset this n this1 _ Hlt Hstep (proj1 Hn)) as Hdown.
      destruct (IH bytes (offset + n) this1) as (b & this' & ms' & Hcap' & Hms' & Hrest);
        [lia | lia | assumption |].
      assert (Hsplit : drop (Z.to_nat offset) bytes
                = take (Z.to_nat n) (drop (Z.to_nat offset) bytes)
                  ++ drop (Z.to_nat (offset + n)) bytes).
      { rewrite <- (take_drop (Z.to_nat n) (drop (Z.to_nat offset) bytes)) at 1.
        rewrite drop_drop. do 2 f_equal. lia. }
      exists b, this', (ms ++ ms'). split; [now apply bounded_growth_trans with (2 := Hcap') |].
      split; [now apply Forall_app |].
      destruct b.
      * destruct Hrest as (Hrun & Hcons' & Hbytes').
        rewrite Hrun, map_app. split; [reflexivity |]. split; [assumption |].
        rewrite Hsplit, app_assoc, Hbytes, <- app_assoc, Hbytes', concat_app.
        now rewrite app_assoc.
      * destruct Hrest as (report & tail & size & Hrun & Hreport & Hbytes' & Htail).
        exists report, tail, size. rewrite Hrun, map_app, app_assoc.
        split; [reflexivity |]. split; [assumption |]. split; [| exact Htail].
        rewrite Hsplit, app_assoc, Hbytes, <- app_assoc, Hbytes', concat_app.
        now rewrite app_assoc.
    + rewrite Hstep. cbn [Z.ltb Z.compare].
      exists false, (set_bShutdown true this1), [].
      split; [exact Hcap |]. split; [constructor |].
      exists report, (carried this ++ drop (Z.to_nat offset) bytes), size.
      split; [reflexivity |].
      split; [rewrite runImmediate_shutdown, Hreport; reflexivity |].
      split; [reflexivity |]. split; [| split; assumption].
      rewrite blen_app, blen_rest by lia. lia.
Qed.

End Calls.

(** ** One call, then many *)

Lemma idle_is_consistent (E : HeaderExtractor) (this : BinaryMessageParser) :
  isFinished this = true -> consistent E this.
Proof.
  intros Hidle. apply isFinished_true in Hidle. unfold consistent.
  rewrite Hidle. pose proof (blen_nonneg (unfinishedMessageBuffer this)).
  split; [lia | now left].
Qed.

Lemma runImmediates_report (messages : list Buffer) (report : task)
    (this : BinaryMessageParser) (size : Z) :
  runImmediate report this
    = (set_lastError (Some ERR_INVALID_MSG_SIZE) this,
       OnError ERR_INVALID_MSG_SIZE size) ->
  runImmediates (map EmitMessage messages ++ [report]) this
    = (set_lastError (Some ERR_INVALID_MSG_SIZE) this,
       map OnMessage messages ++ [OnError ERR_INVALID_MSG_SIZE size]).
Proof.
  intros Hreport. rewrite runImmediates_app, runImmediates_messages.
  cbn [runImmediates]. rewrite Hreport. reflexivity.
Qed.



(** ** A sequence of calls *)

Section Feeds.

Variable E : HeaderExtractor.
Hypothesis E_well_behaved : well_behaved E.

Lemma feed_shutdown (chunks : list Buffer) (this : BinaryMessageParser) :
  isShutdown this = true ->
  feed E chunks this = Some (map (fun _ => false) chunks, this, []).
Proof.
  intros Hdown. induction chunks as [| c chunks IH]; cbn [feed map];
    [reflexivity |].
  rewrite parseBytes_shutdown, IH by assumption. reflexivity.
Qed.

Lemma take_front (n : Z) (front back : Buffer) :
  n <= blen front ->
  take (Z.to_nat n) (front ++ back) = take (Z.to_nat n) front.
Proof. intros Hn. apply take_app_le. unfold blen in Hn. lia. Qed.

(** Calls one after the other on a consistent parser that is not shut down:
    either every call returns [true], or the calls return [true] up to one
    that returns [false], and [false] from then on; the callbacks are the
    messages framed so far, followed in the second case by one error
    report. *)
Lemma feed_consistent (chunks : list Buffer) :
  forall this : BinaryMessageParser,
  consistent E this ->
  isShutdown this = false ->
  exists this' messages,
    Forall (valid_message E) messages
    /\ bounded_growth E (unfinishedMessageBuffer this) (unfinishedMessageBuffer this')
    /\ ((feed E chunks this
           = Some (map (fun _ => true) chunks, this', map EmitMessage messages)
         /\ consistent E this'
         /\ isShutdown this' = false
         /\ carried this ++ concat chunks = concat messages ++ carried this')
        \/ (exists before later report tail size,
              chunks = before ++ later
              /\ later <> []
              /\ feed E chunks this
                 = Some (map (fun _ => true) before ++ map (fun _ => false) later,
                         this', map EmitMessage messages ++ [report])
              /\ isShutdown this' = true
              /\ carried this ++ concat chunks = concat messages ++ tail
              /\ headerByteCount E <= blen tail
              /\ extractMessageSize E (take (Z.to_nat (headerByteCount E)) tail)
                 = Ok size
              /\ validateMessageSize E size = false
              /\ runImmediate report this'
                 = (set_lastError (Some ERR_INVALID_MSG_SIZE) this',
                    OnError ERR_INVALID_MSG_SIZE size))).
Proof.
  induction chunks as [| c chunks IH]; intros this Hcons Hup.
  - exists this, []. split; [constructor |]. split; [apply bounded_growth_refl |]. left.
    cbn [feed map concat app]. rewrite app_nil_r.
    split; [reflexivity |]. split; [assumption |]. split; [assumption |].
    reflexivity.
  - cbn [feed]. unfold parseBytes. rewrite Hup.
    destruct (drain_consistent E E_well_behaved (enough c) c 0 this)
      as (b & this1 & ms & Hcap & Hms & Hcall);
      [unfold measure, enough, blen in *; pose proof (phase_bounds this); lia
      | lia | assumption |].
    change (Z.to_nat 0) with 0%nat in Hcall. rewrite drop_0 in Hcall.
    destruct b.
    + destruct Hcall as (Hrun & Hcons1 & Hbytes).
      pose proof (drain_frame E _ _ _ _ _ _ _ Hrun) as (_ & _ & Hsd).
      unfold isShutdown in Hup. rewrite Hup in Hsd.
      destruct (IH this1 Hcons1 Hsd) as (this' & ms' & Hms' & Hcap' & Hrest).
      exists this', (ms ++ ms'). split; [now apply Forall_app |].
      split; [now apply bounded_growth_trans with (2 := Hcap') |]. rewrite Hrun.
      destruct Hrest as [(Hfeed & Hcons' & Hup' & Hbytes')
                        | (before & later & report & tail & size & Hchunks
                           & Hlater & Hfeed & Hdown & Hbytes' & Htail)].
      * left. rewrite Hfeed, map_app. cbn [map concat].
        split; [reflexivity |]. split; [assumption |]. split; [assumption |].
        rewrite app_assoc, Hbytes, <- app_assoc, Hbytes', concat_app.
        now rewrite app_assoc.
      * right. exists (c :: before), later, report, tail, size.
        split; [now rewrite Hchunks |]. split; [assumption |].
        rewrite Hfeed, map_app, <- app_assoc. cbn [map app concat].
        split; [reflexivity |]. split; [assumption |].
        split.
        { rewrite app_assoc, Hbytes, <- app_assoc, Hbytes', concat_app.
          now rewrite app_assoc. }
        destruct Htail as (Hlen & Hsize & Hval & Hnotes).
        repeat split; assumption.
    + destruct Hcall as (report & tail & size & Hrun & Hreport & Hbytes
                         & Hlen & Hsize & Hval).
      pose proof (drain_frame E _ _ _ _ _ _ _ Hrun) as (_ & _ & Hsd).
      exists this1, ms. split; [assumption |]. split; [assumption |].
      right. exists [], (c :: chunks), report, (tail ++ concat chunks), size.
      split; [reflexivity |]. split; [discriminate |].
      rewrite Hrun, feed_shutdown by exact Hsd. rewrite app_nil_r.
      cbn [map app concat].
      split; [reflexivity |]. split; [exact Hsd |].
      split; [now rewrite app_assoc, Hbytes, <- app_assoc |].
      split; [rewrite blen_app; pose proof (blen_nonneg (concat chunks)); lia |].
      split; [now rewrite take_front |]. split; assumption.
Qed.

(** *** Framing is unique *)

Lemma valid_message_nonempty (M : Buffer) :
  valid_message E M -> 0 < blen M.
Proof.
  destruct E_well_behaved as (Hhbc & _). intros (Hlen & _). lia.
Qed.

Lemma concat_valid_nil (Ms : list Buffer) :
  Forall (valid_message E) Ms -> concat Ms = [] -> Ms = [].
Proof.
  intros HMs Hnil. destruct HMs as [| M Ms HM _]; [reflexivity |].
  apply valid_message_nonempty in HM. cbn [concat] in Hnil.
  apply (f_equal blen) in Hnil. rewrite blen_app in Hnil.
  change (blen []) with 0 in Hnil. pose proof (blen_nonneg (concat Ms)). lia.
Qed.

(** Two valid messages at the front of the same bytes are the same. *)
Lemma valid_front_unique (m M x y : Buffer) :
  valid_message E m -> valid_message E M ->
  m ++ x = M ++ y -> m = M /\ x = y.
Proof.
  intros (Hlen & Hsize & _) (HLen & HSize & _) Heq.
  assert (Hhead : take (Z.to_nat (headerByteCount E)) m
                  = take (Z.to_nat (headerByteCount E)) M).
  { rewrite <- (take_front _ m x), <- (take_front _ M y) by assumption.
    now rewrite Heq. }
  rewrite Hhead, HSize in Hsize. injection Hsize as Hsame.
  assert (Hm : m = M).
  { rewrite <- (take_blen_app m x), <- (take_blen_app M y).
    rewrite Heq. do 2 f_equal. exact (eq_sym Hsame). }
  split; [exact Hm |]. subst m. now apply app_inv_head in Heq.
Qed.

(** A valid message is not at the front of bytes that begin with a header
    of refused size. *)
Lemma valid_front_not_refused (m x after : Buffer) (size : Z) :
  valid_message E m ->
  headerByteCount E <= blen after ->
  extractMessageSize E (take (Z.to_nat (headerByteCount E)) after) = Ok size ->
  validateMessageSize E size = false ->
  m ++ x <> after.
Proof.
  intros (Hlen & Hsize & Hval) Hafter Hbad Hrefused Heq.
  rewrite <- Heq, take_front, Hsize in Hbad by assumption.
  injection Hbad as <-. congruence.
Qed.

Lemma frames_prefix (messages : list Buffer) :
  forall (Ms : list Buffer) (tail after : Buffer),
  Forall (valid_message E) messages ->
  Forall (valid_message E) Ms ->
  ends_or_refused E after ->
  concat messages ++ tail = concat Ms ++ after ->
  exists rest, Ms = messages ++ rest /\ tail = concat rest ++ after.
Proof.
  induction messages as [| m messages IH]; intros Ms tail after Hms HMs Hafter Heq.
  - exists Ms. split; [reflexivity | exact Heq].
  - inversion Hms as [| ? ? Hm Hms']; subst.
    cbn [concat] in Heq. rewrite <- app_assoc in Heq.
    destruct HMs as [| M Ms HM HMs].
    + cbn [concat app] in Heq.
      destruct Hafter as [-> | (Hlen & size & Hsize & Hval)].
      * apply valid_message_nonempty in Hm. apply (f_equal blen) in Heq.
        rewrite blen_app in Heq. change (blen []) with 0 in Heq.
        pose proof (blen_nonneg (concat messages ++ tail)). lia.
      * now apply valid_front_not_refused with (size := size) in Heq.
    + cbn [concat] in Heq. rewrite <- app_assoc in Heq.
      apply valid_front_unique in Heq as [-> Heq]; [| assumption | assumption].
      destruct (IH Ms tail after Hms' HMs Hafter Heq) as (rest & -> & ->).
      exists rest. split; reflexivity.
Qed.

(** A consistent parser that carries a header has extracted its size. *)
Lemma consistent_header (this : BinaryMessageParser) :
  consistent E this ->
  headerByteCount E <= blen (carried this) ->
  extractMessageSize E (take (Z.to_nat (headerByteCount E)) (carried this))
    = Ok (expectedMessageSize this)
  /\ validateMessageSize E (expectedMessageSize this) = true
  /\ blen (carried this) <= expectedMessageSize this
  /\ (blen (carried this) < expectedMessageSize this
      \/ blen (carried this) = headerByteCount E).
Proof.
  destruct E_well_behaved as (Hhbc & _).
  intros Hcons Hlen. rewrite (blen_carried E this Hcons) in *.
  destruct Hcons as (Hrange & [Hzero | [(_ & _ & Hshort) | (_ & Hlow & Hhigh & Hsize & Hval & Hlast)]]);
    [lia | lia |].
  unfold carried. rewrite take_take.
  replace (Z.to_nat (headerByteCount E) `min` Z.to_nat (unfinishedMessageSize this))%nat
    with (Z.to_nat (headerByteCount E)) by lia.
  repeat split; assumption.
Qed.

End Feeds.

Lemma carried_idle (this : BinaryMessageParser) :
  isFinished this = true -> carried this = [].
Proof.
  intros Hidle. apply isFinished_true in Hidle. unfold carried.
  now rewrite Hidle.
Qed.

Lemma blen_zero (b : Buffer) : blen b = 0 -> b = [].
Proof.
  destruct b as [| x b]; [reflexivity |]. intros Hlen.
  assert (0 < blen (x :: b)) by (apply blen_pos; discriminate). lia.
Qed.



(** X4: for a well-behaved extractor, a stream of valid messages followed by
    a header whose size the validator refuses (and by anything after it), cut
    into chunks at any places and fed to a parser that has nothing in progress
    and is not shut down: the calls return [true] up to one call and [false]
    from that call on, the parser ends shut down, and what is notified is
    every message before the refused header, in order, then one error with
    the refused size, and nothing of what follows the header. *)
Theorem chunked_stream_stops_at_refused_header (E : HeaderExtractor)
    (Ms chunks : list Buffer) (after : Buffer) (size : Z)
    (this : BinaryMessageParser) :
  well_behaved E ->
  Forall (valid_message E) Ms ->
  headerByteCount E <= blen after ->
  extractMessageSize E (take (Z.to_nat (headerByteCount E)) after) = Ok size ->
  validateMessageSize E size = false ->
  concat chunks = concat Ms ++ after ->
  isFinished this = true ->
  isShutdown this = false ->
  exists this' before later report,
    chunks = before ++ later
    /\ later <> []
    /\ feed E chunks this
       = Some (map (fun _ => true) before ++ map (fun _ => false) later,
               this', map EmitMessage Ms ++ [report])
    /\ snd (runImmediates (map EmitMessage Ms ++ [report]) this')
       = map OnMessage Ms ++ [OnError ERR_INVALID_MSG_SIZE size]
    /\ lastError (fst (runImmediates (map EmitMessage Ms ++ [report]) this'))
       = Some ERR_INVALID_MSG_SIZE
    /\ isShutdown this' = true.
Proof.
  intros Hwb HMs Hlen Hsize Hval Hstream Hidle Hup.
  assert (Hafter : ends_or_refused E after) by (right; eauto).
  destruct (feed_consistent E Hwb chunks this (idle_is_consistent E this Hidle) Hup)
    as (this' & ms & Hms & _ & Hrun).
  rewrite (carried_idle this Hidle) in Hrun. cbn [app] in Hrun.
  rewrite Hstream in Hrun.
  pose proof (blen_nonneg after) as Hnn.
  destruct Hrun as [(Hfeed & Hcons & Hup' & Hbytes)
                   | (before & later & report & tail & size' & Hchunks & Hlater
                      & Hfeed & Hdown & Hbytes & Hlen' & Hsize' & Hval' & Hreport)].
  - exfalso. symmetry in Hbytes.
    destruct (frames_prefix E Hwb ms Ms (carried this') after Hms HMs Hafter Hbytes)
      as (rest & -> & Hcarried).
    apply Forall_app in HMs as (_ & HMrest).
    pose proof (blen_nonneg (concat rest)) as Hnn'.
    destruct (consistent_header E Hwb this' Hcons)
      as (Hexp & Hvalid & Hle & _);
      [rewrite Hcarried, blen_app; lia |].
    destruct HMrest as [| M rest HM Hrest].
    + cbn [concat app] in Hcarried. rewrite Hcarried, Hsize in Hexp.
      injection Hexp as Hexp. congruence.
    + cbn [concat] in Hcarried. rewrite <- app_assoc in Hcarried.
      pose proof HM as (HMlen & HMsize & _).
      rewrite Hcarried, take_front, HMsize in Hexp by assumption.
      injection Hexp as Hexp.
      rewrite Hcarried, !blen_app, <- Hexp in Hle.
      pose proof (blen_nonneg (concat rest)). destruct Hwb as (Hhbc & _). lia.
  - symmetry in Hbytes.
    destruct (frames_prefix E Hwb ms Ms tail after Hms HMs Hafter Hbytes)
      as (rest & -> & Htail).
    apply Forall_app in HMs as (_ & HMrest).
    destruct HMrest as [| M rest HM Hrest].
    2: { exfalso. cbn [concat] in Htail. rewrite <- app_assoc in Htail.
         now apply (valid_front_not_refused E M (concat rest ++ after) tail size'
                      HM Hlen' Hsize' Hval'). }
    cbn [concat app] in Htail. subst tail. rewrite Hsize in Hsize'.
    injection Hsize' as Hsame. subst size'. rewrite app_nil_r.
    exists this', before, later, report.
    rewrite (runImmediates_report ms report this' size Hreport).
    repeat split; assumption.
Qed.

Lemma chunked_stream_stops_at_refused_header_witness :
  exists this' before later report,
    rejectedInChunks = before ++ later
    /\ later <> []
    /\ feed HeaderExtractorInt32BE rejectedInChunks (fresh 1 4)
       = Some (map (fun _ => true) before ++ map (fun _ => false) later,
               this', map EmitMessage [headerOnly] ++ [report])
    /\ snd (runImmediates (map EmitMessage [headerOnly] ++ [report]) this')
       = map OnMessage [headerOnly] ++ [OnError ERR_INVALID_MSG_SIZE 1]
    /\ lastError
         (fst (runImmediates (map EmitMessage [headerOnly] ++ [report]) this'))
       = Some ERR_INVALID_MSG_SIZE
    /\ isShutdown this' = true.
Proof.
  apply (chunked_stream_stops_at_refused_header HeaderExtractorInt32BE
           [headerOnly] rejectedInChunks refusedTail 1 (fresh 1 4)).
  - apply (standard_extractors_well_behaved Int32BE).
  - repeat constructor; vm_compute; congruence.
  - vm_compute. congruence.
  - reflexivity.
  - reflexivity.
  - reflexivity.
  - reflexivity.
  - reflexivity.
Defined.

(** ** Range and errors of the standard extractors *)

Lemma namedInteger_range (name : standardName) (header : Buffer) :
  smallestOf name <= namedInteger name header <= largestOf name.
Proof.
  unfold namedInteger, smallestOf, largestOf, twosComplement.
  destruct name; cbn [widthOf isSigned isBigEndian].
  1, 2: destruct header as [| b0 rest].
  5, 6, 7, 8: destruct header as [| b0 [| b1 rest]].
  17, 18, 19, 20: destruct header as [| b0 [| b1 [| b2 [| b3 rest]]]].
  all: try pose proof (byteval_range b0) as H0.
  all: try pose proof (byteval_range b1) as H1.
  all: try pose proof (byteval_range b2) as H2.
  all: try pose proof (byteval_range b3) as H3.
  all: change (Z.to_nat 1) with 1%nat; change (Z.to_nat 2) with 2%nat;
    change (Z.to_nat 4) with 4%nat; digits.
  all: change (2 ^ (8 * 1 - 1)) with 128; change (2 ^ (8 * 1)) with 256;
    change (2 ^ (8 * 2 - 1)) with 32768; change (2 ^ (8 * 2)) with 65536;
    change (2 ^ (8 * 4 - 1)) with 2147483648;
    change (2 ^ (8 * 4)) with 4294967296.
  all: try match goal with
           | |- context [?u <? ?k] => destruct (Z.ltb_spec u k)
           end; lia.
Qed.

Lemma short_header_throws (name : standardName) (header : Buffer) :
  blen header < widthOf name ->
  extractMessageSize (standardExtractor name) header = Throw Buf.boundsError.
Proof.
  unfold blen. intros Hshort.
  destruct name; cbn [widthOf] in Hshort;
    destruct header as [| b0 [| b1 [| b2 [| b3 rest]]]];
    cbn [length] in Hshort; try lia; reflexivity.
Qed.

(** X5: what a standard extractor returns on any buffer: on fewer bytes than
    its width it throws the runtime's out-of-bounds [RangeError]; otherwise it
    returns an integer within the range of its type, so that a message of
    [HeaderExtractorInt8] has at most 127 bytes and one of
    [HeaderExtractorUInt16LE] at most 65535. *)
Theorem standard_extractor_result (name : standardName) (header : Buffer) :
  match extractMessageSize (standardExtractor name) header with
  | Ok size =>
      widthOf name <= blen header
      /\ smallestOf name <= size <= largestOf name
  | Throw e => blen header < widthOf name /\ e = Buf.boundsError
  end.
Proof.
  destruct (Z.lt_ge_cases (blen header) (widthOf name)) as [Hshort | Hlen].
  - rewrite short_header_throws by assumption. split; [assumption | reflexivity].
  - rewrite extract_named_integer by assumption.
    split; [assumption | apply namedInteger_range].
Qed.

Lemma standard_sizes_bounded (name : standardName) (header : Buffer) (size : Z) :
  extractMessageSize (standardExtractor name) header = Ok size ->
  size <= largestOf name.
Proof.
  intros Hsize.
  destruct (Z.lt_ge_cases (blen header) (widthOf name)) as [Hshort | Hlen].
  - rewrite short_header_throws in Hsize by assumption. discriminate.
  - rewrite extract_named_integer in Hsize by assumption.
    injection Hsize as <-. apply namedInteger_range.
Qed.

(** ** The buffer stays within the largest accepted size *)

(** X6: over any sequence of calls on a consistent parser, with a well-behaved
    extractor, the carry buffer never shrinks and never grows beyond the
    larger of its capacity at the start and a limit that bounds the header
    and every size the extractor returns and the validator accepts. *)
Theorem carry_buffer_stays_within_limit (E : HeaderExtractor)
    (chunks : list Buffer) (this : BinaryMessageParser) (limit : Z) :
  well_behaved E ->
  consistent E this ->
  isShutdown this = false ->
  headerByteCount E <= limit ->
  (forall header size,
     extractMessageSize E header = Ok size ->
     validateMessageSize E size = true -> size <= limit) ->
  exists rs this' q,
    feed E chunks this = Some (rs, this', q)
    /\ blen (unfinishedMessageBuffer this) <= blen (unfinishedMessageBuffer this')
    /\ blen (unfinishedMessageBuffer this')
       <= Z.max (blen (unfinishedMessageBuffer this)) limit.
Proof.
  intros Hwb Hcons Hup Hlimit Hbound.
  destruct (feed_consistent E Hwb chunks this Hcons Hup)
    as (this' & ms & _ & (Hle & Hgrow) & Hrun).
  specialize (Hgrow limit Hlimit Hbound).
  destruct Hrun as [(Hfeed & _)
                   | (before & later & report & tail & size & _ & _ & Hfeed & _)];
    rewrite Hfeed; eexists _, this', _; (split; [reflexivity | split; assumption]).
Qed.

Lemma carry_buffer_stays_within_limit_witness :
  exists rs this' q,
    feed HeaderExtractorInt8 smallChunks (fresh 1 2) = Some (rs, this', q)
    /\ blen (unfinishedMessageBuffer (fresh 1 2))
       <= blen (unfinishedMessageBuffer this')
    /\ blen (unfinishedMessageBuffer this')
       <= Z.max (blen (unfinishedMessageBuffer (fresh 1 2))) 127.
Proof.
  apply (carry_buffer_stays_within_limit HeaderExtractorInt8 smallChunks
           (fresh 1 2) 127).
  - apply (standard_extractors_well_behaved Int8).
  - apply idle_is_consistent. reflexivity.
  - reflexivity.
  - vm_compute. congruence.
  - intros header size Hsize _.
    apply (standard_sizes_bounded Int8 header size Hsize).
Defined.

(** ** A withheld message *)

Lemma appended_nothing (buffer : Buffer) (size : Z) :
  0 <= size <= blen buffer -> appended buffer size [] = buffer.
Proof.
  intros Hsize. unfold appended. change (blen []) with 0.
  destruct (Z.ltb_spec (blen buffer - size) 0); [lia |].
  rewrite Z.add_0_r. cbn [app]. apply take_drop.
Qed.

(** X7: a parser that holds a whole message (the header-only message that
    the call completing its header did not emit) emits it at the start of
    the next call that brings at least one byte, before it looks at that
    byte: the call is the call on the parser after [_reset], with the
    withheld message's callback put in front. *)
Theorem withheld_message_is_emitted_by_next_byte (E : HeaderExtractor)
    (fuel : nat) (bytes : Buffer) (this : BinaryMessageParser) :
  bMessageHeaderExtracted this = true ->
  0 < unfinishedMessageSize this <= blen (unfinishedMessageBuffer this) ->
  expectedMessageSize this = unfinishedMessageSize this ->
  isShutdown this = false ->
  bytes <> [] ->
  parseBytes E (S fuel) bytes this
    = match parseBytes E fuel bytes
              (carry (unfinishedMessageBuffer this) 0 0 false this) with
      | Some (r, this', q) => Some (r, this', EmitMessage (carried this) :: q)
      | None => None
      end.
Proof.
  intros Hx Hsize Hwhole Hup Hbytes. apply blen_pos in Hbytes.
  unfold parseBytes.
  change (isShutdown (carry (unfinishedMessageBuffer this) 0 0 false this))
    with (isShutdown this).
  rewrite Hup, drain_step by lia.
  replace (isFinished this) with false
    by (symmetry; apply isFinished_false; lia).
  rewrite continue_complete by (assumption || lia).
  rewrite Hwhole, Z.sub_diag. change (Z.to_nat 0) with 0%nat.
  rewrite take_0, appended_nothing by lia.
  cbn [Z.ltb Z.compare]. rewrite Z.add_0_r. fold (carried this).
  reflexivity.
Qed.

Lemma withheld_message_is_emitted_by_next_byte_witness :
  parseBytes HeaderExtractorInt32BE 9 scenarioA withholding
    = match parseBytes HeaderExtractorInt32BE 8 scenarioA
              (carry (unfinishedMessageBuffer withholding) 0 0 false withholding)
      with
      | Some (r, this', q) =>
          Some (r, this', EmitMessage (carried withholding) :: q)
      | None => None
      end.
Proof.
  apply (withheld_message_is_emitted_by_next_byte HeaderExtractorInt32BE 8
           scenarioA withholding).
  - reflexivity.
  - vm_compute. split; [reflexivity | congruence].
  - reflexivity.
  - reflexivity.
  - discriminate.
Defined.

(** ** The sink side *)

(** X8: [_write] on a consistent parser that is not shut down, with a
    well-behaved extractor and a sufficient budget.  It parses the chunk with
    [parseBytes], whose state and callbacks it leaves as they are.  When
    [parseBytes] returns [true] (the carried bytes and the chunk are messages
    and a rest that is carried on), [done] is called once, without an error.
    When it returns [false] (behind the messages comes a header whose size is
    refused), [done] is called twice, first with an error and then without;
    the error is the
    [lastError] the parser had before the call, or [Error('unknown error')]
    when it had none, because [lastError] is only assigned when the deferred
    callback runs.  Running the callbacks notifies the messages and the
    refused size and sets [lastError] to the invalid-size error, and every
    later [_write] calls [done] with that error and then again without. *)
Theorem write_reports_the_error_known_before (E : HeaderExtractor)
    (fuel : nat) (chunk : Buffer) (this : BinaryMessageParser) :
  well_behaved E ->
  consistent E this ->
  isShutdown this = false ->
  (enough chunk <= fuel)%nat ->
  exists (b : bool) this' q,
    parseBytes E fuel chunk this = Some (Ok b, this', q)
    /\ _write E fuel chunk this
       = Some (Ok (if b then [None]
                   else [Some (default (PlainError "unknown error")
                                 (lastError this));
                         None]),
               this', q)
    /\ if b then
         isShutdown this' = false
         /\ exists messages,
              q = map EmitMessage messages
              /\ carried this ++ chunk = concat messages ++ carried this'
       else
         isShutdown this' = true
         /\ (exists messages tail size,
               carried this ++ chunk = concat messages ++ tail
               /\ extractMessageSize E
                    (take (Z.to_nat (headerByteCount E)) tail) = Ok size
               /\ validateMessageSize E size = false
               /\ runImmediates q this'
                  = (set_lastError (Some ERR_INVALID_MSG_SIZE) this',
                     map OnMessage messages
                       ++ [OnError ERR_INVALID_MSG_SIZE size]))
         /\ forall fuel' chunk',
              _write E fuel' chunk'
                (set_lastError (Some ERR_INVALID_MSG_SIZE) this')
                = Some (Ok [Some ERR_INVALID_MSG_SIZE; None],
                        set_lastError (Some ERR_INVALID_MSG_SIZE) this', []).
Proof.
  intros Hwb Hcons Hup Hfuel. unfold _write at 1, parseBytes. rewrite Hup.
  destruct (drain_consistent E Hwb fuel chunk 0 this)
    as (b & this' & ms & _ & _ & Hrest);
    [unfold measure, enough, blen in *; pose proof (phase_bounds this); lia
    | lia | assumption |].
  change (Z.to_nat 0) with 0%nat in Hrest. rewrite drop_0 in Hrest.
  destruct b.
  - destruct Hrest as (Hrun & _ & Hbytes).
    pose proof (drain_frame E _ _ _ _ _ _ _ Hrun) as (_ & _ & Hsd).
    rewrite Hrun. eexists true, this', _. split; [reflexivity |].
    split; [reflexivity |]. split; [| now exists ms].
    unfold isShutdown in *. congruence.
  - destruct Hrest as (report & tail & size & Hrun & Hreport & Hbytes & _
                       & Hsize & Hval).
    pose proof (drain_frame E _ _ _ _ _ _ _ Hrun) as (_ & Herr & Hsd).
    rewrite Hrun, Herr. eexists false, this', _. split; [reflexivity |].
    split; [reflexivity |]. split; [exact Hsd |]. split.
    + exists ms, tail, size. split; [exact Hbytes |]. split; [exact Hsize |].
      split; [exact Hval |]. now apply runImmediates_report.
    + intros fuel' chunk'. unfold _write.
      rewrite parseBytes_shutdown by exact Hsd. reflexivity.
Qed.

Lemma write_reports_the_error_known_before_witness :
  exists (b : bool) this' q,
    parseBytes HeaderExtractorInt32BE 40 rejectedMidChunk (fresh 1 16)
      = Some (Ok b, this', q)
    /\ _write HeaderExtractorInt32BE 40 rejectedMidChunk (fresh 1 16)
       = Some (Ok (if b then [None]
                   else [Some (default (PlainError "unknown error")
                                 (lastError (fresh 1 16)));
                         None]),
               this', q)
    /\ if b then
         isShutdown this' = false
         /\ exists messages,
              q = map EmitMessage messages
              /\ carried (fresh 1 16) ++ rejectedMidChunk
                 = concat messages ++ carried this'
       else
         isShutdown this' = true
         /\ (exists messages tail size,
               carried (fresh 1 16) ++ rejectedMidChunk = concat messages ++ tail
               /\ extractMessageSize HeaderExtractorInt32BE
                    (take (Z.to_nat (headerByteCount HeaderExtractorInt32BE)) tail)
                  = Ok size
               /\ validateMessageSize HeaderExtractorInt32BE size = false
               /\ runImmediates q this'
                  = (set_lastError (Some ERR_INVALID_MSG_SIZE) this',
                     map OnMessage messages
                       ++ [OnError ERR_INVALID_MSG_SIZE size]))
         /\ forall fuel' chunk',
              _write HeaderExtractorInt32BE fuel' chunk'
                (set_lastError (Some ERR_INVALID_MSG_SIZE) this')
                = Some (Ok [Some ERR_INVALID_MSG_SIZE; None],
                        set_lastError (Some ERR_INVALID_MSG_SIZE) this', []).
Proof.
  apply (write_reports_the_error_known_before HeaderExtractorInt32BE 40
           rejectedMidChunk (fresh 1 16)).
  - apply (standard_extractors_well_behaved Int32BE).
  - apply idle_is_consistent. reflexivity.
  - reflexivity.
  - vm_compute. lia.
Defined.

(** The first failing [_write] of the refusal test: [done] receives
    [Error('unknown error')] and is called again; the invalid-size error
    reaches [done] only from the next [_write] on. *)
Example first_failing_write_reports_unknown_error :
  _write HeaderExtractorInt32BE 40 rejectedMidChunk (fresh 1 16)
    = Some (Ok [Some (PlainError "unknown error"); None],
            set_bShutdown true (fresh 1 16),
            [EmitMessage headerOnly; ReportInvalidSize 1])
  /\ _write HeaderExtractorInt32BE 40 scenarioA
       (fst (runImmediates [EmitMessage headerOnly; ReportInvalidSize 1]
               (set_bShutdown true (fresh 1 16))))
     = Some (Ok [Some ERR_INVALID_MSG_SIZE; None],
             fst (runImmediates [EmitMessage headerOnly; ReportInvalidSize 1]
                    (set_bShutdown true (fresh 1 16))),
             []).
Proof. split; vm_compute; reflexivity. Qed.

(** ** An extractor that throws *)

Section Throwing.

Variable E : HeaderExtractor.

Lemma start_throws (data : Buffer) (offset : Z) (e : error)
    (this : BinaryMessageParser) :
  headerByteCount E <= blen data - offset ->
  extractMessageSize E (Buf.slice data offset (offset + headerByteCount E))
    = Throw e ->
  _startNewMessage E data offset this = (Throw e, this, []).
Proof.
  intros Hhdr Hthrow. unfold _startNewMessage.
  destruct (Z.ltb_spec (blen data - offset) (headerByteCount E)); [lia |].
  unfold bind. rewrite extract_run, Hthrow. reflexivity.
Qed.

Lemma continue_header_throws (data : Buffer) (offset : Z) (e : error)
    (this : BinaryMessageParser) :
  bMessageHeaderExtracted this = false ->
  0 <= unfinishedMessageSize this <= blen (unfinishedMessageBuffer this) ->
  0 <= offset ->
  0 <= expectedMessageSize this - unfinishedMessageSize this <= blen data - offset ->
  let missing := expectedMessageSize this - unfinishedMessageSize this in
  let buffer :=
    appended (unfinishedMessageBuffer this) (unfinishedMessageSize this)
      (take (Z.to_nat missing) (drop (Z.to_nat offset) data)) in
  extractMessageSize E (Buf.slice buffer 0 (0 + headerByteCount E)) = Throw e ->
  _continueUnfinishedMessage E data offset this =
    (Throw e,
     carry buffer (expectedMessageSize this) (expectedMessageSize this) false this,
     []).
Proof.
  intros Hhdr Hsize Hoff Hmiss missing buffer Hthrow.
  unfold _continueUnfinishedMessage, bind at 1, get.
  destruct (Z.ltb_spec (blen data - offset)
              (expectedMessageSize this - unfinishedMessageSize this)); [lia |].
  unfold bind at 1. rewrite append_run by lia.
  unfold bind at 1, get. fields. rewrite Hhdr.
  unfold bind at 1. rewrite extract_run.
  fold missing. fold buffer. rewrite Hthrow.
  replace (unfinishedMessageSize this + missing)
    with (expectedMessageSize this) by (subst missing; lia).
  reflexivity.
Qed.

End Throwing.

(** X9: an extractor that throws on a header that arrived in pieces.  The
    call that completes the header throws the extractor's error and does not
    shut the parser down; it leaves the complete header in the carry buffer
    with its size not extracted.  From then on every call with a non-empty
    chunk extracts from that same header again before it reads the chunk:
    it throws the same error, takes no byte, and changes nothing. *)
Theorem throwing_extractor_wedges_the_parser (E : HeaderExtractor)
    (bytes : Buffer) (e : error) (this : BinaryMessageParser) :
  bMessageHeaderExtracted this = false ->
  0 < unfinishedMessageSize this <= blen (unfinishedMessageBuffer this) ->
  unfinishedMessageSize this < headerByteCount E ->
  expectedMessageSize this = headerByteCount E ->
  isShutdown this = false ->
  headerByteCount E - unfinishedMessageSize this <= blen bytes ->
  extractMessageSize E
    (carried this
       ++ take (Z.to_nat (headerByteCount E - unfinishedMessageSize this)) bytes)
    = Throw e ->
  exists this',
    (forall fuel, parseBytes E (S fuel) bytes this = Some (Throw e, this', []))
    /\ isShutdown this' = false
    /\ carried this'
       = carried this
           ++ take (Z.to_nat (headerByteCount E - unfinishedMessageSize this)) bytes
    /\ forall fuel chunk,
         chunk <> [] ->
         parseBytes E (S fuel) chunk this' = Some (Throw e, this', []).
Proof.
  intros Hx Hsize Hpart Hexp Hup Hall Hthrow.
  set (u := unfinishedMessageSize this) in *.
  set (buf := unfinishedMessageBuffer this) in *.
  set (c1 := take (Z.to_nat (headerByteCount E - u)) bytes) in *.
  assert (Hc1 : blen c1 = headerByteCount E - u) by (apply blen_take; lia).
  set (buffer := appended buf u c1).
  assert (Hlen : blen buffer = Z.max (blen buf) (headerByteCount E)).
  { unfold buffer. rewrite blen_appended by lia. f_equal. lia. }
  assert (Hhead : take (Z.to_nat (headerByteCount E)) buffer = carried this ++ c1).
  { unfold buffer, carried. fold u buf.
    replace (headerByteCount E) with (u + blen c1) by lia.
    apply take_appended. lia. }
  assert (Hslice : Buf.slice buffer 0 (0 + headerByteCount E) = carried this ++ c1).
  { rewrite slice_in_range by lia. change (Z.to_nat 0) with 0%nat.
    now rewrite drop_0, Z.add_0_l, Z.sub_0_r. }
  exists (carry buffer (headerByteCount E) (headerByteCount E) false this).
  split; [| split; [exact Hup | split; [rewrite carried_carry; exact Hhead |]]].
  - intros fuel. unfold parseBytes. rewrite Hup, drain_step by lia.
    replace (isFinished this) with false
      by (symmetry; apply isFinished_false; fold u; lia).
    rewrite (continue_header_throws E bytes 0 e);
      [ | assumption | fold u buf; lia | lia | fold u; lia
        | fold u buf; rewrite Hexp; change (Z.to_nat 0) with 0%nat;
          rewrite drop_0; fold c1 buffer; now rewrite Hslice ].
    fold u buf. rewrite Hexp. change (Z.to_nat 0) with 0%nat. rewrite drop_0.
    reflexivity.
  - intros fuel chunk Hchunk. apply blen_pos in Hchunk.
    unfold parseBytes.
    change (isShutdown (carry buffer (headerByteCount E) (headerByteCount E)
                          false this)) with (isShutdown this).
    rewrite Hup, drain_step by lia.
    change (isFinished (carry buffer (headerByteCount E) (headerByteCount E)
                          false this)) with (headerByteCount E =? 0).
    destruct (Z.eqb_spec (headerByteCount E) 0); [lia |].
    rewrite (continue_header_throws E chunk 0 e); fields;
      rewrite ?Z.sub_diag; change (Z.to_nat 0) with 0%nat;
      rewrite ?take_0, ?appended_nothing by lia;
      first [reflexivity | lia | now rewrite Hslice].
Qed.

Lemma throwing_extractor_wedges_the_parser_witness :
  exists this',
    (forall fuel,
       parseBytes misdeclared (S fuel) (Buf.from [7; 0; 0]) afterOneByte
         = Some (Throw Buf.boundsError, this', []))
    /\ isShutdown this' = false
    /\ carried this'
       = carried afterOneByte
           ++ take (Z.to_nat (headerByteCount misdeclared
                              - unfinishedMessageSize afterOneByte))
                (Buf.from [7; 0; 0])
    /\ forall fuel chunk,
         chunk <> [] ->
         parseBytes misdeclared (S fuel) chunk this'
           = Some (Throw Buf.boundsError, this', []).
Proof.
  apply (throwing_extractor_wedges_the_parser misdeclared (Buf.from [7; 0; 0])
           Buf.boundsError afterOneByte).
  - reflexivity.
  - vm_compute. split; [reflexivity | congruence].
  - reflexivity.
  - reflexivity.
  - reflexivity.
  - vm_compute. congruence.
  - reflexivity.
Defined.

(** ** Instances of the chunking theorems *)



Lemma reallocation_fits_exactly_witness :
  exists this',
    _appendToUnfinishedMessage scenarioA 2 6 (carry (Buf.from [0; 0; 9]) 2 4 false (fresh 1 3))
      = (Ok tt, this', [])
    /\ blen (unfinishedMessageBuffer this') = 2 + 6
    /\ unfinishedMessageSize this' = 2 + 6
    /\ unfinishedMessageBuffer this'
       = take (Z.to_nat 2) (Buf.from [0; 0; 9])
           ++ take (Z.to_nat 6) (drop (Z.to_nat 2) scenarioA).
Proof.
  apply (reallocation_fits_exactly scenarioA 2 6
           (carry (Buf.from [0; 0; 9]) 2 4 false (fresh 1 3))).
  - vm_compute. split; congruence.
  - lia.
  - lia.
  - vm_compute. congruence.
  - reflexivity.
Defined.

(** ** An append within the free space *)

(** X13: an append that fits the free space of the carry buffer writes the
    bytes behind the carried ones and nowhere else: the capacity and the
    bytes behind the written ones stay as they were. *)
Theorem append_in_place_keeps_the_buffer (data : Buffer) (offset count : Z)
    (this : BinaryMessageParser) :
  0 <= unfinishedMessageSize this <= blen (unfinishedMessageBuffer this) ->
  0 <= offset -> 0 <= count -> offset + count <= blen data ->
  count <= blen (unfinishedMessageBuffer this) - unfinishedMessageSize this ->
  exists this',
    _appendToUnfinishedMessage data offset count this = (Ok tt, this', [])
    /\ blen (unfinishedMessageBuffer this') = blen (unfinishedMessageBuffer this)
    /\ unfinishedMessageSize this' = unfinishedMessageSize this + count
    /\ unfinishedMessageBuffer this'
       = take (Z.to_nat (unfinishedMessageSize this)) (unfinishedMessageBuffer this)
           ++ take (Z.to_nat count) (drop (Z.to_nat offset) data)
           ++ drop (Z.to_nat (unfinishedMessageSize this + count))
                (unfinishedMessageBuffer this)
    /\ expectedMessageSize this' = expectedMessageSize this
    /\ bMessageHeaderExtracted this' = bMessageHeaderExtracted this.
Proof.
  intros Hsize Hoff Hcount Hdata Hfits.
  rewrite append_run by assumption. eexists. split; [reflexivity |].
  assert (Hchunk : blen (take (Z.to_nat count) (drop (Z.to_nat offset) data)) = count).
  { rewrite blen_take; [reflexivity |]. rewrite blen_drop by lia. lia. }
  fields. split; [rewrite blen_appended, Hchunk by lia; lia |].
  split; [reflexivity |]. split; [| split; reflexivity].
  unfold appended. rewrite Hchunk.
  destruct (Z.ltb_spec (blen (unfinishedMessageBuffer this)
                        - unfinishedMessageSize this) count); [lia | reflexivity].
Qed.

Lemma append_in_place_keeps_the_buffer_witness :
  exists this',
    _appendToUnfinishedMessage scenarioA 2 2 (carry (Buf.from [0; 0; 9; 9; 9]) 2 4 false (fresh 1 5))
      = (Ok tt, this', [])
    /\ blen (unfinishedMessageBuffer this') = blen (Buf.from [0; 0; 9; 9; 9])
    /\ unfinishedMessageSize this' = 2 + 2
    /\ unfinishedMessageBuffer this'
       = take (Z.to_nat 2) (Buf.from [0; 0; 9; 9; 9])
           ++ take (Z.to_nat 2) (drop (Z.to_nat 2) scenarioA)
           ++ drop (Z.to_nat (2 + 2)) (Buf.from [0; 0; 9; 9; 9])
    /\ expectedMessageSize this' = 4
    /\ bMessageHeaderExtracted this' = false.
Proof.
  apply (append_in_place_keeps_the_buffer scenarioA 2 2
           (carry (Buf.from [0; 0; 9; 9; 9]) 2 4 false (fresh 1 5))).
  - vm_compute. split; congruence.
  - lia.
  - lia.
  - vm_compute. congruence.
  - vm_compute. congruence.
Defined.

(** ** The capacity of the buffer does not show *)

Lemma same_carry_fields (this that : BinaryMessageParser) :
  same_carry this that ->
  headerExtractor that = headerExtractor this
  /\ unfinishedMessageSize that = unfinishedMessageSize this
  /\ expectedMessageSize that = expectedMessageSize this
  /\ bMessageHeaderExtracted that = bMessageHeaderExtracted this
  /\ bShutdown that = bShutdown this
  /\ lastError that = lastError this.
Proof.
  intros (Hthis & _). rewrite <- Hthis. repeat split.
Qed.

Lemma same_carry_intro (b1 b2 : Buffer) (size expected : Z) (extracted : bool)
    (this that : BinaryMessageParser) :
  same_carry this that ->
  take (Z.to_nat size) b2 = take (Z.to_nat size) b1 ->
  same_carry (carry b1 size expected extracted this)
             (carry b2 size expected extracted that).
Proof.
  intros Hsame Htake.
  destruct (same_carry_fields this that Hsame) as (Hx & _ & _ & _ & Hsd & Herr).
  split; [| exact Htake].
  unfold carry, set_unfinishedMessageBuffer. fields. now rewrite Hx, Hsd, Herr.
Qed.

Lemma same_carry_appended (b1 b2 : Buffer) (size : Z) (chunk : Buffer) :
  0 <= size <= blen b1 -> 0 <= size <= blen b2 ->
  take (Z.to_nat size) b2 = take (Z.to_nat size) b1 ->
  take (Z.to_nat (size + blen chunk)) (appended b2 size chunk)
    = take (Z.to_nat (size + blen chunk)) (appended b1 size chunk).
Proof.
  intros H1 H2 Hsame. rewrite !take_appended by assumption. now rewrite Hsame.
Qed.

Section SameCarry.

Variable E : HeaderExtractor.
Hypothesis E_well_behaved : well_behaved E.

(** One iteration on two consistent parsers that carry the same bytes: the
    same bytes taken, the same callbacks, and again the same bytes carried. *)
Lemma step_same_carry (bytes : Buffer) (offset : Z)
    (this that : BinaryMessageParser) :
  consistent E this -> consistent E that ->
  same_carry this that ->
  0 <= offset < blen bytes ->
  exists r this1 that1 q,
    step E bytes offset this = (r, this1, q)
    /\ step E bytes offset that = (r, that1, q)
    /\ same_carry this1 that1.
Proof.
  destruct E_well_behaved as (Hhbc & Hge & Htotal).
  intros Hcons Hcons' Hsame Hoff.
  destruct (same_carry_fields this that Hsame) as (_ & Hu & He & Hx & _ & _).
  pose proof Hsame as (_ & Hcarried).
  destruct Hcons as (Hrange & Hstage). destruct Hcons' as (Hrange' & _).
  rewrite Hu in Hrange'. unfold carried in Hcarried. rewrite Hu in Hcarried.
  set (rest := drop (Z.to_nat offset) bytes).
  assert (Hrest : blen rest = blen bytes - offset) by (apply blen_rest; lia).
  set (buf := unfinishedMessageBuffer this) in *.
  set (buf' := unfinishedMessageBuffer that) in *.
  set (u := unfinishedMessageSize this) in *.
  unfold step. replace (isFinished that) with (isFinished this)
    by (unfold isFinished; now rewrite Hu).
  destruct (isFinished this) eqn:Hfin.
  - apply isFinished_true in Hfin. fold u in Hfin.
    destruct (Z.lt_ge_cases (blen bytes - offset) (headerByteCount E))
      as [Hshort | Hfull].
    + rewrite (start_short E bytes offset this), (start_short E bytes offset that) by (assumption || lia || (rewrite Hu; assumption)).
      fold rest buf buf'. eexists _, _, _, _.
      split; [reflexivity |]. split; [reflexivity |].
      apply same_carry_intro; [assumption |].
      replace (blen bytes - offset) with (0 + blen rest) by lia.
      apply same_carry_appended; try lia. reflexivity.
    + assert (Hslice : Buf.slice bytes offset (offset + headerByteCount E)
                       = take (Z.to_nat (headerByteCount E)) rest).
      { rewrite slice_in_range by lia. f_equal. f_equal. lia. }
      destruct (Htotal (take (Z.to_nat (headerByteCount E)) rest))
        as [size Hsize]; [apply blen_take; lia |].
      destruct (validateMessageSize E size) eqn:Hval.
      2: { rewrite (start_reject E bytes offset size this), (start_reject E bytes offset size that)
             by (rewrite ?Hslice; (assumption || lia)).
           eexists _, _, _, _. split; [reflexivity |]. split; [reflexivity |].
           assumption. }
      pose proof (Hge size Hval) as Hsize_ge.
      destruct (Z.le_gt_cases size (blen bytes - offset)) as [Hfit | Hmore].
      * rewrite (start_complete E bytes offset size this), (start_complete E bytes offset size that)
          by (rewrite ?Hslice; (assumption || lia)).
        fold buf buf'. eexists _, _, _, _.
        split; [reflexivity |]. split; [reflexivity |].
        apply same_carry_intro; [assumption | reflexivity].
      * rewrite (start_partial E bytes offset size this), (start_partial E bytes offset size that)
          by (rewrite ?Hslice; (assumption || lia || (rewrite Hu; assumption))).
        fold rest buf buf'. eexists _, _, _, _.
        split; [reflexivity |]. split; [reflexivity |].
        apply same_carry_intro; [assumption |].
        replace (blen bytes - offset) with (0 + blen rest) by lia.
        apply same_carry_appended; try lia. reflexivity.
  - apply isFinished_false in Hfin. fold u in Hfin.
    assert (Hmissing_same :
              expectedMessageSize that - unfinishedMessageSize that
              = expectedMessageSize this - u) by (rewrite He, Hu; reflexivity).
    destruct (Z.lt_ge_cases (blen bytes - offset) (expectedMessageSize this - u))
      as [Hshort | Hall].
    + rewrite (continue_more E bytes offset this), (continue_more E bytes offset that) by (rewrite ?Hu, ?He; fold u buf buf'; lia).
      rewrite Hu, He, Hx. fold rest buf buf' u. eexists _, _, _, _.
      split; [reflexivity |]. split; [reflexivity |].
      apply same_carry_intro; [assumption |].
      rewrite <- Hrest. now apply same_carry_appended.
    + set (missing := expectedMessageSize this - u) in *.
      set (c1 := take (Z.to_nat missing) rest).
      destruct Hstage as [Hzero | [(Hflag & Hexp & Hpart) | (Hflag & Hlow & Hhigh & _)]];
        [contradiction | |].
      * assert (Hc1 : blen c1 = missing)
          by (apply blen_take; unfold missing in *; lia).
        assert (Hhead : forall b, 0 <= u <= blen b ->
                  Buf.slice (appended b u c1) 0 (0 + headerByteCount E)
                  = take (Z.to_nat u) b ++ c1).
        { intros b Hb. rewrite slice_in_range;
            [| lia | lia
             | rewrite blen_appended by lia; unfold missing in *; lia].
          change (Z.to_nat 0) with 0%nat. rewrite drop_0, Z.add_0_l, Z.sub_0_r.
          replace (headerByteCount E) with (u + blen c1)
            by (unfold missing in *; lia).
          now apply take_appended. }
        destruct (Htotal (take (Z.to_nat u) buf ++ c1)) as [size Hsize];
          [rewrite blen_app, blen_take by lia; unfold missing in *; lia |].
        rewrite (continue_header E bytes offset size this);
          [ | assumption | fold u buf; lia | lia | fold u missing; lia
            | fold u buf rest missing c1; now rewrite Hhead ].
        rewrite (continue_header E bytes offset size that);
          [ | now rewrite Hx | rewrite Hu; fold buf'; lia | lia
            | rewrite Hmissing_same; lia
            | rewrite Hmissing_same, Hu; fold buf' rest c1;
              now rewrite Hhead, Hcarried ].
        rewrite Hmissing_same, Hu, He. fold u buf buf' rest missing c1.
        eexists _, _, _, _. split; [reflexivity |]. split; [reflexivity |].
        apply same_carry_intro; [assumption |].
        replace (expectedMessageSize this) with (u + blen c1)
          by (unfold missing in *; lia).
        now apply same_carry_appended.
      * assert (Hc1 : blen c1 = missing)
          by (apply blen_take; unfold missing in *; lia).
        rewrite (continue_complete E bytes offset this)
          by (fold u buf missing; (assumption || lia)).
        rewrite (continue_complete E bytes offset that)
          by (rewrite ?Hmissing_same, ?Hx, ?Hu; fold buf'; (assumption || lia)).
        rewrite Hmissing_same, Hu, He. fold u buf buf' rest missing c1.
        assert (Htake : take (Z.to_nat (expectedMessageSize this)) (appended buf' u c1)
                        = take (Z.to_nat (expectedMessageSize this)) (appended buf u c1)).
        { replace (expectedMessageSize this) with (u + blen c1)
            by (unfold missing in *; lia).
          now apply same_carry_appended. }
        rewrite Htake. eexists _, _, _, _.
        split; [reflexivity |]. split; [reflexivity |].
        apply same_carry_intro; [assumption | reflexivity].
Qed.

End SameCarry.

Lemma same_carry_shutdown (b : bool) (this that : BinaryMessageParser) :
  same_carry this that ->
  same_carry (set_bShutdown b this) (set_bShutdown b that).
Proof.
  intros Hsame.
  destruct (same_carry_fields this that Hsame) as (Hl & Hu & He & Hx & _ & Herr).
  destruct Hsame as (_ & Hcarried). split; [| exact Hcarried].
  unfold set_bShutdown, set_unfinishedMessageBuffer. fields.
  now rewrite Hl, Hu, He, Hx, Herr.
Qed.

Lemma same_carry_refl (this : BinaryMessageParser) : same_carry this this.
Proof. split; [destruct this |]; reflexivity. Qed.

Section SameResults.

Variable E : HeaderExtractor.
Hypothesis E_well_behaved : well_behaved E.

Lemma drain_same_carry (fuel : nat) :
  forall (bytes : Buffer) (offset : Z) (this that : BinaryMessageParser)
         r this' q,
  consistent E this -> consistent E that ->
  same_carry this that ->
  0 <= offset ->
  drain E fuel bytes offset this = Some (r, this', q) ->
  exists that',
    drain E fuel bytes offset that = Some (r, that', q)
    /\ same_carry this' that'
    /\ (r = Ok true -> consistent E this' /\ consistent E that').
Proof.
  induction fuel as [| fuel IH];
    intros bytes offset this that r this' q Hcons Hcons' Hsame Hoff Hrun.
  - cbn [drain] in Hrun |- *.
    destruct (Z.ltb_spec offset (blen bytes)); [discriminate |].
    injection Hrun as <- <- <-. exists that.
    split; [reflexivity |]. split; [assumption |]. intros _. split; assumption.
  - destruct (Z.ltb_spec offset (blen bytes)) as [Hlt | Hge].
    2: { rewrite drain_end in Hrun |- * by lia. injection Hrun as <- <- <-.
         exists that. split; [reflexivity |]. split; [assumption |].
         intros _. split; assumption. }
    rewrite drain_step in Hrun |- * by lia.
    fold (step E bytes offset this) in Hrun. fold (step E bytes offset that).
    destruct (step_same_carry E E_well_behaved bytes offset this that
                Hcons Hcons' Hsame (conj Hoff Hlt))
      as (r0 & this1 & that1 & q0 & Hstep & Hstep' & Hsame1).
    pose proof (step_consistent E E_well_behaved bytes offset this Hcons
                  (conj Hoff Hlt)) as Hthis.
    pose proof (step_consistent E E_well_behaved bytes offset that Hcons'
                  (conj Hoff Hlt)) as Hthat.
    rewrite Hstep in Hrun, Hthis. rewrite Hstep' in Hthat |- *.
    destruct r0 as [n | e].
    2: { injection Hrun as <- <- <-. exists that1.
         split; [reflexivity |]. split; [assumption | discriminate]. }
    destruct (Z.ltb_spec n 0) as [Hneg | Hpos].
    + injection Hrun as <- <- <-. exists (set_bShutdown true that1).
      split; [reflexivity |]. split; [now apply same_carry_shutdown |].
      discriminate.
    + destruct Hthis as [(n1 & t1 & ms1 & [= <- <- _] & _ & Hcons1 & _)
                        | (t1 & rep & sz & [= -> _ _] & _)]; [| lia].
      destruct Hthat as [(n2 & t2 & ms2 & [= _ <- _] & _ & Hcons2 & _)
                        | (t2 & rep & sz & [= -> _ _] & _)]; [| lia].
      destruct (drain E fuel bytes (offset + n) this1)
        as [[[r2 this2] q2] |] eqn:Hrest; [| discriminate].
      injection Hrun as <- <- <-.
      destruct (IH bytes (offset + n) this1 that1 r2 this2 q2
                  Hcons1 Hcons2 Hsame1 ltac:(lia) Hrest)
        as (that2 & Hrest' & Hsame2 & Hcons_end).
      rewrite Hrest'. exists that2.
      split; [reflexivity |]. split; assumption.
Qed.

Lemma feed_same_carry (chunks : list Buffer) :
  forall this that : BinaryMessageParser,
  isShutdown this = true \/ (consistent E this /\ consistent E that) ->
  same_carry this that ->
  exists rs this' that' q,
    feed E chunks this = Some (rs, this', q)
    /\ feed E chunks that = Some (rs, that', q)
    /\ same_carry this' that'.
Proof.
  induction chunks as [| c chunks IH]; intros this that Hinv Hsame.
  - exists [], this, that, []. split; [reflexivity |].
    split; [reflexivity | assumption].
  - cbn [feed]. unfold parseBytes.
    replace (isShutdown that) with (isShutdown this)
      by (unfold isShutdown; symmetry;
          apply (same_carry_fields this that Hsame)).
    destruct (isShutdown this) eqn:Hup.
    + destruct (IH this that (or_introl Hup) Hsame)
        as (rs & this' & that' & q & Hfeed & Hfeed' & Hsame').
      rewrite Hfeed, Hfeed'. eexists _, this', that', _.
      split; [reflexivity |]. split; [reflexivity | assumption].
    + destruct Hinv as [Hdown | (Hcons & Hcons')]; [discriminate |].
      destruct (drain_consistent E E_well_behaved (enough c) c 0 this)
        as (b & this1 & ms & _ & _ & Hcall);
        [unfold measure, enough, blen in *; pose proof (phase_bounds this); lia
        | lia | assumption |].
      assert (Hrun : exists r q1,
                drain E (enough c) c 0 this = Some (Ok r, this1, q1)
                /\ (r = false -> isShutdown this1 = true)).
      { destruct b.
        - destruct Hcall as (Hrun & _). eexists true, _.
          split; [exact Hrun | discriminate].
        - destruct Hcall as (report & tail & size & Hrun & _).
          eexists false, _. split; [exact Hrun |]. intros _.
          now apply drain_frame in Hrun as (_ & _ & Hsd). }
      destruct Hrun as (r & q1 & Hrun & Hdown).
      destruct (drain_same_carry (enough c) c 0 this that (Ok r) this1 q1
                  Hcons Hcons' Hsame ltac:(lia) Hrun)
        as (that1 & Hrun' & Hsame1 & Hcons1).
      rewrite Hrun, Hrun'.
      assert (Hinv1 : isShutdown this1 = true
                      \/ (consistent E this1 /\ consistent E that1)).
      { destruct r; [right; now apply Hcons1 | left; now apply Hdown]. }
      destruct (IH this1 that1 Hinv1 Hsame1)
        as (rs & this' & that' & q & Hfeed & Hfeed' & Hsame').
      rewrite Hfeed, Hfeed'. eexists _, this', that', _.
      split; [reflexivity |]. split; [reflexivity | assumption].
Qed.

End SameResults.

(** X14: the initial buffer size does not show in what a parser does.  Two
    parsers created with different sizes and fed the same chunks return the
    same booleans and schedule the same callbacks, call by call, and end
    with the same fields and the same bytes carried; they differ at most in
    the capacity of their buffers and the bytes behind the carried ones. *)
Theorem initial_buffer_size_does_not_show (E : HeaderExtractor)
    (chunks : list Buffer) (l : loc) (capacity capacity' : Z) :
  well_behaved E ->
  exists rs this' that' q,
    feed E chunks (fresh l capacity) = Some (rs, this', q)
    /\ feed E chunks (fresh l capacity') = Some (rs, that', q)
    /\ set_unfinishedMessageBuffer (unfinishedMessageBuffer this') that' = this'
    /\ carried that' = carried this'.
Proof.
  intros Hwb.
  apply (feed_same_carry E Hwb chunks (fresh l capacity) (fresh l capacity')).
  - right. split; apply idle_is_consistent; reflexivity.
  - split; reflexivity.
Qed.

Lemma initial_buffer_size_does_not_show_witness :
  exists rs this' that' q,
    feed HeaderExtractorInt32BE rejectedInChunks (fresh 1 2) = Some (rs, this', q)
    /\ feed HeaderExtractorInt32BE rejectedInChunks (fresh 1 10240)
       = Some (rs, that', q)
    /\ set_unfinishedMessageBuffer (unfinishedMessageBuffer this') that' = this'
    /\ carried that' = carried this'.
Proof.
  apply (initial_buffer_size_does_not_show HeaderExtractorInt32BE
           rejectedInChunks 1 2 10240).
  apply (standard_extractors_well_behaved Int32BE).
Defined.

(** ** An accepted size below the header *)




(** ** The scenarios of the test suite *)

(** An extractor built by [createPODExtractor] already has its validator:
    the constructor leaves the object alone, and the parser finds the
    extractor behind its reference. *)
Lemma construct_with_extractor (h : store) (l : loc) (E : HeaderExtractor)
    (initialBufferSize : value) :
  h !! l = Some (objectOfExtractor E) ->
  0 < capacityFor initialBufferSize <= Buf.kMaxLength ->
  new_BinaryMessageParser h (VObject l) initialBufferSize
    = (h, Ok (fresh l (capacityFor initialBufferSize)))
  /\ extractorAt h l = Some E.
Proof.
  intros Hl Hcap. split.
  - rewrite (construct_accepted h l (objectOfExtractor E)) by (exact Hl || reflexivity).
    rewrite bool_decide_eq_false_2 by (intros Hb; now apply Hb).
    destruct (Z.leb_spec (capacityFor initialBufferSize) 0); [lia |].
    destruct (Z.ltb_spec Buf.kMaxLength (capacityFor initialBufferSize));
      [lia | reflexivity].
  - unfold extractorAt. rewrite Hl. destruct E. reflexivity.
Qed.

Example scenario_A :
  feed HeaderExtractorInt32BE [scenarioA] (fresh 1 10240)
    = Some ([true], fresh 1 10240, [EmitMessage scenarioA])
  /\ blen scenarioA = 8
  /\ Buf.readInt32BE (drop 4 scenarioA) 0 = Ok 5.
Proof. repeat split; vm_compute; reflexivity. Qed.

Example scenario_B :
  exists this',
    feed HeaderExtractorInt32BE scenarioB (fresh 1 10240)
      = Some ([true; true; true; true], this', [EmitMessage scenarioA])
    /\ isFinished this' = true.
Proof. eexists. split; vm_compute; reflexivity. Qed.

Example scenario_C :
  parseBytes HeaderExtractorInt32BE (enough scenarioC) scenarioC (fresh 1 10240)
    = Some (Ok false, afterScenarioC, [ReportInvalidSize 1])
  /\ snd (runImmediate (ReportInvalidSize 1) afterScenarioC)
     = OnError ERR_INVALID_MSG_SIZE 1
  /\ parseBytes HeaderExtractorInt32BE (enough headerOnly) headerOnly afterScenarioC
     = Some (Ok false, afterScenarioC, []).
Proof. repeat split; vm_compute; reflexivity. Qed.

Example scenario_D :
  feed HeaderExtractorInt8 [Buf.from [5; 0; 0; 0; 5]] (fresh 1 10240)
    = Some ([true], fresh 1 10240, [EmitMessage (Buf.from [5; 0; 0; 0; 5])]).
Proof. vm_compute. reflexivity. Qed.

(** The vectors of the per-extractor test: each is one message. *)
Example every_standard_header_is_read :
  Forall (fun '(name, data) =>
            feed (standardExtractor name) [Buf.from data] (fresh 1 10240)
              = Some ([true], fresh 1 10240, [EmitMessage (Buf.from data)]))
    [ (Int8, [5; 0; 0; 0; 5]); (UInt8, [5; 0; 0; 0; 5]);
      (Int16BE, [0; 6; 0; 0; 0; 5]); (UInt16BE, [0; 6; 0; 0; 0; 5]);
      (Int16LE, [6; 0; 0; 0; 0; 5]); (UInt16LE, [6; 0; 0; 0; 0; 5]);
      (Int32BE, [0; 0; 0; 8; 0; 0; 0; 5]); (UInt32BE, [0; 0; 0; 8; 0; 0; 0; 5]);
      (Int32LE, [8; 0; 0; 0; 0; 0; 0; 5]); (UInt32LE, [8; 0; 0; 0; 0; 0; 0; 5]) ].
Proof. repeat constructor; vm_compute; reflexivity. Qed.

(** With the validator left out, a header that declares one byte is taken
    for a one-byte message. *)
Example size_below_header_is_accepted_without_validator :
  parseBytes_in (store_after storeWithoutValidator (VObject 1) VUndefined)
    (enough scenarioC) scenarioC (fresh 1 16)
  = Some (Ok true,
          carry (Buf.from [0; 0; 1; 0; 0; 0; 0; 0; 0; 0; 0; 0; 0; 0; 0; 0])
            3 4 false (fresh 1 16),
          [EmitMessage (Buf.from [0])]).
Proof. vm_compute. reflexivity. Qed.
